(** * The Twinkle compiler front end: a shallow embedding of its lowering code

    The sources are a snapshot that spans several stages of the project
    (the namespaces [miko], [maple] and [twinkle] are the same compiler at
    different times).  Each module below embeds the functions of one source
    file, keeping the names of the source:

    - [Std]      : the comparisons of the C++ standard library they use;
    - [Ast]      : the orderings of the type AST (the AST header);
    - [Codegen]  : [Namespace], [NamespaceStack] and the keys of the template
                   tables (twinkle/codegen/codegen.hpp);
    - [LLVM]     : the back end as the lowering code sees it, values, basic
                   blocks and the instruction builder;
    - [Expr]     : the expression visitor of lib/src/codegen/expr.cpp;
    - [Parse]    : the Spirit X3 grammar and [parser::parse] of parse.cpp;
    - [Stmt]     : the statement visitor, [createDestructBB] and
                   [createStatement] of the statement lowering;
    - [Miko]     : the code generator of the earlier snapshot, codegen.cxx:
                   its symbol table, the expression and the statement
                   visitors, and the definition of a function. *)

From Stdlib Require Import ZArith NArith Bool String Ascii List Lia.
From stdpp Require Import base option list strings gmap.

Local Open Scope Z_scope.

(* ===================================================================== *)
(** ** Standard-library comparison algorithms used by the sources *)
(* ===================================================================== *)

Module Std.

(** [std::lexicographical_compare(first1, last1, first2, last2)] with the
    element comparison [lt]: the loop of the standard, element by element. *)
Fixpoint lexicographical_compare {A : Type} (lt : A -> A -> bool)
    (l1 l2 : list A) : bool :=
  match l1, l2 with
  | x :: l1', y :: l2' =>
      if lt x y then true
      else if lt y x then false
      else lexicographical_compare lt l1' l2'
  | [], _ :: _ => true
  | _, [] => false
  end.

(** The equivalence an ordered container ([std::set], [std::map]) derives
    from its comparison: neither element is less than the other. *)
Definition equivalent {A : Type} (lt : A -> A -> bool) (a b : A) : bool :=
  negb (lt a b) && negb (lt b a).

(** [std::string::operator<]: bytewise lexicographic. *)
Definition string_lt (a b : string) : bool := String.ltb a b.

(** [std::u32string::operator<] on strings given as lists of code points. *)
Definition u32string_lt (a b : list N) : bool :=
  lexicographical_compare N.ltb a b.

Lemma lexicographical_compare_irrefl {A : Type} (lt : A -> A -> bool) :
  (forall x, lt x x = false) ->
  forall l, lexicographical_compare lt l l = false.
Proof.
  intros Hirr l. induction l as [|x l IH]; simpl; [reflexivity|].
  rewrite Hirr. exact IH.
Qed.

Lemma string_lt_irrefl (s : string) : string_lt s s = false.
Proof.
  unfold string_lt, String.ltb.
  pose proof (String.compare_antisym s s) as H.
  destruct (String.compare s s); simpl in H; try discriminate; reflexivity.
Qed.

Lemma u32string_lt_irrefl (s : list N) : u32string_lt s s = false.
Proof.
  apply lexicographical_compare_irrefl. intros x. apply N.ltb_irrefl.
Qed.

(** Two sequences whose elements are pairwise equivalent and whose lengths
    agree are equivalent: the loop never finds a deciding position. *)
Lemma lexicographical_compare_pointwise {A : Type} (lt : A -> A -> bool) :
  forall l1 l2,
    Forall2 (fun x y => lt x y = false /\ lt y x = false) l1 l2 ->
    lexicographical_compare lt l1 l2 = false.
Proof.
  intros l1 l2 H. induction H as [|x y l1 l2 [Hxy Hyx] _ IH]; simpl.
  - reflexivity.
  - rewrite Hxy, Hyx. exact IH.
Qed.

(** *** Orders *)

Section StrictTotalOrder.
Context {A : Type} (lt : A -> A -> bool).
Hypothesis lt_irrefl : forall x, lt x x = false.
Hypothesis lt_trans :
  forall x y z, lt x y = true -> lt y z = true -> lt x z = true.
Hypothesis lt_total : forall x y, lt x y = false -> lt y x = false -> x = y.

Lemma lt_asym (x y : A) : lt x y = true -> lt y x = false.
Proof.
  intros Hxy. destruct (lt y x) eqn:Hyx; [|reflexivity].
  rewrite <- (lt_irrefl x). symmetry. exact (lt_trans _ _ _ Hxy Hyx).
Qed.

(** Over a strict total order on the elements the lexicographic comparison
    is a strict total order on the sequences. *)
Lemma lexicographical_compare_trans :
  forall l1 l2 l3,
    lexicographical_compare lt l1 l2 = true ->
    lexicographical_compare lt l2 l3 = true ->
    lexicographical_compare lt l1 l3 = true.
Proof.
  induction l1 as [|x l1 IH]; intros [|y l2] [|z l3] H12 H23; simpl in *;
    try discriminate; try reflexivity.
  destruct (lt x y) eqn:Hxy.
  - destruct (lt y z) eqn:Hyz.
    + rewrite (lt_trans _ _ _ Hxy Hyz). reflexivity.
    + destruct (lt z y) eqn:Hzy; [discriminate|].
      rewrite <- (lt_total _ _ Hyz Hzy), Hxy. reflexivity.
  - destruct (lt y x) eqn:Hyx; [discriminate|].
    rewrite (lt_total _ _ Hxy Hyx).
    destruct (lt y z); [reflexivity|].
    destruct (lt z y); [discriminate|].
    exact (IH _ _ H12 H23).
Qed.

Lemma lexicographical_compare_total :
  forall l1 l2,
    lexicographical_compare lt l1 l2 = false ->
    lexicographical_compare lt l2 l1 = false -> l1 = l2.
Proof.
  induction l1 as [|x l1 IH]; intros [|y l2] H12 H21; simpl in *;
    try discriminate; try reflexivity.
  destruct (lt x y) eqn:Hxy; [discriminate|].
  destruct (lt y x) eqn:Hyx; [discriminate|].
  rewrite (lt_total _ _ Hxy Hyx), (IH _ H12 H21). reflexivity.
Qed.

End StrictTotalOrder.

(** The bytes of a string, as numbers. *)
Definition bytes (s : string) : list N :=
  map N_of_ascii (list_ascii_of_string s).

Lemma bytes_inj (a b : string) : bytes a = bytes b -> a = b.
Proof.
  revert b. induction a as [|c a IH]; intros [|d b] H; simpl in H;
    try discriminate; [reflexivity|].
  injection H as Hc Hab.
  rewrite <- (ascii_N_embedding c), <- (ascii_N_embedding d), Hc.
  rewrite (IH _ Hab). reflexivity.
Qed.

(** [String.ltb] is the lexicographic comparison of the bytes. *)
Lemma string_lt_bytes (a b : string) :
  string_lt a b = lexicographical_compare N.ltb (bytes a) (bytes b).
Proof.
  unfold string_lt, String.ltb. revert b.
  induction a as [|c a IH]; intros [|d b]; simpl; try reflexivity.
  unfold Ascii.compare, N.ltb. rewrite (N.compare_antisym (N_of_ascii c)).
  destruct (N_of_ascii c ?= N_of_ascii d)%N; simpl; try reflexivity.
  apply IH.
Qed.

Lemma N_ltb_trans (x y z : N) :
  (x <? y)%N = true -> (y <? z)%N = true -> (x <? z)%N = true.
Proof. rewrite !N.ltb_lt. lia. Qed.

Lemma N_ltb_total (x y : N) :
  (x <? y)%N = false -> (y <? x)%N = false -> x = y.
Proof. rewrite !N.ltb_ge. lia. Qed.

Lemma string_lt_trans (a b c : string) :
  string_lt a b = true -> string_lt b c = true -> string_lt a c = true.
Proof.
  rewrite !string_lt_bytes.
  apply lexicographical_compare_trans; [apply N_ltb_trans|apply N_ltb_total].
Qed.

Lemma string_lt_total (a b : string) :
  string_lt a b = false -> string_lt b a = false -> a = b.
Proof.
  rewrite !string_lt_bytes. intros Hab Hba. apply bytes_inj.
  exact (lexicographical_compare_total _ N_ltb_total _ _ Hab Hba).
Qed.

End Std.

(* ===================================================================== *)
(** ** twinkle/ast/ast.hpp: the type AST and its orderings *)
(* ===================================================================== *)

Module Ast.

(** [ast::Identifier]: a UTF-32 name, a list of code points. *)
Record Identifier := mkIdentifier { name : list N }.

(** [Identifier(std::string_view)] on ASCII text: [unicode::utf8toUtf32]
    maps every ASCII byte to the code point of the same value. *)
Definition ident (s : string) : Identifier :=
  mkIdentifier (map (fun c => N_of_ascii c) (list_ascii_of_string s)).

(** [Identifier::operator<]: [name < other.utf32()]. *)
Definition Identifier_lt (a b : Identifier) : bool :=
  Std.u32string_lt (name a) (name b).

(** Modelled from the spec: [codegen::BuiltinTypeKind] is declared in
    twinkle/codegen/kind.hpp, which is not among the sources; the kinds are
    those the spec lists, [void, bool, i8/u8/i16/u16/i32/u32/i64/u64,
    f32/f64, char]. *)
Inductive BuiltinTypeKind :=
  | void_ | bool_ | i8 | u8 | i16 | u16 | i32 | u32 | i64 | u64
  | f32 | f64 | char_.

#[global] Instance BuiltinTypeKind_eq_dec : EqDecision BuiltinTypeKind.
Proof. solve_decision. Defined.

(** Modelled from the spec: the underlying value of each enumerator, taken
    in the order of the spec's list.  [BuiltinType::operator<] compares
    these values; nothing below depends on the order chosen, only on its
    being a strict order on the enumerators. *)
Definition BuiltinTypeKind_value (k : BuiltinTypeKind) : N :=
  match k with
  | void_ => 0 | bool_ => 1 | i8 => 2 | u8 => 3 | i16 => 4 | u16 => 5
  | i32 => 6 | u32 => 7 | i64 => 8 | u64 => 9 | f32 => 10 | f64 => 11
  | char_ => 12
  end%N.

(** [BuiltinType::operator<]: [kind < other.kind]. *)
Definition BuiltinType_lt (a b : BuiltinTypeKind) : bool :=
  (BuiltinTypeKind_value a <? BuiltinTypeKind_value b)%N.

(** [ast::Type], the [boost::variant] over [boost::blank], [BuiltinType],
    [UserDefinedType], [UserDefinedTemplateType], [ArrayType],
    [PointerType] and [ReferenceType], with the fields of each struct.
    [n_ops] of a pointer is a [std::vector<boost::blank>]. *)
#[warnings="-register-all"]
Inductive Type_ :=
  | Blank
  | BuiltinType (kind : BuiltinTypeKind)
  | UserDefinedType (name : Identifier)
  | UserDefinedTemplateType (template_type : Identifier)
                            (template_args : list Type_)
  | ArrayType (element_type : Type_) (size : N)
  | PointerType (n_ops : list unit) (pointee_type : Type_)
  | ReferenceType (refee_type : Type_).

(** [variant::which()]: the index of the held alternative. *)
Definition which (t : Type_) : N :=
  match t with
  | Blank => 0
  | BuiltinType _ => 1
  | UserDefinedType _ => 2
  | UserDefinedTemplateType _ _ => 3
  | ArrayType _ _ => 4
  | PointerType _ _ => 5
  | ReferenceType _ => 6
  end%N.

(** [boost::blank::operator<] is constantly false. *)
Definition blank_lt (_ _ : unit) : bool := false.

(** [operator<] of [ast::Type].  [boost::variant] compares [which()] when
    the alternatives differ and otherwise the contents with the [operator<]
    of the alternative; the struct bodies are those of the source:
    - [UserDefinedTemplateType]: [template_type < other.template_type
      && template_args < other.template_args];
    - [ArrayType]: [element_type < other.element_type && size < other.size];
    - [PointerType]: [n_ops < other.n_ops && pointee_type < other.pointee_type];
    - [ReferenceType]: [refee_type < other.refee_type];
    - [TemplateArguments]: [types < other.types], the lexicographic
      comparison of [std::vector].
    [Type_lt a b] is [a < b] and [Type_gt a b] is [b < a]: the vector
    comparison asks both questions of each pair of elements, and both are
    defined by recursion on [a] (see [Type_gt_lt]). *)
Fixpoint Type_lt (a b : Type_) {struct a} : bool :=
  match a, b with
  | Blank, Blank => false
  | BuiltinType k1, BuiltinType k2 => BuiltinType_lt k1 k2
  | UserDefinedType n1, UserDefinedType n2 => Identifier_lt n1 n2
  | UserDefinedTemplateType t1 args1, UserDefinedTemplateType t2 args2 =>
      Identifier_lt t1 t2 &&
      (fix types_lt (l1 l2 : list Type_) {struct l1} : bool :=
         match l1, l2 with
         | x :: l1', y :: l2' =>
             if Type_lt x y then true
             else if Type_gt x y then false
             else types_lt l1' l2'
         | [], _ :: _ => true
         | _, [] => false
         end) args1 args2
  | ArrayType e1 s1, ArrayType e2 s2 => Type_lt e1 e2 && (s1 <? s2)%N
  | PointerType o1 p1, PointerType o2 p2 =>
      Std.lexicographical_compare blank_lt o1 o2 && Type_lt p1 p2
  | ReferenceType r1, ReferenceType r2 => Type_lt r1 r2
  | _, _ => (which a <? which b)%N
  end
with Type_gt (a b : Type_) {struct a} : bool :=
  match a, b with
  | Blank, Blank => false
  | BuiltinType k1, BuiltinType k2 => BuiltinType_lt k2 k1
  | UserDefinedType n1, UserDefinedType n2 => Identifier_lt n2 n1
  | UserDefinedTemplateType t1 args1, UserDefinedTemplateType t2 args2 =>
      Identifier_lt t2 t1 &&
      (fix types_gt (l1 l2 : list Type_) {struct l1} : bool :=
         match l1, l2 with
         | x :: l1', y :: l2' =>
             if Type_gt x y then true
             else if Type_lt x y then false
             else types_gt l1' l2'
         | _ :: _, [] => true
         | [], _ => false
         end) args1 args2
  | ArrayType e1 s1, ArrayType e2 s2 => Type_gt e1 e2 && (s2 <? s1)%N
  | PointerType o1 p1, PointerType o2 p2 =>
      Std.lexicographical_compare blank_lt o2 o1 && Type_gt p1 p2
  | ReferenceType r1, ReferenceType r2 => Type_gt r1 r2
  | _, _ => (which b <? which a)%N
  end.

(** [TemplateArguments]: the vector [types]. *)
Record TemplateArguments := mkTemplateArguments { types : list Type_ }.

(** [TemplateArguments::operator<]: [types < other.types]. *)
Definition TemplateArguments_lt (a b : TemplateArguments) : bool :=
  Std.lexicographical_compare Type_lt (types a) (types b).

(** Induction on types that reaches the template arguments. *)
Section Type_induction.
Variable P : Type_ -> Prop.
Hypothesis HBlank : P Blank.
Hypothesis HBuiltin : forall k, P (BuiltinType k).
Hypothesis HUser : forall n, P (UserDefinedType n).
Hypothesis HTemplate :
  forall t args, Forall P args -> P (UserDefinedTemplateType t args).
Hypothesis HArray : forall e s, P e -> P (ArrayType e s).
Hypothesis HPointer : forall o p, P p -> P (PointerType o p).
Hypothesis HReference : forall r, P r -> P (ReferenceType r).

Fixpoint Type_rect_nested (t : Type_) : P t :=
  match t with
  | Blank => HBlank
  | BuiltinType k => HBuiltin k
  | UserDefinedType n => HUser n
  | UserDefinedTemplateType t args =>
      HTemplate t args
        ((fix go (l : list Type_) : Forall P l :=
            match l with
            | [] => @List.Forall_nil _ P
            | x :: l' => @List.Forall_cons _ P x l' (Type_rect_nested x) (go l')
            end) args)
  | ArrayType e s => HArray e s (Type_rect_nested e)
  | PointerType o p => HPointer o p (Type_rect_nested p)
  | ReferenceType r => HReference r (Type_rect_nested r)
  end.
End Type_induction.

(** [Type_gt] is [Type_lt] with its arguments exchanged, so [Type_lt] alone
    is the [operator<] of the source. *)
Lemma Type_gt_lt_both :
  forall a b, Type_gt a b = Type_lt b a /\ Type_lt a b = Type_gt b a.
Proof.
  induction a as [|k|n|t args IH|e s IH|o p IH|r IH] using Type_rect_nested;
    intros b; destruct b; simpl; try (split; reflexivity).
  - rename template_args into args2.
    split; f_equal.
    + revert args2. induction IH as [|x l Hx _ IHl]; intros args2.
      * destruct args2; reflexivity.
      * destruct args2 as [|y l2]; [reflexivity|].
        destruct (Hx y) as [-> ->]. rewrite IHl. reflexivity.
    + revert args2. induction IH as [|x l Hx _ IHl]; intros args2.
      * destruct args2; reflexivity.
      * destruct args2 as [|y l2]; [reflexivity|].
        destruct (Hx y) as [-> ->]. rewrite IHl. reflexivity.
  - destruct (IH b) as [-> ->]. split; reflexivity.
  - destruct (IH b) as [-> ->]. split; reflexivity.
  - apply IH.
Qed.

Lemma Type_gt_lt (a b : Type_) : Type_gt a b = Type_lt b a.
Proof. apply Type_gt_lt_both. Qed.

(** The comparison of template types unfolds to the source's expression. *)
Lemma Type_lt_template (t1 t2 : Identifier) (args1 args2 : list Type_) :
  Type_lt (UserDefinedTemplateType t1 args1) (UserDefinedTemplateType t2 args2)
  = Identifier_lt t1 t2 && Std.lexicographical_compare Type_lt args1 args2.
Proof.
  simpl. f_equal. revert args2.
  induction args1 as [|x l IH]; intros [|y l2]; simpl; try reflexivity.
  rewrite Type_gt_lt, IH. reflexivity.
Qed.

Lemma Identifier_lt_irrefl (n : Identifier) : Identifier_lt n n = false.
Proof. apply Std.u32string_lt_irrefl. Qed.

Lemma Type_lt_irrefl : forall a, Type_lt a a = false.
Proof.
  induction a as [|k|n|t args IH|e s IH|o p IH|r IH] using Type_rect_nested.
  - reflexivity.
  - apply N.ltb_irrefl.
  - apply Identifier_lt_irrefl.
  - rewrite Type_lt_template, Identifier_lt_irrefl. reflexivity.
  - simpl. rewrite IH. reflexivity.
  - simpl. rewrite IH. apply andb_false_r.
  - exact IH.
Qed.

Lemma TemplateArguments_lt_irrefl (a : TemplateArguments) :
  TemplateArguments_lt a a = false.
Proof.
  apply Std.lexicographical_compare_irrefl, Type_lt_irrefl.
Qed.

(** *** The types the ordering tells apart *)

(** The types built without [UserDefinedTemplateType], [ArrayType] and
    [PointerType], the three structs whose [operator<] is a conjunction. *)
Fixpoint simple (t : Type_) : bool :=
  match t with
  | Blank | BuiltinType _ | UserDefinedType _ => true
  | ReferenceType r => simple r
  | _ => false
  end.

Lemma BuiltinTypeKind_value_inj (a b : BuiltinTypeKind) :
  BuiltinTypeKind_value a = BuiltinTypeKind_value b -> a = b.
Proof. destruct a, b; simpl; intros H; try discriminate H; reflexivity. Qed.

Lemma Identifier_lt_total (a b : Identifier) :
  Identifier_lt a b = false -> Identifier_lt b a = false -> a = b.
Proof.
  destruct a as [n1], b as [n2]. unfold Identifier_lt. simpl.
  intros Hab Hba. f_equal.
  exact (Std.lexicographical_compare_total _ Std.N_ltb_total _ _ Hab Hba).
Qed.

(** On these types [operator<] is total: of two different types one is
    less than the other. *)
Lemma Type_lt_total_simple : forall a b,
  simple a = true -> simple b = true ->
  Type_lt a b = false -> Type_lt b a = false -> a = b.
Proof.
  induction a as [|k|n|t args IH|e s IH|o p IH|r IH] using Type_rect_nested;
    intros b Ha Hb Hab Hba; destruct b; simpl in *;
    try discriminate; try reflexivity.
  - f_equal. apply BuiltinTypeKind_value_inj.
    exact (Std.N_ltb_total _ _ Hab Hba).
  - f_equal. exact (Identifier_lt_total _ _ Hab Hba).
  - f_equal. exact (IH _ Ha Hb Hab Hba).
Qed.

Lemma TemplateArguments_lt_total_simple : forall l1 l2,
  forallb simple l1 = true -> forallb simple l2 = true ->
  Std.lexicographical_compare Type_lt l1 l2 = false ->
  Std.lexicographical_compare Type_lt l2 l1 = false -> l1 = l2.
Proof.
  induction l1 as [|x l1 IH]; intros [|y l2] H1 H2 H12 H21; simpl in *;
    try discriminate; try reflexivity.
  apply andb_true_iff in H1 as [Hx H1], H2 as [Hy H2].
  destruct (Type_lt x y) eqn:Hxy; [discriminate|].
  destruct (Type_lt y x) eqn:Hyx; [discriminate|].
  rewrite (Type_lt_total_simple _ _ Hx Hy Hxy Hyx), (IH _ H1 H2 H12 H21).
  reflexivity.
Qed.

End Ast.

(* ===================================================================== *)
(** ** twinkle/codegen/codegen.hpp: namespaces and template-table keys *)
(* ===================================================================== *)

Module Codegen.

Inductive NamespaceKind := unknown | namespace_ | class_.

(** [struct Namespace]: a name and a kind. *)
Record Namespace := mkNamespace { name : string; kind : NamespaceKind }.

(** [Namespace::operator<]: [return name < other.name;]. *)
Definition Namespace_lt (a b : Namespace) : bool :=
  Std.string_lt (name a) (name b).

(** [struct NamespaceStack]: the deque [namespaces], front first. *)
Record NamespaceStack := mkNamespaceStack { namespaces : list Namespace }.

Definition empty (s : NamespaceStack) : bool :=
  match namespaces s with [] => true | _ => false end.

(** [push]: [namespaces.push_back(n)]. *)
Definition push (s : NamespaceStack) (n : Namespace) : NamespaceStack :=
  mkNamespaceStack (namespaces s ++ [n]).

(** [top]: [namespaces.back()]; the source asserts the stack is not empty. *)
Definition top (s : NamespaceStack) : option Namespace := last (namespaces s).

(** [pop]: returns [top()] and removes it. *)
Definition pop (s : NamespaceStack) : option (Namespace * NamespaceStack) :=
  match top s with
  | Some n => Some (n, mkNamespaceStack (removelast (namespaces s)))
  | None => None
  end.

(** [contains]: some entry has the name [x]. *)
Definition contains (s : NamespaceStack) (x : string) : bool :=
  existsb (fun r => String.eqb (name r) x) (namespaces s).

(** [NamespaceStack::operator<]: [std::lexicographical_compare] over the two
    deques, with [Namespace::operator<] on the entries. *)
Definition NamespaceStack_lt (a b : NamespaceStack) : bool :=
  Std.lexicographical_compare Namespace_lt (namespaces a) (namespaces b).

(** The two stacks are distinct keys of an ordered container: one of them is
    less than the other. *)
Definition distinct_keys (a b : NamespaceStack) : bool :=
  negb (Std.equivalent NamespaceStack_lt a b).

(** [CreatedClassTemplateTableKey]:
    [std::tuple<std::string, ast::TemplateArguments, NamespaceStack>]. *)
Definition CreatedClassTemplateTableKey : Type :=
  string * Ast.TemplateArguments * NamespaceStack.

(** [operator<] of [std::tuple]: lexicographic, component by component. *)
Definition CreatedClassTemplateTableKey_lt
    (a b : CreatedClassTemplateTableKey) : bool :=
  let '(n1, args1, ns1) := a in
  let '(n2, args2, ns2) := b in
  if Std.string_lt n1 n2 then true
  else if Std.string_lt n2 n1 then false
  else if Ast.TemplateArguments_lt args1 args2 then true
  else if Ast.TemplateArguments_lt args2 args1 then false
  else NamespaceStack_lt ns1 ns2.

(** [CreatedClassTemplateTableElem]: a key paired with the
    [std::shared_ptr<Type>] of the created type, here the address the
    pointer holds; [std::set] orders the pairs by [operator<] of
    [std::pair], which falls back on the addresses when neither key is less
    than the other. *)
Definition CreatedClassTemplateTableElem : Type :=
  CreatedClassTemplateTableKey * N.

Definition CreatedClassTemplateTableElem_lt
    (a b : CreatedClassTemplateTableElem) : bool :=
  CreatedClassTemplateTableKey_lt (fst a) (fst b)
  || (negb (CreatedClassTemplateTableKey_lt (fst b) (fst a))
      && (snd a <? snd b)%N).

(** [TemplateTableKey]: [std::tuple<std::string, std::size_t,
    NamespaceStack>], the key of the function and class template tables. *)
Definition TemplateTableKey : Type := string * N * NamespaceStack.

Definition TemplateTableKey_lt (a b : TemplateTableKey) : bool :=
  let '(n1, len1, ns1) := a in
  let '(n2, len2, ns2) := b in
  if Std.string_lt n1 n2 then true
  else if Std.string_lt n2 n1 then false
  else if (len1 <? len2)%N then true
  else if (len2 <? len1)%N then false
  else NamespaceStack_lt ns1 ns2.

(** A [pop] after a [push] gives back the entry and the stack. *)
Lemma pop_push (s : NamespaceStack) (n : Namespace) :
  pop (push s n) = Some (n, s).
Proof.
  unfold pop, top, push. destruct s as [l]. simpl.
  rewrite last_snoc, removelast_last. reflexivity.
Qed.

(** *** Properties of the namespace ordering *)

Lemma Namespace_lt_irrefl (n : Namespace) : Namespace_lt n n = false.
Proof. apply Std.string_lt_irrefl. Qed.

(** The ordering looks at the names only. *)
Lemma NamespaceStack_lt_names (a b : NamespaceStack) :
  NamespaceStack_lt a b
  = Std.lexicographical_compare Std.string_lt
      (map name (namespaces a)) (map name (namespaces b)).
Proof.
  unfold NamespaceStack_lt.
  destruct a as [l1], b as [l2]; simpl. revert l2.
  induction l1 as [|x l1 IH]; intros [|y l2]; simpl; try reflexivity.
  unfold Namespace_lt at 1 2. rewrite IH. reflexivity.
Qed.

Lemma NamespaceStack_lt_irrefl (s : NamespaceStack) :
  NamespaceStack_lt s s = false.
Proof.
  apply Std.lexicographical_compare_irrefl, Namespace_lt_irrefl.
Qed.

(** C9 (as the code has it): the ordering of [NamespaceStack] is
    lexicographic over the names of the entries alone.  Two stacks whose
    entry names are pairwise equal are equivalent keys, neither is less than
    the other, whatever the kinds of their entries. *)
Theorem NamespaceStack_lt_ignores_kind (a b : NamespaceStack) :
  map name (namespaces a) = map name (namespaces b) ->
  NamespaceStack_lt a b = false /\ NamespaceStack_lt b a = false
  /\ distinct_keys a b = false.
Proof.
  intros Hnames.
  assert (Hab : NamespaceStack_lt a b = false).
  { rewrite NamespaceStack_lt_names, Hnames.
    apply Std.lexicographical_compare_irrefl, Std.string_lt_irrefl. }
  assert (Hba : NamespaceStack_lt b a = false).
  { rewrite NamespaceStack_lt_names, Hnames.
    apply Std.lexicographical_compare_irrefl, Std.string_lt_irrefl. }
  unfold distinct_keys, Std.equivalent. rewrite Hab, Hba. auto.
Qed.

(** The stack [Foo] entered as a namespace, and entered as a class. *)
Definition stack_Foo_namespace : NamespaceStack :=
  mkNamespaceStack [mkNamespace "Foo" namespace_].
Definition stack_Foo_class : NamespaceStack :=
  mkNamespaceStack [mkNamespace "Foo" class_].

(** C9 (witness): the theorem at these two stacks. *)
Lemma NamespaceStack_lt_ignores_kind_witness :
  NamespaceStack_lt stack_Foo_namespace stack_Foo_class = false
  /\ NamespaceStack_lt stack_Foo_class stack_Foo_namespace = false
  /\ distinct_keys stack_Foo_namespace stack_Foo_class = false.
Proof.
  apply (NamespaceStack_lt_ignores_kind stack_Foo_namespace stack_Foo_class).
  reflexivity.
Defined.

(** C9 (counterexample to the claim as stated): the names of the two stacks
    are pairwise equal and the kind of the entry differs, yet the stacks do
    not compare as distinct keys. *)
Lemma NamespaceStack_kind_not_compared :
  map name (namespaces stack_Foo_namespace)
    = map name (namespaces stack_Foo_class)
  /\ map kind (namespaces stack_Foo_namespace)
    <> map kind (namespaces stack_Foo_class)
  /\ distinct_keys stack_Foo_namespace stack_Foo_class = false.
Proof.
  split; [reflexivity|]. split; [discriminate|]. reflexivity.
Qed.

(** *** Properties of the template-table key ordering *)

(** Template types that share their arguments are never ordered, whatever
    their base names: the conjunction of the source needs both the base and
    the arguments to be less. *)
Lemma Type_lt_template_same_args (t1 t2 : Ast.Identifier)
    (args : list Ast.Type_) :
  Ast.Type_lt (Ast.UserDefinedTemplateType t1 args)
              (Ast.UserDefinedTemplateType t2 args) = false.
Proof.
  rewrite Ast.Type_lt_template.
  rewrite (Std.lexicographical_compare_irrefl _ Ast.Type_lt_irrefl).
  apply andb_false_r.
Qed.

(** Template types that share their base are never ordered either. *)
Lemma Type_lt_template_same_base (t : Ast.Identifier)
    (args1 args2 : list Ast.Type_) :
  Ast.Type_lt (Ast.UserDefinedTemplateType t args1)
              (Ast.UserDefinedTemplateType t args2) = false.
Proof.
  rewrite Ast.Type_lt_template, Ast.Identifier_lt_irrefl. reflexivity.
Qed.

(** The instantiation requests [Box<A<i32>>] and [Box<B<i32>>], both made
    at the root namespace. *)
Definition key_Box_A : CreatedClassTemplateTableKey :=
  ("Box"%string,
   Ast.mkTemplateArguments
     [Ast.UserDefinedTemplateType (Ast.ident "A") [Ast.BuiltinType Ast.i32]],
   mkNamespaceStack []).
Definition key_Box_B : CreatedClassTemplateTableKey :=
  ("Box"%string,
   Ast.mkTemplateArguments
     [Ast.UserDefinedTemplateType (Ast.ident "B") [Ast.BuiltinType Ast.i32]],
   mkNamespaceStack []).

(** The keys of [Box<A<i32>>] and [Box<B<i32>>] differ structurally, and
    the ordering of the keys puts neither before the other: the ordering
    alone does not tell them apart. *)
Lemma CreatedClassTemplateTableKey_lt_equivalent_keys :
  key_Box_A <> key_Box_B
  /\ CreatedClassTemplateTableKey_lt key_Box_A key_Box_B = false
  /\ CreatedClassTemplateTableKey_lt key_Box_B key_Box_A = false
  /\ Std.equivalent CreatedClassTemplateTableKey_lt key_Box_A key_Box_B = true.
Proof.
  split; [discriminate|]. repeat split; vm_compute; reflexivity.
Qed.

(** The elements of the [std::set] of [CreatedClassTemplateTable] hold the
    pointer to the created type beside the key, and the ordering of the
    pairs falls back on the pointers: two elements whose pointers differ
    are never equivalent, whatever their keys, so that the set keeps both.
    How [operator[]] finds the element of a key is not in the sources. *)
Lemma CreatedClassTemplateTableElem_lt_distinct_types
    (key1 key2 : CreatedClassTemplateTableKey) (type1 type2 : N) :
  type1 <> type2 ->
  Std.equivalent CreatedClassTemplateTableElem_lt
                 (key1, type1) (key2, type2) = false.
Proof.
  intros Hne. unfold Std.equivalent, CreatedClassTemplateTableElem_lt. simpl.
  destruct (CreatedClassTemplateTableKey_lt key1 key2),
           (CreatedClassTemplateTableKey_lt key2 key1); simpl;
    try reflexivity.
  destruct (N.ltb_spec type1 type2) as [Hlt|Hge]; [reflexivity|]. simpl.
  destruct (N.ltb_spec type2 type1) as [Hlt|Hge']; [reflexivity|]. lia.
Qed.

(** *** [Table] *)

Section Table.
Context {Key T : Type} `{Countable Key}.

(** [Table<Key, T>] over [std::unordered_map<Key, T>], the member [table]:
    a finite map. *)
Definition Table : Type := gmap Key T.

(** [operator[]]: [table.find(key)], [std::nullopt] at the end. *)
Definition Table_at (t : Table) (key : Key) : option T := t !! key.

(** [exists]: [table.contains(key)]. *)
Definition Table_exists (t : Table) (key : Key) : bool :=
  bool_decide (is_Some (t !! key)).

(** [insert]: [assert(!table.contains(key)); table.emplace(key, value)].
    [None] stands for the failed assertion. *)
Definition Table_insert (t : Table) (key : Key) (value : T) : option Table :=
  if Table_exists t key then None else Some (<[key := value]> t).

(** [insertOrAssign]: [table.insert_or_assign(key, value)]. *)
Definition Table_insertOrAssign (t : Table) (key : Key) (value : T) : Table :=
  <[key := value]> t.

(** [erase]: [table.erase(key)]. *)
Definition Table_erase (t : Table) (key : Key) : Table := delete key t.

(** [empty]: [table.empty()]. *)
Definition Table_empty (t : Table) : bool := (size t =? 0)%nat.

(** X1: what the operations of a table do to its lookups.  After
    [insertOrAssign] the key answers with the new value, whatever it held;
    after [erase] it answers with nothing; an [insert] that passes its
    assertion found no value at the key and leaves the new one; no
    operation changes the answer of another key.  [exists] tells whether
    the lookup answers, and [empty] whether no lookup does. *)
Theorem Table_lookup_after (t : Table) (key key' : Key) (value : T) :
  Table_at (Table_insertOrAssign t key value) key'
    = (if decide (key = key') then Some value else Table_at t key')
  /\ Table_at (Table_erase t key) key'
    = (if decide (key = key') then None else Table_at t key')
  /\ Table_insert t key value
    = (if Table_exists t key then None
       else Some (Table_insertOrAssign t key value))
  /\ (Table_exists t key = true <-> Table_at t key <> None)
  /\ (Table_exists t key = false ->
      exists t', Table_insert t key value = Some t'
                 /\ Table_at t' key = Some value)
  /\ (Table_empty t = true <-> forall k, Table_at t k = None).
Proof.
  unfold Table_at, Table_insertOrAssign, Table_erase, Table_insert,
    Table_exists, Table_empty.
  repeat split.
  - destruct (decide (key = key')) as [->|Hne].
    + apply lookup_insert_eq.
    + apply lookup_insert_ne. exact Hne.
  - destruct (decide (key = key')) as [->|Hne].
    + apply lookup_delete_eq.
    + apply lookup_delete_ne. exact Hne.
  - intros Hex. apply bool_decide_eq_true in Hex as [v Hv]. congruence.
  - intros Hne. apply bool_decide_eq_true.
    destruct (t !! key) as [v|]; [eexists; reflexivity|congruence].
  - intros ->. eexists. split; [reflexivity|]. apply lookup_insert_eq.
  - intros Hsize k. apply Nat.eqb_eq, map_size_empty_iff in Hsize.
    subst t. apply lookup_empty.
  - intros Hall. apply Nat.eqb_eq, map_size_empty_iff, map_empty. exact Hall.
Qed.

End Table.

(** *** The stack of namespaces *)

(** X2: [NamespaceStack] is a stack.  A [push] leaves a stack that is not
    empty, whose [top] is the entry pushed and whose [pop] gives back the
    entry and the stack as it was; the stack then contains the names it
    contained and the name pushed.  [contains] looks at the names alone. *)
Theorem NamespaceStack_push_pop (s : NamespaceStack) (n : Namespace)
    (x : string) :
  empty (push s n) = false
  /\ top (push s n) = Some n
  /\ pop (push s n) = Some (n, s)
  /\ contains (push s n) x = contains s x || String.eqb (name n) x
  /\ (contains s x = true <-> x ∈ map name (namespaces s)).
Proof.
  destruct s as [l]. unfold pop, empty, top, push, contains. simpl.
  rewrite last_snoc, removelast_last.
  split; [destruct l; reflexivity|].
  split; [reflexivity|]. split; [reflexivity|]. split.
  - rewrite existsb_app. simpl. rewrite orb_false_r. reflexivity.
  - split.
    + intros Hex. apply existsb_exists in Hex as (r & Hin & Heq).
      apply String.eqb_eq in Heq. subst x.
      apply list_elem_of_fmap. exists r. split; [reflexivity|].
      apply list_elem_of_In. exact Hin.
    + intros Hin. apply list_elem_of_fmap in Hin as (r & -> & Hin).
      apply existsb_exists. exists r.
      split; [apply list_elem_of_In; exact Hin|]. apply String.eqb_refl.
Qed.

(** *** The orderings of the keys of [std::map] *)

Lemma NamespaceStack_lt_trans (a b c : NamespaceStack) :
  NamespaceStack_lt a b = true -> NamespaceStack_lt b c = true ->
  NamespaceStack_lt a c = true.
Proof.
  rewrite !NamespaceStack_lt_names.
  apply Std.lexicographical_compare_trans;
    [apply Std.string_lt_trans|apply Std.string_lt_total].
Qed.

Lemma NamespaceStack_lt_total (a b : NamespaceStack) :
  NamespaceStack_lt a b = false -> NamespaceStack_lt b a = false ->
  map name (namespaces a) = map name (namespaces b).
Proof.
  rewrite !NamespaceStack_lt_names.
  apply Std.lexicographical_compare_total, Std.string_lt_total.
Qed.

Lemma NamespaceStack_lt_same_names (a b : NamespaceStack) :
  map name (namespaces a) = map name (namespaces b) ->
  NamespaceStack_lt a b = false.
Proof.
  intros Hnames. rewrite NamespaceStack_lt_names, Hnames.
  apply Std.lexicographical_compare_irrefl, Std.string_lt_irrefl.
Qed.

(** X3: [NamespaceStack::operator<] is a strict weak ordering, as a key of
    [std::map] needs: no stack is less than itself, the ordering is
    transitive, and two stacks are equivalent keys exactly when the names
    of their entries are the same, one by one.  Stacks that differ in a
    name or in their depth are distinct keys. *)
Theorem NamespaceStack_lt_strict_weak_order (a b c : NamespaceStack) :
  NamespaceStack_lt a a = false
  /\ (NamespaceStack_lt a b = true -> NamespaceStack_lt b c = true ->
      NamespaceStack_lt a c = true)
  /\ (Std.equivalent NamespaceStack_lt a b = true
      <-> map name (namespaces a) = map name (namespaces b)).
Proof.
  split; [apply NamespaceStack_lt_irrefl|].
  split; [apply NamespaceStack_lt_trans|].
  unfold Std.equivalent. split.
  - intros Heq. apply andb_true_iff in Heq as [Hab Hba].
    apply negb_true_iff in Hab, Hba.
    exact (NamespaceStack_lt_total _ _ Hab Hba).
  - intros Hnames.
    rewrite (NamespaceStack_lt_same_names _ _ Hnames).
    rewrite (NamespaceStack_lt_same_names _ _ (eq_sym Hnames)).
    reflexivity.
Qed.

(** X4: the ordering of [TemplateTableKey], the key of the function and
    class template tables, is a strict weak ordering too, and two keys are
    equivalent exactly when they have the same name, the same number of
    template parameters and the same namespace names: templates that
    differ in one of these never share an entry of the table. *)
Theorem TemplateTableKey_lt_strict_weak_order (a b c : TemplateTableKey) :
  TemplateTableKey_lt a a = false
  /\ (TemplateTableKey_lt a b = true -> TemplateTableKey_lt b c = true ->
      TemplateTableKey_lt a c = true)
  /\ (Std.equivalent TemplateTableKey_lt a b = true
      <-> a.1.1 = b.1.1 /\ a.1.2 = b.1.2
          /\ map name (namespaces a.2) = map name (namespaces b.2)).
Proof.
  destruct a as [[n1 len1] ns1], b as [[n2 len2] ns2], c as [[n3 len3] ns3].
  unfold Std.equivalent, TemplateTableKey_lt. simpl.
  split; [|split].
  - rewrite Std.string_lt_irrefl, N.ltb_irrefl. apply NamespaceStack_lt_irrefl.
  - destruct (Std.string_lt n1 n2) eqn:H12.
    + intros _. destruct (Std.string_lt n2 n3) eqn:H23.
      * rewrite (Std.string_lt_trans _ _ _ H12 H23). reflexivity.
      * destruct (Std.string_lt n3 n2) eqn:H32; [discriminate|].
        rewrite <- (Std.string_lt_total _ _ H23 H32), H12. reflexivity.
    + destruct (Std.string_lt n2 n1) eqn:H21; [discriminate|].
      rewrite (Std.string_lt_total _ _ H12 H21).
      destruct (Std.string_lt n2 n3); [reflexivity|].
      destruct (Std.string_lt n3 n2); [intros; discriminate|].
      destruct (len1 <? len2)%N eqn:L12.
      * intros _. destruct (len2 <? len3)%N eqn:L23.
        -- rewrite (Std.N_ltb_trans _ _ _ L12 L23). reflexivity.
        -- destruct (len3 <? len2)%N eqn:L32; [discriminate|].
           rewrite <- (Std.N_ltb_total _ _ L23 L32), L12. reflexivity.
      * destruct (len2 <? len1)%N eqn:L21; [discriminate|].
        rewrite (Std.N_ltb_total _ _ L12 L21).
        destruct (len2 <? len3)%N; [reflexivity|].
        destruct (len3 <? len2)%N; [intros; discriminate|].
        apply NamespaceStack_lt_trans.
  - split.
    + intros Heq. apply andb_true_iff in Heq as [Hab Hba].
      apply negb_true_iff in Hab, Hba.
      destruct (Std.string_lt n1 n2) eqn:H12; [discriminate|].
      destruct (Std.string_lt n2 n1) eqn:H21; [discriminate|].
      destruct (len1 <? len2)%N eqn:L12; [discriminate|].
      destruct (len2 <? len1)%N eqn:L21; [discriminate|].
      repeat split.
      * exact (Std.string_lt_total _ _ H12 H21).
      * exact (Std.N_ltb_total _ _ L12 L21).
      * exact (NamespaceStack_lt_total _ _ Hab Hba).
    + intros (-> & -> & Hnames).
      rewrite Std.string_lt_irrefl, N.ltb_irrefl.
      rewrite (NamespaceStack_lt_same_names _ _ Hnames).
      rewrite (NamespaceStack_lt_same_names _ _ (eq_sym Hnames)).
      reflexivity.
Qed.

(** X5: instantiation keys whose template arguments are built from
    built-in types, user-defined types and references alone never collide:
    two such keys that the ordering takes for equivalent have the same
    name, the same template arguments and the same namespace names. *)
Theorem CreatedClassTemplateTableKey_lt_simple_total
    (a b : CreatedClassTemplateTableKey) :
  forallb Ast.simple (Ast.types a.1.2) = true ->
  forallb Ast.simple (Ast.types b.1.2) = true ->
  Std.equivalent CreatedClassTemplateTableKey_lt a b = true ->
  a.1.1 = b.1.1 /\ a.1.2 = b.1.2
  /\ map name (namespaces a.2) = map name (namespaces b.2).
Proof.
  destruct a as [[n1 [args1]] ns1], b as [[n2 [args2]] ns2].
  unfold Std.equivalent, CreatedClassTemplateTableKey_lt,
    Ast.TemplateArguments_lt. simpl.
  intros Hs1 Hs2 Heq. apply andb_true_iff in Heq as [Hab Hba].
  apply negb_true_iff in Hab, Hba.
  destruct (Std.string_lt n1 n2) eqn:H12; [discriminate|].
  destruct (Std.string_lt n2 n1) eqn:H21; [discriminate|].
  destruct (Std.lexicographical_compare Ast.Type_lt args1 args2) eqn:A12;
    [discriminate|].
  destruct (Std.lexicographical_compare Ast.Type_lt args2 args1) eqn:A21;
    [discriminate|].
  repeat split.
  - exact (Std.string_lt_total _ _ H12 H21).
  - f_equal. exact (Ast.TemplateArguments_lt_total_simple _ _ Hs1 Hs2 A12 A21).
  - exact (NamespaceStack_lt_total _ _ Hab Hba).
Qed.

(** The instantiation request [Pair<i32, &Foo>] made inside the namespace
    [geo], and made inside the class [geo]. *)
Definition key_Pair_in_namespace : CreatedClassTemplateTableKey :=
  ("Pair"%string,
   Ast.mkTemplateArguments
     [Ast.BuiltinType Ast.i32;
      Ast.ReferenceType (Ast.UserDefinedType (Ast.ident "Foo"))],
   mkNamespaceStack [mkNamespace "geo" namespace_]).
Definition key_Pair_in_class : CreatedClassTemplateTableKey :=
  ("Pair"%string,
   Ast.mkTemplateArguments
     [Ast.BuiltinType Ast.i32;
      Ast.ReferenceType (Ast.UserDefinedType (Ast.ident "Foo"))],
   mkNamespaceStack [mkNamespace "geo" class_]).

(** X5 (witness): the theorem at these two keys, which are equivalent. *)
Lemma CreatedClassTemplateTableKey_lt_simple_total_witness :
  key_Pair_in_namespace.1.1 = key_Pair_in_class.1.1
  /\ key_Pair_in_namespace.1.2 = key_Pair_in_class.1.2
  /\ map name (namespaces key_Pair_in_namespace.2)
     = map name (namespaces key_Pair_in_class.2).
Proof.
  apply (CreatedClassTemplateTableKey_lt_simple_total
           key_Pair_in_namespace key_Pair_in_class);
    vm_compute; reflexivity.
Defined.

End Codegen.

(* ===================================================================== *)
(** ** The back end as the lowering code sees it *)
(* ===================================================================== *)

Module LLVM.

(** [llvm::Type]: the types the lowering code builds. *)
Inductive Type_ :=
  | IntegerTy (bits : N)
  | PointerTy (pointee : Type_)
  | StructTy (name : string)
  | FloatTy
  | DoubleTy
  | VoidTy.

Fixpoint Type_eqb (a b : Type_) : bool :=
  match a, b with
  | IntegerTy m, IntegerTy n => (m =? n)%N
  | PointerTy p, PointerTy q => Type_eqb p q
  | StructTy m, StructTy n => String.eqb m n
  | FloatTy, FloatTy => true
  | DoubleTy, DoubleTy => true
  | VoidTy, VoidTy => true
  | _, _ => false
  end.

Lemma Type_eqb_eq (a b : Type_) : Type_eqb a b = true <-> a = b.
Proof.
  revert b. induction a as [m|p IH|m| | |]; intros [n|q|n| | |]; simpl;
    try (split; [discriminate|intros; discriminate]);
    try (split; reflexivity).
  - rewrite N.eqb_eq. split; congruence.
  - rewrite IH. split; congruence.
  - rewrite String.eqb_eq. split; congruence.
Qed.

Lemma Type_eqb_refl (a : Type_) : Type_eqb a a = true.
Proof. apply Type_eqb_eq. reflexivity. Qed.

#[global] Instance Type_eq_dec : EqDecision Type_.
Proof. solve_decision. Defined.

Definition isIntegerTy (t : Type_) : bool :=
  match t with IntegerTy _ => true | _ => false end.

Definition isPointerTy (t : Type_) : bool :=
  match t with PointerTy _ => true | _ => false end.

(** [Type::getIntegerBitWidth]: a cast to [IntegerType], which is checked by
    an assertion; there is no width for the other types. *)
Definition getIntegerBitWidth (t : Type_) : option N :=
  match t with IntegerTy n => Some n | _ => None end.

(** [llvm::Value]: constants and the instructions the builder creates, each
    instruction holding its operands and the number [id] that tells it from
    every other instruction of the module.  [ConstantInt bits v] holds the
    [APInt] of width [bits] as the number [v] below [2 ^ bits]. *)
#[warnings="-register-all"]
Inductive Value :=
  | ConstantInt (bits : N) (v : N)
  | GlobalStringPtr (str : string)
  | UndefValue (ty : Type_)
  | ConstantPointerNull (ty : Type_)
  | AllocaInst (id : nat) (name : string) (allocated : Type_)
  | LoadInst (id : nat) (ty : Type_) (ptr : Value)
  | CastInst (id : nat) (v : Value) (dest : Type_) (is_signed : bool)
  | BinaryOperator (id : nat) (opcode : string) (lhs rhs : Value)
  | ICmpInst (id : nat) (predicate : string) (lhs rhs : Value)
  | CallInst (id : nat) (callee : string) (ret : Type_) (args : list Value).

Fixpoint getType (v : Value) : Type_ :=
  match v with
  | ConstantInt bits _ => IntegerTy bits
  | GlobalStringPtr _ => PointerTy (IntegerTy 8)
  | UndefValue ty => ty
  | ConstantPointerNull ty => ty
  | AllocaInst _ _ allocated => PointerTy allocated
  | LoadInst _ ty _ => ty
  | CastInst _ _ dest _ => dest
  | BinaryOperator _ _ lhs _ => getType lhs
  | ICmpInst _ _ _ _ => IntegerTy 1
  | CallInst _ _ ret _ => ret
  end.

Definition isConstant (v : Value) : bool :=
  match v with
  | ConstantInt _ _ | GlobalStringPtr _ | UndefValue _
  | ConstantPointerNull _ => true
  | _ => false
  end.

(** [ConstantInt::get(Ty, V)]: the [APInt] constructor keeps the low [bits]
    bits of [V]. *)
Definition ConstantInt_get (bits : N) (V : N) : Value :=
  ConstantInt bits (V mod 2 ^ bits)%N.

(** [ConstantInt::getSigned(Ty, V)]: [V] in two's complement on [bits] bits. *)
Definition ConstantInt_getSigned (bits : N) (V : Z) : Value :=
  ConstantInt bits (Z.to_N (V mod 2 ^ Z.of_N bits)).

(** The signed reading of an [APInt]. *)
Definition APInt_signed (bits v : N) : Z :=
  if (v <? 2 ^ (bits - 1))%N then Z.of_N v else Z.of_N v - 2 ^ Z.of_N bits.

(** Constant folding of an integer cast to [dest] bits: truncation when the
    destination is narrower, sign or zero extension when it is wider. *)
Definition fold_IntCast (bits v dest : N) (is_signed : bool) : Value :=
  if is_signed
  then ConstantInt_getSigned dest (APInt_signed bits v)
  else ConstantInt_get dest v.

(** [llvm::Constant::getNullValue(ty)], for the types conditions have. *)
Definition getNullValue (ty : Type_) : Value :=
  match ty with
  | IntegerTy bits => ConstantInt bits 0
  | _ => ConstantPointerNull ty
  end.

(** [llvm::getPointerOperand]: the address a load reads; null for values
    that are not memory accesses. *)
Definition getPointerOperand (v : Value) : option Value :=
  match v with LoadInst _ _ ptr => Some ptr | _ => None end.

(** [llvm::Function] as a call site sees it. *)
Record Function := mkFunction {
  fname : string;
  arg_types : list Type_;
  isVarArg : bool;
  getReturnType : Type_
}.

Definition arg_size (f : Function) : nat := length (arg_types f).

(** The instructions of a basic block.  Blocks are named by numbers. *)
Inductive Instruction :=
  | Yield (v : Value)
  | StoreInst (v ptr : Value)
  | BranchInst (dest : nat)
  | CondBranchInst (cond : Value) (iftrue iffalse : nat)
  | ReturnInst (v : option Value).

Definition isTerminator (i : Instruction) : bool :=
  match i with
  | BranchInst _ | CondBranchInst _ _ _ | ReturnInst _ => true
  | _ => false
  end.

(** The function under construction and the [llvm::IRBuilder] on it:
    every [BasicBlock] created so far with its instructions, the basic
    block list of the function, the insertion block, and the numbers the
    next block and the next instruction get. *)
Record Builder := mkBuilder {
  blocks : gmap nat (list Instruction);
  layout : list nat;
  insert_block : nat;
  next_block : nat;
  next_inst : nat
}.

Definition block_insts (b : Builder) (bb : nat) : list Instruction :=
  default [] (blocks b !! bb).

(** [BasicBlock::getTerminator]: the last instruction when it is a
    terminator, null otherwise. *)
Definition getTerminator (b : Builder) (bb : nat) : option Instruction :=
  match last (block_insts b bb) with
  | Some i => if isTerminator i then Some i else None
  | None => None
  end.

(** The builder appends at the end of the insertion block. *)
Definition Insert (i : Instruction) (b : Builder) : Builder :=
  mkBuilder (<[insert_block b := block_insts b (insert_block b) ++ [i]]> (blocks b))
            (layout b) (insert_block b) (next_block b) (next_inst b).

(** [BasicBlock::Create(context, name)]: a block outside every function,
    and [BasicBlock::Create(context, name, func)]: a block appended to the
    function at once. *)
Definition BasicBlock_Create (attach : bool) (b : Builder) : nat * Builder :=
  let bb := next_block b in
  (bb, mkBuilder (<[bb := []]> (blocks b))
                 (if attach then layout b ++ [bb] else layout b)
                 (insert_block b) (S bb) (next_inst b)).

(** [func->getBasicBlockList().push_back(bb)]. *)
Definition push_back (bb : nat) (b : Builder) : Builder :=
  mkBuilder (blocks b) (layout b ++ [bb]) (insert_block b)
            (next_block b) (next_inst b).

Definition SetInsertPoint (bb : nat) (b : Builder) : Builder :=
  mkBuilder (blocks b) (layout b) bb (next_block b) (next_inst b).

(** The number of the next instruction, consumed. *)
Definition fresh (b : Builder) : nat * Builder :=
  (next_inst b,
   mkBuilder (blocks b) (layout b) (insert_block b) (next_block b)
             (S (next_inst b))).

(** How the builder operations change what a block holds. *)
Lemma block_insts_Insert_same (i : Instruction) (b : Builder) :
  block_insts (Insert i b) (insert_block b)
  = block_insts b (insert_block b) ++ [i].
Proof. unfold block_insts, Insert. simpl. rewrite lookup_insert_eq. reflexivity. Qed.

Lemma block_insts_Insert_other (i : Instruction) (b : Builder) (bb : nat) :
  bb <> insert_block b -> block_insts (Insert i b) bb = block_insts b bb.
Proof.
  intros Hne. unfold block_insts, Insert. simpl.
  rewrite lookup_insert_ne by congruence. reflexivity.
Qed.

(** The builder on a function that has its entry block, block [0], and
    nothing else yet. *)
Definition entry_builder : Builder := mkBuilder {[ 0%nat := [] ]} [0%nat] 0 1 0.

(** The result of a lowering step: a value and the builder after it, an
    exception of type [E] thrown with the builder as it then stands, or no
    defined behaviour (a failed assertion, an access out of bounds). *)
Inductive Outcome (E A : Type) :=
  | Ok (a : A) (b : Builder)
  | Throw (e : E) (b : Builder)
  | Undefined.
Arguments Ok {E A} a b.
Arguments Throw {E A} e b.
Arguments Undefined {E A}.

Definition M (E A : Type) : Type := Builder -> Outcome E A.

Definition ret {E A} (a : A) : M E A := fun b => Ok a b.
Definition bind {E A B} (m : M E A) (k : A -> M E B) : M E B :=
  fun b => match m b with
           | Ok a b' => k a b'
           | Throw e b' => Throw e b'
           | Undefined => Undefined
           end.
Definition throw {E A} (e : E) : M E A := fun b => Throw e b.
Definition undefined {E A} : M E A := fun _ => Undefined.
Definition lift {E A} (f : Builder -> A * Builder) : M E A :=
  fun b => let '(a, b') := f b in Ok a b'.
Definition modify {E} (f : Builder -> Builder) : M E unit :=
  fun b => Ok tt (f b).
Definition gets {E A} (f : Builder -> A) : M E A := fun b => Ok (f b) b.

Lemma bind_Ok {E A B} (m : M E A) (k : A -> M E B) b a b' :
  m b = Ok a b' -> bind m k b = k a b'.
Proof. unfold bind. intros ->. reflexivity. Qed.

Lemma bind_Throw {E A B} (m : M E A) (k : A -> M E B) b e b' :
  m b = Throw e b' -> bind m k b = Throw e b'.
Proof. unfold bind. intros ->. reflexivity. Qed.

Lemma bind_Undefined {E A B} (m : M E A) (k : A -> M E B) b :
  m b = Undefined -> bind m k b = Undefined.
Proof. unfold bind. intros ->. reflexivity. Qed.

#[global] Instance M_ret {E} : MRet (M E) := fun A => @ret E A.
#[global] Instance M_bind {E} : MBind (M E) := fun A B k m => bind m k.

(** [CreateLoad(ty, ptr)]. *)
Definition CreateLoad {E} (ty : Type_) (ptr : Value) : M E Value :=
  bind (lift fresh) (fun id =>
  let v := LoadInst id ty ptr in
  bind (modify (Insert (Yield v))) (fun _ => ret v)).

Definition CreateStore {E} (v ptr : Value) : M E unit :=
  modify (Insert (StoreInst v ptr)).

Definition CreateBr {E} (dest : nat) : M E unit :=
  modify (Insert (BranchInst dest)).

Definition CreateCondBr {E} (cond : Value) (t f : nat) : M E unit :=
  modify (Insert (CondBranchInst cond t f)).

Definition CreateCall {E} (f : Function) (args : list Value) : M E Value :=
  bind (lift fresh) (fun id =>
  let v := CallInst id (fname f) (getReturnType f) args in
  bind (modify (Insert (Yield v))) (fun _ => ret v)).

(** [CreateICmp(P, LHS, RHS)] and the arithmetic instructions
    ([CreateAdd], [CreateSub], ...), by the name of the predicate and of the
    instruction: the instruction is appended to the insertion block.  On
    two constants the builder of the back end inserts nothing and gives
    the constant its folder makes of them.  The values of this development
    have no constant expressions and that folding is not modelled: the
    instruction is appended for constants too.  The statements below are
    about operands of which one at least is no constant, or do not depend
    on whether the instruction is there. *)
Definition CreateICmp {E} (predicate : string) (lhs rhs : Value) : M E Value :=
  bind (lift fresh) (fun id =>
  let v := ICmpInst id predicate lhs rhs in
  bind (modify (Insert (Yield v))) (fun _ => ret v)).

Definition CreateBinOp {E} (opcode : string) (lhs rhs : Value) : M E Value :=
  bind (lift fresh) (fun id =>
  let v := BinaryOperator id opcode lhs rhs in
  bind (modify (Insert (Yield v))) (fun _ => ret v)).

(** [CreateIntCast(V, DestTy, isSigned)]: [V] itself when it has the type
    already, the folded constant for a constant integer, and a new cast
    instruction otherwise.  An integer cast of a value that is no integer
    fails an assertion of the back end. *)
Definition CreateIntCast {E} (V : Value) (dest : N) (is_signed : bool)
  : M E Value :=
  match getType V with
  | IntegerTy bits =>
      if (bits =? dest)%N then ret V
      else match V with
           | ConstantInt _ v => ret (fold_IntCast bits v dest is_signed)
           | _ =>
               bind (lift fresh) (fun id =>
               let c := CastInst id V (IntegerTy dest) is_signed in
               bind (modify (Insert (Yield c))) (fun _ => ret c))
           end
  | _ => undefined
  end.

(** [CreatePointerCast(V, DestTy)]: [V] itself when it has the type
    already, a new cast instruction otherwise. *)
Definition CreatePointerCast {E} (V : Value) (dest : Type_) : M E Value :=
  if Type_eqb (getType V) dest then ret V
  else bind (lift fresh) (fun id =>
       let c := CastInst id V dest false in
       bind (modify (Insert (Yield c))) (fun _ => ret c)).

(** What a sequence that returned went through. *)
Lemma bind_Ok_inv {E A B} (m : M E A) (k : A -> M E B) b x b' :
  bind m k b = Ok x b' -> exists a b1, m b = Ok a b1 /\ k a b1 = Ok x b'.
Proof.
  unfold bind. destruct (m b) as [a b1| |]; try discriminate.
  intros H. exists a, b1. split; [reflexivity|exact H].
Qed.

(** The terminator of the insertion block after an instruction was
    appended to it. *)
Lemma getTerminator_Insert (i : Instruction) (b : Builder) :
  getTerminator (Insert i b) (insert_block b)
  = if isTerminator i then Some i else None.
Proof.
  unfold getTerminator. rewrite block_insts_Insert_same, last_snoc.
  reflexivity.
Qed.

(** *** Properties of the instructions that a lowering keeps *)

Section Keeps.
Context {E : Type}.
Variable Q : Instruction -> Prop.

(** Every instruction of every block has the property [Q]. *)
Definition all_insts (b : Builder) : Prop :=
  forall bb i, i ∈ block_insts b bb -> Q i.

(** A lowering step keeps [Q]: from a builder all of whose instructions
    have the property it comes, by a return or a throw, to such a builder
    again. *)
Definition keeps {A : Type} (m : M E A) : Prop :=
  forall b, all_insts b ->
    match m b with
    | Ok _ b' | Throw _ b' => all_insts b'
    | Undefined => True
    end.

Lemma keeps_ret {A : Type} (a : A) : keeps (ret a).
Proof. intros b Hb. exact Hb. Qed.

Lemma keeps_mret {A : Type} (a : A) : keeps (mret a : M E A).
Proof. intros b Hb. exact Hb. Qed.

Lemma keeps_throw {A : Type} (e : E) : keeps (throw e : M E A).
Proof. intros b Hb. exact Hb. Qed.

Lemma keeps_undefined {A : Type} : keeps (undefined : M E A).
Proof. intros b Hb. exact I. Qed.

Lemma keeps_gets {A : Type} (f : Builder -> A) : keeps (gets f : M E A).
Proof. intros b Hb. exact Hb. Qed.

Lemma keeps_bind {A B : Type} (m : M E A) (k : A -> M E B) :
  keeps m -> (forall a, keeps (k a)) -> keeps (bind m k).
Proof.
  intros Hm Hk b Hb. unfold bind. specialize (Hm b Hb).
  destruct (m b) as [a b1|e b1|]; [|exact Hm|exact I].
  exact (Hk a b1 Hm).
Qed.

Lemma keeps_mbind {A B : Type} (m : M E A) (k : A -> M E B) :
  keeps m -> (forall a, keeps (k a)) -> keeps (m ≫= k).
Proof. apply keeps_bind. Qed.

Lemma all_insts_Insert (i : Instruction) (b : Builder) :
  Q i -> all_insts b -> all_insts (Insert i b).
Proof.
  intros Hi Hb bb j Hj.
  destruct (decide (bb = insert_block b)) as [->|Hne].
  - rewrite block_insts_Insert_same in Hj.
    apply elem_of_app in Hj as [Hj|Hj]; [exact (Hb _ _ Hj)|].
    apply list_elem_of_singleton in Hj. subst j. exact Hi.
  - rewrite block_insts_Insert_other in Hj by exact Hne. exact (Hb _ _ Hj).
Qed.

Lemma keeps_Insert (i : Instruction) : Q i -> keeps (modify (Insert i)).
Proof. intros Hi b Hb. apply all_insts_Insert; assumption. Qed.

Lemma keeps_fresh : keeps (lift fresh).
Proof. intros b Hb. exact Hb. Qed.

Lemma keeps_SetInsertPoint (bb : nat) : keeps (modify (SetInsertPoint bb)).
Proof. intros b Hb. exact Hb. Qed.

Lemma keeps_push_back (bb : nat) : keeps (modify (push_back bb)).
Proof. intros b Hb. exact Hb. Qed.

Lemma keeps_BasicBlock_Create (attach : bool) :
  keeps (lift (BasicBlock_Create attach)).
Proof.
  intros b Hb bb i Hi. unfold block_insts in Hi. simpl in Hi.
  destruct (decide (bb = next_block b)) as [->|Hne].
  - rewrite lookup_insert_eq in Hi. simpl in Hi. inversion Hi.
  - rewrite lookup_insert_ne in Hi by congruence. exact (Hb _ _ Hi).
Qed.

Lemma keeps_Yield (v : Value) :
  Q (Yield v) ->
  keeps (bind (lift fresh) (fun id =>
         bind (modify (Insert (Yield v))) (fun _ => ret v))).
Proof.
  intros Hv. apply keeps_bind; [apply keeps_fresh|intros id].
  apply keeps_bind; [apply keeps_Insert, Hv|intros; apply keeps_ret].
Qed.

Hypothesis Q_Yield : forall v, Q (Yield v).

Lemma keeps_CreateLoad (ty : Type_) (ptr : Value) : keeps (CreateLoad ty ptr).
Proof.
  intros b Hb. apply all_insts_Insert; [apply Q_Yield|exact Hb].
Qed.

Lemma keeps_CreateCall (f : Function) (args : list Value) :
  keeps (CreateCall f args).
Proof.
  intros b Hb. apply all_insts_Insert; [apply Q_Yield|exact Hb].
Qed.

Lemma keeps_CreateBinOp (opcode : string) (l r : Value) :
  keeps (CreateBinOp opcode l r).
Proof.
  intros b Hb. apply all_insts_Insert; [apply Q_Yield|exact Hb].
Qed.

Lemma keeps_CreateICmp (predicate : string) (l r : Value) :
  keeps (CreateICmp predicate l r).
Proof.
  intros b Hb. apply all_insts_Insert; [apply Q_Yield|exact Hb].
Qed.

Lemma keeps_CreateIntCast (V : Value) (dest : N) (is_signed : bool) :
  keeps (CreateIntCast V dest is_signed).
Proof.
  intros b Hb. unfold CreateIntCast.
  destruct (getType V); try exact I.
  destruct (bits =? dest)%N; [exact Hb|].
  destruct V; first [exact Hb | apply all_insts_Insert;
                                 [apply Q_Yield|exact Hb]].
Qed.

End Keeps.

End LLVM.

(* ===================================================================== *)
(** ** lib/src/codegen/expr.cpp: the expression visitor *)
(* ===================================================================== *)

Module Expr.
Import LLVM.

(** The [std::runtime_error]s of the visitor, one constructor for each
    message it formats. *)
Inductive Error :=
  | UnknownVariable (name : string)
      (* "unknown variable '%s' referenced" *)
  | FailedLeftHandSide      (* "failed to generate left-hand side" *)
  | FailedRightHandSide     (* "failed to generate right-hand side" *)
  | OperandTypesDiffer
      (* "both operands to a binary operator are not of the same type" *)
  | UnknownOperator (op : string)
      (* "unknown operator '%s' detected" *)
  | UnknownFunction (callee : string)
      (* "unknown function '%s' referenced" *)
  | IncorrectArguments      (* "incorrect arguments passed" *)
  | ArgumentSetFailed (callee : string)
      (* "argument set failed in call to the function '%s'" *)
  | IncompatibleArgument (n : nat) (callee : string)
      (* "incompatible type for argument %d of '%s'" *)
  | CannotConvert (type_name : string)
      (* "cannot be converted to '%s' type" *)
  | IndirectionRequiresPointer.
      (* "unary '*' requires pointer operand" *)

Definition CG : Type -> Type := M Error.

(** [codegen::Value]: the back-end value, null when nothing was generated,
    and the signedness the front end tracks beside it. *)
Record Value := mkValue {
  getValue : option LLVM.Value;
  isSigned : bool
}.

(** A variable of the symbol table: its stack slot and its signedness. *)
Record Variable_ := mkVariable {
  getAllocaInst : LLVM.Value;
  allocated_type : LLVM.Type_;
  var_isSigned : bool
}.

Definition SymbolTable := gmap string Variable_.

(** The type a conversion names ([node.as]): its back-end type, its
    signedness, whether it is a pointer, and its name for messages. *)
Record TypeRef := mkTypeRef {
  as_getType : LLVM.Type_;
  as_isSigned : bool;
  as_isPointer : bool;
  as_getName : string
}.

(** [ast::Expr] as this visitor reads it: one constructor for each
    [operator()] of [ExprVisitor]. *)
#[warnings="-register-all"]
Inductive Expr :=
  | Nil
  | UInt32 (node : N)
  | Int32 (node : Z)
  | UInt64 (node : N)
  | Int64 (node : Z)
  | Bool (node : bool)
  | StringLiteral (str : string)
  | CharLiteral (ch : N)
  | Identifier (name : string)
  | BinOp (lhs : Expr) (op : string) (rhs : Expr)
  | UnaryOp (op : string) (rhs : Expr)
  | FunctionCall (callee : string) (args : list Expr)
  | Conversion (lhs : Expr) (as_ : TypeRef).

(** The generators the visitor of [BinOp] dispatches to. *)
Inductive BinaryGenerator :=
  | genAddition | genSubtraction | genMultiplication | genDivision
  | genModulo | genEqual | genNotEqual | genLessThan | genGreaterThan
  | genLessOrEqual | genGreaterOrEqual.

(** [node.isAddition()] and the like: the generator of an operator. *)
Definition generator_of (op : string) : option BinaryGenerator :=
  if String.eqb op "+" then Some genAddition
  else if String.eqb op "-" then Some genSubtraction
  else if String.eqb op "*" then Some genMultiplication
  else if String.eqb op "/" then Some genDivision
  else if String.eqb op "%" then Some genModulo
  else if String.eqb op "==" then Some genEqual
  else if String.eqb op "!=" then Some genNotEqual
  else if String.eqb op "<" then Some genLessThan
  else if String.eqb op ">" then Some genGreaterThan
  else if String.eqb op "<=" then Some genLessOrEqual
  else if String.eqb op ">=" then Some genGreaterOrEqual
  else None.

(** *** The visitors that stand alone *)

(** [operator()(const ast::CharLiteral&)]:
    [// Char literal is u8.]
    [return {llvm::ConstantInt::get(ctx.builder.getInt8Ty(), node.ch), false};] *)
Definition visit_CharLiteral (ch : N) : Value :=
  mkValue (Some (ConstantInt_get 8 ch)) false.

(** [IntegerImplicitConversion(ctx, lhs, rhs)], which changes its two
    arguments: the pair it leaves is the result here. *)
Definition IntegerImplicitConversion (lhs rhs : Value) : CG (Value * Value) :=
  match getValue lhs, getValue rhs with
  | Some lv, Some rv =>
      match getIntegerBitWidth (getType lv), getIntegerBitWidth (getType rv) with
      | Some lhs_bitwidth, Some rhs_bitwidth =>
          if negb (lhs_bitwidth =? rhs_bitwidth)%N then
            let max_bitwidth := N.max lhs_bitwidth rhs_bitwidth in
            let as_is_signed :=
              if (lhs_bitwidth =? max_bitwidth)%N
              then isSigned lhs else isSigned rhs in
            if (lhs_bitwidth =? max_bitwidth)%N then
              c ← CreateIntCast rv max_bitwidth as_is_signed;
              mret (lhs, mkValue (Some c) as_is_signed)
            else
              c ← CreateIntCast lv max_bitwidth as_is_signed;
              mret (mkValue (Some c) as_is_signed, rhs)
          else mret (lhs, rhs)
      | _, _ => undefined
      end
  | _, _ => undefined
  end.

(** The loop [// Verify arguments] of the call visitor: [idx] runs over the
    parameters of the callee, and [args_value[idx++]] is read without a
    bounds check.  The number in the message is [idx + 1] after the
    increment. *)
Fixpoint verifyArguments (callee : string) (params : list LLVM.Type_)
    (idx : nat) (args_value : list LLVM.Value) : CG unit :=
  match params with
  | [] => mret tt
  | arg :: params' =>
      match args_value !! idx with
      | None => undefined
      | Some a =>
          if negb (Type_eqb (getType a) arg)
          then throw (IncompatibleArgument (S idx + 1) callee)
          else verifyArguments callee params' (S idx) args_value
      end
  end.

(** The loop that lowers the arguments of a call, [visit] being the
    visitor itself. *)
Definition lowerArguments (visit : Expr -> CG Value) (callee : string)
  : list Expr -> list LLVM.Value -> CG (list LLVM.Value) :=
  fix loop (args : list Expr) (args_value : list LLVM.Value) :=
    match args with
    | [] => mret args_value
    | a :: args' =>
        v ← visit a;
        match getValue v with
        | None => throw (ArgumentSetFailed callee)
        | Some x => loop args' (args_value ++ [x])
        end
    end.

Section Visitor.

(** What the visitor uses and the sources do not define: the signedness
    of a [Value] built from a back-end value alone, the generators of the
    binary operators, [inverse] and [ctx.int1ToBool]. *)
Variable default_isSigned : bool.
Variable generate : BinaryGenerator -> Value -> Value -> CG Value.
Variable inverse : Value -> CG Value.
Variable int1ToBool : LLVM.Value -> CG LLVM.Value.

(** [ctx.module->getFunction] and the scope of the visitor. *)
Variable module_ : gmap string Function.
Variable scope : SymbolTable.

Definition gen_address_of (rhs : Value) : CG Value :=
  match getValue rhs with
  | Some v => mret (mkValue (getPointerOperand v) default_isSigned)
  | None => undefined
  end.

Definition gen_indirection (rhs : Value) : CG Value :=
  match getValue rhs with
  | Some v =>
      match getType v with
      | PointerTy elem =>
          l ← CreateLoad elem v; mret (mkValue (Some l) (isSigned rhs))
      | _ => throw IndirectionRequiresPointer
      end
  | None => undefined
  end.

Fixpoint visit (e : Expr) : CG Value :=
  match e with
  | Nil => undefined
  | UInt32 node => mret (mkValue (Some (ConstantInt_get 32 node)) false)
  | Int32 node => mret (mkValue (Some (ConstantInt_getSigned 32 node)) true)
  | UInt64 node => mret (mkValue (Some (ConstantInt_get 64 node)) false)
  | Int64 node => mret (mkValue (Some (ConstantInt_getSigned 64 node)) true)
  | Bool node =>
      v ← int1ToBool (ConstantInt_get 1 (if node then 1 else 0)%N);
      mret (mkValue (Some v) false)
  | StringLiteral str =>
      mret (mkValue (Some (GlobalStringPtr str)) default_isSigned)
  | CharLiteral ch => mret (visit_CharLiteral ch)
  | Identifier name =>
      match scope !! name with
      | None => throw (UnknownVariable name)
      | Some variable =>
          l ← CreateLoad (allocated_type variable) (getAllocaInst variable);
          mret (mkValue (Some l) (var_isSigned variable))
      end
  | BinOp lhs_node op rhs_node =>
      lhs ← visit lhs_node;
      rhs ← visit rhs_node;
      match getValue lhs, getValue rhs with
      | None, _ => throw FailedLeftHandSide
      | _, None => throw FailedRightHandSide
      | Some _, Some _ =>
          '(lhs, rhs) ← IntegerImplicitConversion lhs rhs;
          match getValue lhs, getValue rhs with
          | Some lv, Some rv =>
              if negb (Type_eqb (getType lv) (getType rv))
              then throw OperandTypesDiffer
              else match generator_of op with
                   | Some g => generate g lhs rhs
                   | None => throw (UnknownOperator op)
                   end
          | _, _ => undefined
          end
      end
  | UnaryOp op rhs_node =>
      rhs ← visit rhs_node;
      match getValue rhs with
      | None => throw FailedRightHandSide
      | Some _ =>
          if String.eqb op "+" then mret rhs
          else if String.eqb op "-" then inverse rhs
          else if String.eqb op "*" then gen_indirection rhs
          else if String.eqb op "&" then gen_address_of rhs
          else throw (UnknownOperator op)
      end
  | FunctionCall callee args =>
      match module_ !! callee with
      | None => throw (UnknownFunction callee)
      | Some callee_func =>
          if negb (isVarArg callee_func)
             && negb (arg_size callee_func =? length args)%nat
          then throw IncorrectArguments
          else
            args_value ← lowerArguments visit callee args [];
            _ ← verifyArguments callee (arg_types callee_func) 0 args_value;
            c ← CreateCall callee_func args_value;
            mret (mkValue (Some c) default_isSigned)
      end
  | Conversion lhs_node as_ =>
      lhs ← visit lhs_node;
      match getValue lhs with
      | None => throw FailedLeftHandSide
      | Some lv =>
          match as_getType as_ with
          | IntegerTy bits =>
              c ← CreateIntCast lv bits (as_isSigned as_);
              mret (mkValue (Some c) (as_isSigned as_))
          | ty =>
              if as_isPointer as_ then
                c ← CreatePointerCast lv ty;
                mret (mkValue (Some c) (as_isSigned as_))
              else throw (CannotConvert (as_getName as_))
          end
      end
  end.

(** [genExpr(ctx, scope, expr)]. *)
Definition genExpr (expr : Expr) : CG Value := visit expr.

(** *** The call visitor *)

Lemma verifyArguments_equal callee params : forall idx args_value b,
  (idx + length params <= length args_value)%nat ->
  map getType (take (length params) (drop idx args_value)) = params ->
  verifyArguments callee params idx args_value b = Ok tt b.
Proof.
  induction params as [|p params IH]; intros idx vs b Hlen Heq; simpl.
  - reflexivity.
  - simpl in Hlen.
    destruct (vs !! idx) as [a|] eqn:Ha.
    2:{ apply lookup_ge_None in Ha. lia. }
    rewrite (drop_S _ _ _ Ha) in Heq. simpl in Heq.
    injection Heq as Hp Hrest.
    rewrite Hp, Type_eqb_refl. simpl.
    apply IH; [lia|exact Hrest].
Qed.

Lemma verifyArguments_differ callee params : forall idx args_value b,
  (idx + length params <= length args_value)%nat ->
  map getType (take (length params) (drop idx args_value)) <> params ->
  exists k, (idx <= k < idx + length params)%nat /\
    verifyArguments callee params idx args_value b
    = Throw (IncompatibleArgument (k + 2) callee) b.
Proof.
  induction params as [|p params IH]; intros idx vs b Hlen Hne; simpl.
  - exfalso. apply Hne. reflexivity.
  - simpl in Hlen.
    destruct (vs !! idx) as [a|] eqn:Ha.
    2:{ apply lookup_ge_None in Ha. lia. }
    rewrite (drop_S _ _ _ Ha) in Hne. simpl in Hne.
    destruct (Type_eqb (getType a) p) eqn:Hap; simpl.
    + apply Type_eqb_eq in Hap. subst p.
      destruct (IH (S idx) vs b) as (k & Hk & Hv); [lia| |].
      { intros Heq. apply Hne. rewrite Heq. reflexivity. }
      exists k. split; [lia|exact Hv].
    + exists idx. split; [lia|].
      replace (idx + 2)%nat with (S idx + 1)%nat by lia. reflexivity.
Qed.

(** The arguments are lowered one by one, in order: as many values as
    there are arguments come back. *)
Lemma lowerArguments_length callee : forall args acc b vs b1,
  lowerArguments visit callee args acc b = Ok vs b1 ->
  length vs = (length acc + length args)%nat.
Proof.
  induction args as [|a args IH]; intros acc b vs b1 H; simpl in H.
  - unfold mret, M_ret, ret in H. injection H as <- _. simpl. lia.
  - unfold mbind, M_bind, bind in H.
    destruct (visit a b) as [v b'| |]; try discriminate.
    destruct (getValue v) as [x|]; try discriminate.
    apply IH in H. rewrite length_app in H. simpl in *. lia.
Qed.

(** C6 (as the code has it): the lowering of a call.  An unknown callee
    and, for a callee that is not variadic, a number of arguments other
    than the number of parameters raise an error with nothing emitted; a
    variadic callee skips the arity check.  Once the arguments are
    lowered, the type of each argument that faces a parameter is compared
    with the type of the parameter for equality: when all agree the call
    is emitted on the lowered arguments as they are, and when one differs
    an error is raised with nothing emitted after the arguments, neither
    a conversion nor the call. *)
Theorem FunctionCall_lowering (callee : string) (args : list Expr)
    (b : Builder) :
  let r := visit (FunctionCall callee args) b in
  match module_ !! callee with
  | None => r = Throw (UnknownFunction callee) b
  | Some f =>
      if negb (isVarArg f) && negb (arg_size f =? length args)%nat
      then r = Throw IncorrectArguments b
      else
        match lowerArguments visit callee args [] b with
        | Throw e b1 => r = Throw e b1
        | Undefined => r = Undefined
        | Ok args_value b1 =>
            if (arg_size f <=? length args_value)%nat then
              if decide (map getType (take (arg_size f) args_value)
                         = arg_types f)
              then
                let call :=
                  CallInst (next_inst b1) (fname f) (getReturnType f)
                           args_value in
                r = Ok (mkValue (Some call) default_isSigned)
                       (Insert (Yield call) (snd (fresh b1)))
              else
                exists k, (k < arg_size f)%nat /\
                  r = Throw (IncompatibleArgument (k + 2) callee) b1
            else True
        end
  end.
Proof.
  intros r. subst r. simpl.
  destruct (module_ !! callee) as [f|]; [|reflexivity].
  destruct (negb (isVarArg f) && negb (arg_size f =? length args)%nat);
    [reflexivity|].
  unfold mbind, M_bind.
  destruct (lowerArguments visit callee args [] b) as [vs b1|e b1|] eqn:Hlow.
  2:{ apply bind_Throw. exact Hlow. }
  2:{ apply bind_Undefined. exact Hlow. }
  rewrite (bind_Ok _ _ _ _ _ Hlow).
  destruct (arg_size f <=? length vs)%nat eqn:Hlen; [|exact I].
  apply Nat.leb_le in Hlen. unfold arg_size in *.
  destruct (decide (map getType (take (length (arg_types f)) vs)
                    = arg_types f)) as [Heq|Hne].
  - rewrite (bind_Ok _ _ _ _ _
               (verifyArguments_equal callee (arg_types f) 0 vs b1
                  ltac:(simpl; lia) Heq)).
    reflexivity.
  - destruct (verifyArguments_differ callee (arg_types f) 0 vs b1)
      as (k & Hk & Hv); [simpl; lia|exact Hne|].
    exists k. split; [lia|]. rewrite (bind_Throw _ _ _ _ _ Hv). reflexivity.
Qed.

End Visitor.

(** *** An instance of the parameters, to run the visitor

    The instructions are those the earlier snapshot of the visitor
    (codegen.cxx) builds for the same operators: [CreateAdd], [CreateSub],
    [CreateMul], [CreateSDiv], [CreateSRem], the comparisons through
    [i1_to_boolean], and [0 - x] for the unary minus.  The result takes the
    signedness of the left operand. *)

(** [i1_to_boolean]: an integer cast to the 8-bit unsigned boolean,
    appended to the insertion block. *)
Definition i1_to_boolean (value : LLVM.Value) : CG LLVM.Value :=
  id ← lift fresh;
  let c := CastInst id value (IntegerTy 8) false in
  _ ← modify (Insert (Yield c));
  mret c.

Definition snapshot_generate (g : BinaryGenerator) (lhs rhs : Value)
  : CG Value :=
  match getValue lhs, getValue rhs with
  | Some l, Some r =>
      let arith opcode :=
        v ← CreateBinOp opcode l r; mret (mkValue (Some v) (isSigned lhs)) in
      let cmp predicate :=
        c ← CreateICmp predicate l r;
        v ← i1_to_boolean c;
        mret (mkValue (Some v) false) in
      match g with
      | genAddition => arith "add"%string
      | genSubtraction => arith "sub"%string
      | genMultiplication => arith "mul"%string
      | genDivision => arith "sdiv"%string
      | genModulo => arith "srem"%string
      | genEqual => cmp "eq"%string
      | genNotEqual => cmp "ne"%string
      | genLessThan => cmp "slt"%string
      | genGreaterThan => cmp "sgt"%string
      | genLessOrEqual => cmp "sle"%string
      | genGreaterOrEqual => cmp "sge"%string
      end
  | _, _ => undefined
  end.

Definition snapshot_inverse (rhs : Value) : CG Value :=
  match getValue rhs with
  | Some r =>
      v ← CreateBinOp "sub" (ConstantInt_get 32 0) r;
      mret (mkValue (Some v) (isSigned rhs))
  | None => undefined
  end.

(** The visitor with these parameters. *)
Definition run (module_ : gmap string Function) (scope : SymbolTable)
    (e : Expr) : CG Value :=
  visit false snapshot_generate snapshot_inverse i1_to_boolean module_ scope e.

(** *** Char literals *)

(** C5 (as the code has it): a char literal is lowered to an unsigned
    8-bit constant, which holds the code point of the literal reduced
    modulo [2 ^ 8]; nothing is emitted. *)
Theorem CharLiteral_lowering
    (default_isSigned : bool)
    (generate : BinaryGenerator -> Value -> Value -> CG Value)
    (inverse : Value -> CG Value)
    (int1ToBool : LLVM.Value -> CG LLVM.Value)
    (module_ : gmap string Function) (scope : SymbolTable)
    (ch : N) (b : Builder) :
  visit default_isSigned generate inverse int1ToBool module_ scope
        (CharLiteral ch) b
  = Ok (mkValue (Some (ConstantInt 8 (ch mod 256)%N)) false) b.
Proof. reflexivity. Qed.

(** C5 (counterexample to the claim as stated): the char literal of
    U+3042 is lowered to a constant of 8 bits, not 32, whose value is
    [66 = 12354 mod 256], not the code point. *)
Lemma CharLiteral_not_u32 :
  run ∅ ∅ (CharLiteral 12354) entry_builder
  = Ok (mkValue (Some (ConstantInt 8 66)) false) entry_builder
  /\ ConstantInt 8 66 <> ConstantInt 32 12354.
Proof. split; [reflexivity|discriminate]. Qed.

(** *** Implicit conversion of integer operands *)

Lemma CreateIntCast_type (V : LLVM.Value) (dest : N) (is_signed : bool)
    (b : Builder) (c : LLVM.Value) (b' : Builder) :
  CreateIntCast (E:=Error) V dest is_signed b = Ok c b' ->
  getType c = IntegerTy dest.
Proof.
  unfold CreateIntCast.
  destruct (getType V) as [bits| | | | |] eqn:HV; try discriminate.
  destruct (bits =? dest)%N eqn:Hbits.
  - apply N.eqb_eq in Hbits. subst dest. intros H. injection H as <- _. exact HV.
  - destruct V; simpl;
      try (intros H; injection H as <- _; reflexivity).
    unfold fold_IntCast, ConstantInt_getSigned, ConstantInt_get.
    destruct is_signed; intros H; injection H as <- _; reflexivity.
Qed.

Lemma CreateIntCast_total (V : LLVM.Value) (bits dest : N) (is_signed : bool)
    (b : Builder) :
  getType V = IntegerTy bits ->
  exists c b', CreateIntCast (E:=Error) V dest is_signed b = Ok c b'.
Proof.
  intros HV. unfold CreateIntCast. rewrite HV.
  destruct (bits =? dest)%N; [eexists _, _; reflexivity|].
  destruct V; eexists _, _; reflexivity.
Qed.

(** C4 (as the code has it): on two integer operands of different widths
    the narrower one is converted to the type of the wider one and takes
    its signedness, the wider one is left as it is, so that both end with
    the wider width and the signedness of the wider operand; on two
    operands of the same width nothing is converted, and each keeps its own
    signedness. *)
Theorem IntegerImplicitConversion_promotes (lhs rhs : Value)
    (lv rv : LLVM.Value) (lw rw : N) (b : Builder) :
  getValue lhs = Some lv -> getValue rhs = Some rv ->
  getType lv = IntegerTy lw -> getType rv = IntegerTy rw ->
  exists lhs' rhs' lv' rv' b',
    IntegerImplicitConversion lhs rhs b = Ok (lhs', rhs') b'
    /\ getValue lhs' = Some lv' /\ getValue rhs' = Some rv'
    /\ getType lv' = IntegerTy (N.max lw rw)
    /\ getType rv' = IntegerTy (N.max lw rw)
    /\ ((rw < lw)%N -> lhs' = lhs /\ isSigned rhs' = isSigned lhs)
    /\ ((lw < rw)%N -> rhs' = rhs /\ isSigned lhs' = isSigned rhs)
    /\ (lw = rw -> lhs' = lhs /\ rhs' = rhs /\ b' = b).
Proof.
  intros Hl Hr Hlt Hrt. unfold IntegerImplicitConversion.
  rewrite Hl, Hr, Hlt, Hrt. simpl.
  destruct (lw =? rw)%N eqn:Hw; simpl.
  - apply N.eqb_eq in Hw. subst rw. rewrite N.max_id.
    exists lhs, rhs, lv, rv, b. repeat split; auto; lia.
  - apply N.eqb_neq in Hw.
    destruct (lw =? N.max lw rw)%N eqn:Hmax.
    + apply N.eqb_eq in Hmax.
      destruct (CreateIntCast_total rv rw (N.max lw rw) (isSigned lhs) b Hrt)
        as (c & b' & Hc).
      unfold mbind, M_bind, bind. rewrite Hc.
      exists lhs, (mkValue (Some c) (isSigned lhs)), lv, c, b'.
      repeat split; auto; try lia.
      * rewrite Hlt. f_equal. exact Hmax.
      * apply (CreateIntCast_type _ _ _ _ _ _ Hc).
    + apply N.eqb_neq in Hmax.
      destruct (CreateIntCast_total lv lw (N.max lw rw) (isSigned rhs) b Hlt)
        as (c & b' & Hc).
      unfold mbind, M_bind, bind. rewrite Hc.
      exists (mkValue (Some c) (isSigned rhs)), rhs, c, rv, b'.
      repeat split; auto; try lia.
      * apply (CreateIntCast_type _ _ _ _ _ _ Hc).
      * rewrite Hrt. f_equal. lia.
Qed.

(** A signed [i8] constant and an unsigned [u32] constant. *)
Definition minus_one_i8 : Value := mkValue (Some (ConstantInt 8 255)) true.
Definition seven_u32 : Value := mkValue (Some (ConstantInt 32 7)) false.

(** C4 (witness): the theorem at these two operands; the left one is
    converted to 32 bits and becomes unsigned. *)
Lemma IntegerImplicitConversion_promotes_witness :
  exists lhs' rhs' lv' rv' b',
    IntegerImplicitConversion minus_one_i8 seven_u32 entry_builder
      = Ok (lhs', rhs') b'
    /\ getValue lhs' = Some lv' /\ getValue rhs' = Some rv'
    /\ getType lv' = IntegerTy (N.max 8 32)
    /\ getType rv' = IntegerTy (N.max 8 32)
    /\ ((32 < 8)%N ->
        lhs' = minus_one_i8 /\ isSigned rhs' = isSigned minus_one_i8)
    /\ ((8 < 32)%N ->
        rhs' = seven_u32 /\ isSigned lhs' = isSigned seven_u32)
    /\ (8%N = 32%N -> lhs' = minus_one_i8 /\ rhs' = seven_u32
                      /\ b' = entry_builder).
Proof.
  apply (IntegerImplicitConversion_promotes minus_one_i8 seven_u32
           (ConstantInt 8 255) (ConstantInt 32 7) 8 32 entry_builder);
    reflexivity.
Defined.

(** C4 (counterexample to the claim as stated): a signed and an unsigned
    operand of the same width, 32 bits.  The conversion leaves both as they
    are: the left operand stays signed, unsigned does not win. *)
Definition one_i32 : Value := mkValue (Some (ConstantInt 32 1)) true.
Definition one_u32 : Value := mkValue (Some (ConstantInt 32 1)) false.

Lemma IntegerImplicitConversion_tie_keeps_signedness :
  IntegerImplicitConversion one_i32 one_u32 entry_builder
  = Ok (one_i32, one_u32) entry_builder
  /\ isSigned one_i32 = true /\ isSigned one_u32 = false.
Proof. repeat split; reflexivity. Qed.

(** *** Calls *)

(** A module that declares [f(i32) -> i32]. *)
Definition module_f : gmap string Function :=
  {[ "f"%string := mkFunction "f" [IntegerTy 32] false (IntegerTy 32) ]}.

(** A module that declares the variadic [printf(i8*, ...) -> i32]: the
    call [printf("%d", 7, 8)] passes the arity check and is emitted, the
    first argument alone facing a parameter. *)
Definition module_printf : gmap string Function :=
  {[ "printf"%string :=
       mkFunction "printf" [PointerTy (IntegerTy 8)] true (IntegerTy 32) ]}.

Example FunctionCall_variadic :
  run module_printf ∅
      (FunctionCall "printf" [StringLiteral "%d"; Int32 7; Int32 8])
      entry_builder
  = let call :=
      CallInst 0 "printf" (IntegerTy 32)
               [GlobalStringPtr "%d"; ConstantInt 32 7; ConstantInt 32 8] in
    Ok (mkValue (Some call) false)
       (Insert (Yield call) (snd (fresh entry_builder))).
Proof. vm_compute. reflexivity. Qed.

(** The call [f(1, 2)] of [f(i32)], which is not variadic, is refused
    before anything is lowered. *)
Example FunctionCall_arity :
  run module_f ∅ (FunctionCall "f" [Int32 1; Int32 2]) entry_builder
  = Throw IncorrectArguments entry_builder.
Proof. vm_compute. reflexivity. Qed.

(** C6 (counterexample to the claim as stated): the call [f('a')] of
    [f(i32)].  The argument is the 8-bit constant of the char literal, an
    integer narrower than the parameter; it is not widened: the call is
    refused and nothing is emitted. *)
Lemma FunctionCall_no_implicit_widening :
  run module_f ∅ (FunctionCall "f" [CharLiteral 97]) entry_builder
  = Throw (IncompatibleArgument 2 "f") entry_builder.
Proof. vm_compute. reflexivity. Qed.

(** *** Further properties of the visitor *)

(** Induction on expressions that reaches the arguments of a call. *)
Section Expr_induction.
Variable P : Expr -> Prop.
Hypothesis HNil : P Nil.
Hypothesis HUInt32 : forall n, P (UInt32 n).
Hypothesis HInt32 : forall n, P (Int32 n).
Hypothesis HUInt64 : forall n, P (UInt64 n).
Hypothesis HInt64 : forall n, P (Int64 n).
Hypothesis HBool : forall n, P (Bool n).
Hypothesis HString : forall s, P (StringLiteral s).
Hypothesis HChar : forall c, P (CharLiteral c).
Hypothesis HIdentifier : forall n, P (Identifier n).
Hypothesis HBinOp : forall l op r, P l -> P r -> P (BinOp l op r).
Hypothesis HUnaryOp : forall op r, P r -> P (UnaryOp op r).
Hypothesis HFunctionCall :
  forall callee args, Forall P args -> P (FunctionCall callee args).
Hypothesis HConversion : forall l as_, P l -> P (Conversion l as_).

Fixpoint Expr_rect_nested (e : Expr) : P e :=
  match e with
  | Nil => HNil
  | UInt32 n => HUInt32 n
  | Int32 n => HInt32 n
  | UInt64 n => HUInt64 n
  | Int64 n => HInt64 n
  | Bool n => HBool n
  | StringLiteral s => HString s
  | CharLiteral c => HChar c
  | Identifier n => HIdentifier n
  | BinOp l op r => HBinOp l op r (Expr_rect_nested l) (Expr_rect_nested r)
  | UnaryOp op r => HUnaryOp op r (Expr_rect_nested r)
  | FunctionCall callee args =>
      HFunctionCall callee args
        ((fix go (l : list Expr) : Forall P l :=
            match l with
            | [] => @List.Forall_nil _ P
            | x :: l' => @List.Forall_cons _ P x l' (Expr_rect_nested x) (go l')
            end) args)
  | Conversion l as_ => HConversion l as_ (Expr_rect_nested l)
  end.
End Expr_induction.

(** [b'] is [b] after instructions that are no terminators were appended
    to its insertion block: no block was created, moved to or changed
    otherwise. *)
Definition appended (b b' : Builder) : Prop :=
  layout b' = layout b
  /\ insert_block b' = insert_block b
  /\ next_block b' = next_block b
  /\ (forall bb, bb <> insert_block b -> block_insts b' bb = block_insts b bb)
  /\ exists l,
       block_insts b' (insert_block b) = block_insts b (insert_block b) ++ l
       /\ Forall (fun i => isTerminator i = false) l.

(** A lowering step appends: whether it returns or throws, it leaves a
    builder to which only such instructions were appended. *)
Definition appends {A : Type} (m : CG A) : Prop :=
  forall b,
    match m b with
    | Ok _ b' | Throw _ b' => appended b b'
    | Undefined => True
    end.

Lemma appended_refl (b : Builder) : appended b b.
Proof.
  repeat split. exists []. rewrite app_nil_r. split; [reflexivity|constructor].
Qed.

Lemma appended_trans (b1 b2 b3 : Builder) :
  appended b1 b2 -> appended b2 b3 -> appended b1 b3.
Proof.
  intros (Hl1 & Hi1 & Hn1 & Ho1 & l1 & Ha1 & Hf1)
         (Hl2 & Hi2 & Hn2 & Ho2 & l2 & Ha2 & Hf2).
  repeat split; try congruence.
  - intros bb Hbb. rewrite Ho2 by congruence. apply Ho1, Hbb.
  - exists (l1 ++ l2). split.
    + rewrite Hi1 in Ha2. rewrite Ha2, Ha1, app_assoc. reflexivity.
    + apply Forall_app. split; assumption.
Qed.

Lemma appended_Yield (v : LLVM.Value) (b : Builder) :
  appended b (Insert (Yield v) (snd (fresh b))).
Proof.
  repeat split.
  - intros bb Hbb. unfold block_insts, Insert, fresh. simpl.
    rewrite lookup_insert_ne by congruence. reflexivity.
  - exists [Yield v]. split.
    + unfold block_insts, Insert, fresh. simpl.
      rewrite lookup_insert_eq. reflexivity.
    + repeat constructor.
Qed.

Lemma appends_ret {A : Type} (a : A) : appends (mret a : CG A).
Proof. intros b. apply appended_refl. Qed.

Lemma appends_throw {A : Type} (e : Error) : appends (throw e : CG A).
Proof. intros b. apply appended_refl. Qed.

Lemma appends_undefined {A : Type} : appends (undefined : CG A).
Proof. intros b. exact I. Qed.

Lemma appends_bind {A B : Type} (m : CG A) (k : A -> CG B) :
  appends m -> (forall a, appends (k a)) -> appends (m ≫= k).
Proof.
  intros Hm Hk b. unfold mbind, M_bind, bind.
  specialize (Hm b). destruct (m b) as [a b1|e b1|]; [|exact Hm|exact I].
  specialize (Hk a b1).
  destruct (k a b1) as [x b2|e b2|]; [| |exact I];
    exact (appended_trans _ _ _ Hm Hk).
Qed.

Lemma appends_CreateLoad (ty : LLVM.Type_) (ptr : LLVM.Value) :
  appends (CreateLoad ty ptr : CG LLVM.Value).
Proof. intros b. apply appended_Yield. Qed.

Lemma appends_CreateCall (f : Function) (args : list LLVM.Value) :
  appends (CreateCall f args : CG LLVM.Value).
Proof. intros b. apply appended_Yield. Qed.

Lemma appends_CreateBinOp (opcode : string) (l r : LLVM.Value) :
  appends (CreateBinOp opcode l r : CG LLVM.Value).
Proof. intros b. apply appended_Yield. Qed.

Lemma appends_CreateICmp (predicate : string) (l r : LLVM.Value) :
  appends (CreateICmp predicate l r : CG LLVM.Value).
Proof. intros b. apply appended_Yield. Qed.

Lemma appends_i1_to_boolean (v : LLVM.Value) : appends (i1_to_boolean v).
Proof. intros b. apply appended_Yield. Qed.

Lemma appends_CreateIntCast (V : LLVM.Value) (dest : N) (is_signed : bool) :
  appends (CreateIntCast V dest is_signed : CG LLVM.Value).
Proof.
  intros b. unfold CreateIntCast.
  destruct (getType V); try exact I.
  destruct (bits =? dest)%N; [apply appended_refl|].
  destruct V; first [apply appended_refl | apply appended_Yield].
Qed.

Lemma appends_CreatePointerCast (V : LLVM.Value) (dest : LLVM.Type_) :
  appends (CreatePointerCast V dest : CG LLVM.Value).
Proof.
  intros b. unfold CreatePointerCast.
  destruct (Type_eqb (getType V) dest);
    [apply appended_refl|apply appended_Yield].
Qed.

Lemma appends_IntegerImplicitConversion (lhs rhs : Value) :
  appends (IntegerImplicitConversion lhs rhs).
Proof.
  unfold IntegerImplicitConversion.
  destruct (getValue lhs) as [lv|]; [|apply appends_undefined].
  destruct (getValue rhs) as [rv|]; [|apply appends_undefined].
  destruct (getIntegerBitWidth (getType lv)); [|apply appends_undefined].
  destruct (getIntegerBitWidth (getType rv)); [|apply appends_undefined].
  destruct (negb _); [|apply appends_ret].
  destruct (_ =? _)%N; apply appends_bind;
    try apply appends_CreateIntCast; intros c; apply appends_ret.
Qed.

Lemma appends_verifyArguments (callee : string) (params : list LLVM.Type_) :
  forall idx args_value, appends (verifyArguments callee params idx args_value).
Proof.
  induction params as [|p params IH]; intros idx vs; simpl.
  - apply appends_ret.
  - destruct (vs !! idx); [|apply appends_undefined].
    destruct (negb _); [apply appends_throw|apply IH].
Qed.

Lemma appends_snapshot_generate (g : BinaryGenerator) (lhs rhs : Value) :
  appends (snapshot_generate g lhs rhs).
Proof.
  unfold snapshot_generate.
  destruct (getValue lhs); [|apply appends_undefined].
  destruct (getValue rhs); [|apply appends_undefined].
  destruct g; cbv beta zeta;
    repeat first
      [ apply appends_CreateBinOp | apply appends_CreateICmp
      | apply appends_i1_to_boolean | apply appends_ret
      | apply appends_bind | intros ? ].
Qed.

Lemma appends_snapshot_inverse (rhs : Value) : appends (snapshot_inverse rhs).
Proof.
  unfold snapshot_inverse.
  destruct (getValue rhs); [|apply appends_undefined].
  apply appends_bind; [apply appends_CreateBinOp|intros; apply appends_ret].
Qed.

(** The implicit conversion of two integer operands succeeds and leaves
    them with one type. *)
Lemma IntegerImplicitConversion_unifies (lhs rhs : Value)
    (lv rv : LLVM.Value) (lw rw : N) (b : Builder) :
  getValue lhs = Some lv -> getValue rhs = Some rv ->
  getType lv = IntegerTy lw -> getType rv = IntegerTy rw ->
  exists lhs' rhs' lv' rv' b',
    IntegerImplicitConversion lhs rhs b = Ok (lhs', rhs') b'
    /\ getValue lhs' = Some lv' /\ getValue rhs' = Some rv'
    /\ getType lv' = getType rv'.
Proof.
  intros Hl Hr Hlt Hrt. unfold IntegerImplicitConversion.
  rewrite Hl, Hr, Hlt, Hrt. simpl.
  destruct (lw =? rw)%N eqn:Hw; simpl.
  - apply N.eqb_eq in Hw. subst rw.
    exists lhs, rhs, lv, rv, b. repeat split; auto. congruence.
  - destruct (lw =? N.max lw rw)%N eqn:Hmax.
    + apply N.eqb_eq in Hmax.
      destruct (CreateIntCast_total rv rw (N.max lw rw) (isSigned lhs) b Hrt)
        as (c & b' & Hc).
      unfold mbind, M_bind, bind. rewrite Hc.
      exists lhs, (mkValue (Some c) (isSigned lhs)), lv, c, b'.
      repeat split; auto.
      rewrite (CreateIntCast_type _ _ _ _ _ _ Hc), Hlt. f_equal. exact Hmax.
    + apply N.eqb_neq in Hmax. apply N.eqb_neq in Hw.
      destruct (CreateIntCast_total lv lw (N.max lw rw) (isSigned rhs) b Hlt)
        as (c & b' & Hc).
      unfold mbind, M_bind, bind. rewrite Hc.
      exists (mkValue (Some c) (isSigned rhs)), rhs, c, rv, b'.
      repeat split; auto.
      rewrite (CreateIntCast_type _ _ _ _ _ _ Hc), Hrt. f_equal. lia.
Qed.

(** The verification loop on arguments whose types agree with the
    parameters up to position [i]. *)
Lemma verifyArguments_prefix (callee : string) (args_value : list LLVM.Value) :
  forall params idx i b,
    (forall k p, (k < i)%nat -> params !! k = Some p ->
       exists a, args_value !! (idx + k)%nat = Some a /\ getType a = p) ->
    verifyArguments callee params idx args_value b
    = verifyArguments callee (drop i params) (idx + i) args_value b.
Proof.
  induction params as [|p params IH]; intros idx i b Hpre.
  - rewrite drop_nil. reflexivity.
  - destruct i as [|i].
    + rewrite Nat.add_0_r. reflexivity.
    + simpl. destruct (Hpre 0%nat p ltac:(lia) eq_refl) as (a & Ha & Hp).
      rewrite Nat.add_0_r in Ha. rewrite Ha, Hp, Type_eqb_refl. simpl.
      rewrite (IH (S idx) i b).
      * f_equal. lia.
      * intros k q Hk Hq. destruct (Hpre (S k) q ltac:(lia) Hq) as (a' & Ha' & Hq').
        exists a'. split; [|exact Hq'].
        replace (S idx + k)%nat with (idx + S k)%nat by lia. exact Ha'.
Qed.

Section VisitorProperties.

Variable default_isSigned : bool.
Variable generate : BinaryGenerator -> Value -> Value -> CG Value.
Variable inverse : Value -> CG Value.
Variable int1ToBool : LLVM.Value -> CG LLVM.Value.
Variable module_ : gmap string Function.
Variable scope : SymbolTable.

Local Notation "'visit_'" :=
  (visit default_isSigned generate inverse int1ToBool module_ scope).

Lemma appends_lowerArguments (callee : string) (args : list Expr) :
  Forall (fun e => appends (visit_ e)) args ->
  forall acc, appends (lowerArguments visit_ callee args acc).
Proof.
  induction 1 as [|a args Ha _ IH]; intros acc; simpl.
  - apply appends_ret.
  - apply appends_bind; [exact Ha|]. intros v.
    destruct (getValue v); [apply IH|apply appends_throw].
Qed.

(** X6: the lowering of an expression only appends to the insertion
    block, and never a terminator: it creates no block, does not move the
    insertion point and changes no other block, whether it returns a value
    or throws, provided the generators of the operators, which the sources
    do not define, do the same. *)
Theorem visit_appends (e : Expr) :
  (forall g lhs rhs, appends (generate g lhs rhs)) ->
  (forall rhs, appends (inverse rhs)) ->
  (forall v, appends (int1ToBool v)) ->
  appends (visit_ e).
Proof.
  intros Hgen Hinv Hbool.
  induction e as [|n|n|n|n|n|s|c|n|l op r IHl IHr|op r IHr|callee args IH
                  |l as_ IHl] using Expr_rect_nested; simpl.
  - apply appends_undefined.
  - apply appends_ret.
  - apply appends_ret.
  - apply appends_ret.
  - apply appends_ret.
  - apply appends_bind; [apply Hbool|intros; apply appends_ret].
  - apply appends_ret.
  - apply appends_ret.
  - destruct (scope !! n); [|apply appends_throw].
    apply appends_bind; [apply appends_CreateLoad|intros; apply appends_ret].
  - apply appends_bind; [exact IHl|intros lhs].
    apply appends_bind; [exact IHr|intros rhs].
    destruct (getValue lhs); [|apply appends_throw].
    destruct (getValue rhs); [|apply appends_throw].
    apply appends_bind; [apply appends_IntegerImplicitConversion|].
    intros [lhs' rhs'].
    destruct (getValue lhs'); [|apply appends_undefined].
    destruct (getValue rhs'); [|apply appends_undefined].
    destruct (negb _); [apply appends_throw|].
    destruct (generator_of op); [apply Hgen|apply appends_throw].
  - apply appends_bind; [exact IHr|intros rhs].
    destruct (getValue rhs) as [x|] eqn:Hx; [|apply appends_throw].
    destruct (String.eqb op "+"); [apply appends_ret|].
    destruct (String.eqb op "-"); [apply Hinv|].
    destruct (String.eqb op "*").
    { unfold gen_indirection. rewrite Hx.
      destruct (getType x); try apply appends_throw.
      apply appends_bind; [apply appends_CreateLoad|intros; apply appends_ret]. }
    destruct (String.eqb op "&"); [|apply appends_throw].
    unfold gen_address_of. rewrite Hx. apply appends_ret.
  - destruct (module_ !! callee) as [f|]; [|apply appends_throw].
    destruct (_ && _); [apply appends_throw|].
    apply appends_bind; [apply appends_lowerArguments, IH|intros vs].
    apply appends_bind; [apply appends_verifyArguments|intros _].
    apply appends_bind; [apply appends_CreateCall|intros; apply appends_ret].
  - apply appends_bind; [exact IHl|intros lhs].
    destruct (getValue lhs); [|apply appends_throw].
    destruct (as_getType as_);
      try (destruct (as_isPointer as_); [|apply appends_throw];
           apply appends_bind;
           [apply appends_CreatePointerCast|intros; apply appends_ret]).
    apply appends_bind; [apply appends_CreateIntCast|intros; apply appends_ret].
Qed.

(** X7: a binary operator on two integer operands, whatever their widths,
    never fails for operands of different types: the implicit conversion
    gives both one type, and the visitor goes on to the generator of the
    operator, or to the error of an unknown operator. *)
Theorem BinOp_integer_operands (lhs_node rhs_node : Expr) (op : string)
    (b b1 b2 : Builder) (lhs rhs : Value) (lv rv : LLVM.Value) (lw rw : N) :
  visit_ lhs_node b = Ok lhs b1 -> visit_ rhs_node b1 = Ok rhs b2 ->
  getValue lhs = Some lv -> getValue rhs = Some rv ->
  getType lv = IntegerTy lw -> getType rv = IntegerTy rw ->
  exists lhs' rhs' b3,
    IntegerImplicitConversion lhs rhs b2 = Ok (lhs', rhs') b3
    /\ visit_ (BinOp lhs_node op rhs_node) b
       = match generator_of op with
         | Some g => generate g lhs' rhs' b3
         | None => Throw (UnknownOperator op) b3
         end.
Proof.
  intros Hlhs Hrhs Hl Hr Hlt Hrt.
  destruct (IntegerImplicitConversion_unifies lhs rhs lv rv lw rw b2
              Hl Hr Hlt Hrt)
    as (lhs' & rhs' & lv' & rv' & b3 & Hconv & Hl' & Hr' & Hty).
  exists lhs', rhs', b3. split; [exact Hconv|].
  simpl. unfold mbind, M_bind.
  rewrite (bind_Ok _ _ _ _ _ Hlhs), (bind_Ok _ _ _ _ _ Hrhs).
  rewrite Hl, Hr. rewrite (bind_Ok _ _ _ _ _ Hconv).
  rewrite Hl', Hr', Hty, Type_eqb_refl. simpl.
  destruct (generator_of op); reflexivity.
Qed.

(** X8: the address of an indirection is the pointer itself.  When [e]
    is lowered to a pointer, [*e] is a load from it that keeps the
    signedness of [e], and [&*e] is the value of [e] again, the load being
    left behind in the block. *)
Theorem address_of_indirection (e : Expr) (b b1 : Builder) (p : Value)
    (pv : LLVM.Value) (elem : LLVM.Type_) :
  visit_ e b = Ok p b1 -> getValue p = Some pv ->
  getType pv = PointerTy elem ->
  let load := LoadInst (next_inst b1) elem pv in
  let b2 := Insert (Yield load) (snd (fresh b1)) in
  visit_ (UnaryOp "*" e) b = Ok (mkValue (Some load) (isSigned p)) b2
  /\ visit_ (UnaryOp "&" (UnaryOp "*" e)) b
     = Ok (mkValue (Some pv) default_isSigned) b2.
Proof.
  intros He Hp Hty load b2.
  assert (Hstar : visit_ (UnaryOp "*" e) b
                  = Ok (mkValue (Some load) (isSigned p)) b2).
  { simpl. unfold mbind, M_bind. rewrite (bind_Ok _ _ _ _ _ He), Hp. simpl.
    unfold gen_indirection. rewrite Hp, Hty. reflexivity. }
  split; [exact Hstar|].
  change (visit_ (UnaryOp "&" (UnaryOp "*" e)) b)
    with ((visit_ (UnaryOp "*" e) ≫=
            (fun rhs => match getValue rhs with
                        | None => throw FailedRightHandSide
                        | Some _ => gen_address_of default_isSigned rhs
                        end)) b).
  unfold mbind, M_bind. rewrite (bind_Ok _ _ _ _ _ Hstar). reflexivity.
Qed.

(** X9: the address of a variable is its stack slot, and the address of
    anything that is not a load is null, without an error: the visitor
    lowers the operand first, which for a variable leaves a load of it in
    the block, and then takes the pointer operand of what it got. *)
Theorem address_of_operand (e : Expr) (b b1 : Builder) (v : Value)
    (x : LLVM.Value) :
  visit_ e b = Ok v b1 -> getValue v = Some x ->
  visit_ (UnaryOp "&" e) b
  = Ok (mkValue (match x with LoadInst _ _ ptr => Some ptr | _ => None end)
                default_isSigned) b1
  /\ (forall name variable,
        e = Identifier name -> scope !! name = Some variable ->
        x = LoadInst (next_inst b) (allocated_type variable)
                     (getAllocaInst variable)
        /\ visit_ (UnaryOp "&" e) b
           = Ok (mkValue (Some (getAllocaInst variable)) default_isSigned)
                (Insert (Yield x) (snd (fresh b)))).
Proof.
  intros He Hx.
  assert (Hamp : visit_ (UnaryOp "&" e) b
                 = Ok (mkValue (getPointerOperand x) default_isSigned) b1).
  { simpl. unfold mbind, M_bind. rewrite (bind_Ok _ _ _ _ _ He), Hx. simpl.
    unfold gen_address_of. rewrite Hx. reflexivity. }
  split; [exact Hamp|].
  intros name variable -> Hvar. simpl in He. rewrite Hvar in He.
  injection He as <- <-. simpl in Hx. injection Hx as <-.
  split; [reflexivity|]. exact Hamp.
Qed.


(** X11: the number in the message of an incompatible argument.  When
    the arguments of a call are lowered and the first one whose type
    differs from its parameter stands at position [i], counted from zero,
    the error names the argument [i + 2]: the index is incremented before
    the message adds one to it. *)
Theorem FunctionCall_incompatible_argument (callee : string)
    (args : list Expr) (f : Function) (b b1 : Builder)
    (args_value : list LLVM.Value) (i : nat) (a : LLVM.Value)
    (p : LLVM.Type_) :
  module_ !! callee = Some f ->
  (isVarArg f = true \/ arg_size f = length args) ->
  lowerArguments visit_ callee args [] b = Ok args_value b1 ->
  (forall k q, (k < i)%nat -> arg_types f !! k = Some q ->
     exists x, args_value !! k = Some x /\ getType x = q) ->
  args_value !! i = Some a -> arg_types f !! i = Some p -> getType a <> p ->
  visit_ (FunctionCall callee args) b
  = Throw (IncompatibleArgument (i + 2) callee) b1.
Proof.
  intros Hf Harity Hlow Hpre Ha Hp Hne. simpl. rewrite Hf.
  assert (Hcheck : negb (isVarArg f)
                   && negb (arg_size f =? length args)%nat = false).
  { destruct Harity as [->| ->]; [reflexivity|].
    rewrite Nat.eqb_refl. apply andb_false_r. }
  rewrite Hcheck. unfold mbind, M_bind.
  rewrite (bind_Ok _ _ _ _ _ Hlow).
  apply bind_Throw.
  rewrite (verifyArguments_prefix callee args_value (arg_types f) 0 i b1 Hpre).
  rewrite (drop_S _ _ _ Hp). simpl. rewrite Ha.
  destruct (Type_eqb (getType a) p) eqn:Heq.
  - apply Type_eqb_eq in Heq. contradiction.
  - simpl. do 3 f_equal. lia.
Qed.

(** X12: a variadic callee is not refused for a call that has fewer
    arguments than the callee has fixed parameters.  The arity check is
    skipped, and once the arguments are lowered and agree with the
    parameters they face, the verification loop reads [args_value] past
    its end: no error is thrown. *)
Theorem FunctionCall_variadic_too_few (callee : string) (args : list Expr)
    (f : Function) (b b1 : Builder) (args_value : list LLVM.Value) :
  module_ !! callee = Some f -> isVarArg f = true ->
  (length args < arg_size f)%nat ->
  lowerArguments visit_ callee args [] b = Ok args_value b1 ->
  (forall k q, (k < length args)%nat -> arg_types f !! k = Some q ->
     exists x, args_value !! k = Some x /\ getType x = q) ->
  visit_ (FunctionCall callee args) b = Undefined.
Proof.
  intros Hf Hvar Hlt Hlow Hpre. simpl. rewrite Hf, Hvar. simpl.
  unfold mbind, M_bind. rewrite (bind_Ok _ _ _ _ _ Hlow).
  apply bind_Undefined.
  pose proof (lowerArguments_length _ _ _ _ _ _ _ _ _ _ _ _ Hlow) as Hlen.
  simpl in Hlen.
  rewrite (verifyArguments_prefix callee args_value (arg_types f) 0
             (length args) b1 Hpre).
  unfold arg_size in Hlt.
  destruct (drop (length args) (arg_types f)) as [|q rest] eqn:Hdrop.
  - apply (f_equal length) in Hdrop. rewrite length_drop in Hdrop.
    simpl in Hdrop. lia.
  - simpl. rewrite (proj2 (lookup_ge_None args_value (length args)));
      [reflexivity|lia].
Qed.

End VisitorProperties.

(** X6 (witness): the theorem at the generators of the earlier snapshot
    and the expression [f(1) + 2]. *)
Lemma visit_appends_witness :
  appends (run module_f ∅
             (BinOp (FunctionCall "f" [Int32 1]) "+" (Int32 2))).
Proof.
  apply (visit_appends false snapshot_generate snapshot_inverse i1_to_boolean
           module_f ∅ (BinOp (FunctionCall "f" [Int32 1]) "+" (Int32 2))).
  - exact appends_snapshot_generate.
  - exact appends_snapshot_inverse.
  - exact appends_i1_to_boolean.
Defined.

(** X7 (witness): the theorem at ['a' + 1], a [u8] and a [u32] operand. *)
Lemma BinOp_integer_operands_witness :
  exists lhs' rhs' b3,
    IntegerImplicitConversion
      (visit_CharLiteral 97) (mkValue (Some (ConstantInt 32 1)) false)
      entry_builder = Ok (lhs', rhs') b3
    /\ run ∅ ∅ (BinOp (CharLiteral 97) "+" (UInt32 1)) entry_builder
       = match generator_of "+" with
         | Some g => snapshot_generate g lhs' rhs' b3
         | None => Throw (UnknownOperator "+") b3
         end.
Proof.
  apply (BinOp_integer_operands false snapshot_generate snapshot_inverse
           i1_to_boolean ∅ ∅ (CharLiteral 97) (UInt32 1) "+"
           entry_builder entry_builder entry_builder
           (visit_CharLiteral 97) (mkValue (Some (ConstantInt 32 1)) false)
           (ConstantInt 8 97) (ConstantInt 32 1) 8 32);
    reflexivity.
Defined.

(** A scope with the variable [p], a pointer to [i32], signed. *)
Definition slot_p : LLVM.Value := AllocaInst 0 "p" (PointerTy (IntegerTy 32)).
Definition scope_p : SymbolTable :=
  {[ "p"%string := mkVariable slot_p (PointerTy (IntegerTy 32)) true ]}.
Definition load_p : LLVM.Value := LoadInst 1 (PointerTy (IntegerTy 32)) slot_p.

(** The builder after the slot of [p] was created: the next instruction
    is the second one. *)
Definition builder_p : Builder :=
  mkBuilder {[ 0%nat := [Yield slot_p] ]} [0%nat] 0 1 1.

(** X8 (witness): the theorem at the variable [p]. *)
Lemma address_of_indirection_witness :
  let b1 := Insert (Yield load_p) (snd (fresh builder_p)) in
  let load := LoadInst 2 (IntegerTy 32) load_p in
  let b2 := Insert (Yield load) (snd (fresh b1)) in
  run ∅ scope_p (UnaryOp "*" (Identifier "p")) builder_p
    = Ok (mkValue (Some load) true) b2
  /\ run ∅ scope_p (UnaryOp "&" (UnaryOp "*" (Identifier "p"))) builder_p
     = Ok (mkValue (Some load_p) false) b2.
Proof.
  apply (address_of_indirection false snapshot_generate snapshot_inverse
           i1_to_boolean ∅ scope_p (Identifier "p") builder_p
           (Insert (Yield load_p) (snd (fresh builder_p)))
           (mkValue (Some load_p) true) load_p (IntegerTy 32));
    reflexivity.
Defined.

(** X9 (witness): the theorem at the variable [p]: [&p] is the slot of
    [p]. *)
Lemma address_of_operand_witness :
  run ∅ scope_p (UnaryOp "&" (Identifier "p")) builder_p
  = Ok (mkValue (Some slot_p) false)
       (Insert (Yield load_p) (snd (fresh builder_p)))
  /\ (forall name variable,
        Identifier "p" = Identifier name -> scope_p !! name = Some variable ->
        load_p = LoadInst (next_inst builder_p) (allocated_type variable)
                          (getAllocaInst variable)
        /\ run ∅ scope_p (UnaryOp "&" (Identifier "p")) builder_p
           = Ok (mkValue (Some (getAllocaInst variable)) false)
                (Insert (Yield load_p) (snd (fresh builder_p)))).
Proof.
  apply (address_of_operand false snapshot_generate snapshot_inverse
           i1_to_boolean ∅ scope_p (Identifier "p") builder_p
           (Insert (Yield load_p) (snd (fresh builder_p)))
           (mkValue (Some load_p) true) load_p);
    reflexivity.
Defined.



(** A module that declares [g(i32, i32) -> i32]. *)
Definition module_g : gmap string Function :=
  {[ "g"%string :=
       mkFunction "g" [IntegerTy 32; IntegerTy 32] false (IntegerTy 32) ]}.

(** X11 (witness): the theorem at the call [g(1, 'a')]: the second
    argument is the one that differs, and the message names the third. *)
Lemma FunctionCall_incompatible_argument_witness :
  run module_g ∅ (FunctionCall "g" [Int32 1; CharLiteral 97]) entry_builder
  = Throw (IncompatibleArgument 3 "g") entry_builder.
Proof.
  apply (FunctionCall_incompatible_argument false snapshot_generate
           snapshot_inverse i1_to_boolean module_g ∅
           "g" [Int32 1; CharLiteral 97]
           (mkFunction "g" [IntegerTy 32; IntegerTy 32] false (IntegerTy 32))
           entry_builder entry_builder
           [ConstantInt 32 1; ConstantInt 8 97] 1
           (ConstantInt 8 97) (IntegerTy 32)).
  - reflexivity.
  - right. reflexivity.
  - reflexivity.
  - intros k q Hk Hq. destruct k as [|k]; [|lia].
    injection Hq as <-. exists (ConstantInt 32 1). split; reflexivity.
  - reflexivity.
  - reflexivity.
  - discriminate.
Defined.

(** X12 (witness): the theorem at the call [printf()] of the variadic
    [printf(i8*, ...)]. *)
Lemma FunctionCall_variadic_too_few_witness :
  run module_printf ∅ (FunctionCall "printf" []) entry_builder = Undefined.
Proof.
  apply (FunctionCall_variadic_too_few false snapshot_generate
           snapshot_inverse i1_to_boolean module_printf ∅
           "printf" []
           (mkFunction "printf" [PointerTy (IntegerTy 8)] true (IntegerTy 32))
           entry_builder entry_builder []).
  - reflexivity.
  - reflexivity.
  - unfold arg_size. simpl. lia.
  - reflexivity.
  - intros k q Hk. simpl in Hk. lia.
Defined.

End Expr.

(* ===================================================================== *)
(** ** parse.cpp: the grammar and [parser::parse] *)
(* ===================================================================== *)

Module Parse.

Local Open Scope char_scope.
Local Open Scope nat_scope.

(** The rules of the grammar, by the name of the C++ constant. *)
Inductive RuleId :=
  | identifier | keyword | data_type | integer
  | assignment | equality | relational | addition | multiplication
  | unary | primary | expression
  | assignment_operator | equality_operator | relational_operator
  | additive_operator | multitive_operator | unary_operator
  | argument_list
  | statement | compound_statement | expression_statement
  | variable_def_statement | return_statement
  | compound_statement_or_statement | if_statement | for_statement
  | parameter_list | function_proto | function_declare | function_define
  | top_level_stmt
  | block_comment | single_line_comment | comment | skipper
  | program.

(** The parsers of Spirit X3 the grammar is built from.  [lit] stands for
    [x3::lit] and [x3::string] alike, whose matching is the same;
    [expect a b] is [a > b] and [seq a b] is [a >> b]. *)
Inductive Parser :=
  | lit (s : string)
  | char_set (cs : string)
  | char_
  | alpha
  | alnum
  | space
  | eol
  | eoi
  | int_
  | symbols (names : list string)
  | seq (a b : Parser)
  | expect (a b : Parser)
  | alt (a b : Parser)
  | kleene (a : Parser)
  | optional (a : Parser)
  | difference (a b : Parser)
  | lexeme (a : Parser)
  | raw (a : Parser)
  | rule (r : RuleId).

(** [a > b > c ...], [a >> b >> c ...] and [a | b | c ...]: the operators
    of C++ associate to the left. *)
Definition expects (a : Parser) (bs : list Parser) : Parser :=
  fold_left expect bs a.
Definition seqs (a : Parser) (bs : list Parser) : Parser :=
  fold_left seq bs a.
Definition alts (a : Parser) (bs : list Parser) : Parser :=
  fold_left alt bs a.

(** The definition of each rule, as the source writes it. *)
Definition identifier_def : Parser :=
  raw (lexeme (seq (alt alpha (lit "_")) (kleene (alt alnum (lit "_"))))).

Definition operation (operand operator : RuleId) : Parser :=
  seq (rule operand) (kleene (expect (rule operator) (rule operand))).

Definition body (r : RuleId) : Parser :=
  match r with
  | identifier => identifier_def
  | keyword => identifier_def
  | data_type => lit "i32"
  | integer => int_
  | assignment_operator => lit "="
  | equality_operator => alt (lit "==") (lit "!=")
  | relational_operator => alts (lit "<=") [lit ">="; lit "<"; lit ">"]
  | additive_operator => char_set "+-"
  | multitive_operator => char_set "*/"
  | unary_operator => char_set "+-"
  | argument_list =>
      optional (seq (rule expression)
                    (kleene (expect (lit ",") (rule expression))))
  | expression => rule assignment
  | assignment => operation equality assignment_operator
  | equality => operation relational equality_operator
  | relational => operation addition relational_operator
  | addition => operation multiplication additive_operator
  | multiplication => operation unary multitive_operator
  | unary => alt (expect (rule unary_operator) (rule primary)) (rule primary)
  | primary =>
      alts (expects (lit "(") [rule expression; lit ")"])
           [rule integer;
            expects (seq (rule identifier) (lit "("))
                    [rule argument_list; lit ")"];
            rule identifier]
  | expression_statement => expect (rule expression) (lit ";")
  | variable_def_statement =>
      expects (lit "var")
              [optional (symbols ["mutable"%string]);
               rule identifier;
               optional (expect (lit "=") (rule expression));
               lit ";"]
  | return_statement => expects (lit "ret") [rule expression; lit ";"]
  | compound_statement_or_statement =>
      alt (rule compound_statement) (rule statement)
  | if_statement =>
      expects (lit "if")
              [lit "("; rule expression; lit ")";
               rule compound_statement_or_statement;
               optional (expect (lit "else")
                                (rule compound_statement_or_statement))]
  | for_statement =>
      expects (lit "for")
              [lit "("; optional (rule expression); lit ";";
               optional (rule expression);
               seq (lit ";") (optional (rule expression));
               lit ")";
               rule compound_statement_or_statement]
  | statement =>
      alts (lit ";")
           [rule return_statement; rule variable_def_statement;
            rule if_statement; rule for_statement;
            rule expression_statement]
  | compound_statement =>
      expects (lit "{") [kleene (rule statement); lit "}"]
  | parameter_list =>
      optional (seq (rule identifier)
                    (kleene (expect (lit ",") (rule identifier))))
  | function_proto =>
      expects (rule identifier) [lit "("; rule parameter_list; lit ")"]
  | function_declare =>
      expects (lit "extern") [rule function_proto; lit ";"]
  | function_define =>
      expects (lit "func") [rule function_proto; rule compound_statement]
  | top_level_stmt => alt (rule function_declare) (rule function_define)
  | single_line_comment =>
      seqs (lit "//") [kleene (difference char_ eol); alt eol eoi]
  | block_comment =>
      seqs (lit "/*")
           [kleene (alt (rule block_comment) (difference char_ (lit "*/")));
            lit "*/"]
  | comment => alt (rule single_line_comment) (rule block_comment)
  | skipper => alt space (rule comment)
  | program => expect (kleene (rule top_level_stmt)) eoi
  end.

(** The rules whose tag derives from [with_error_handling], and so has
    [on_error].  The tag that would serve [variable_def_statement] is
    declared under another name ([variable_def_statement], the rule names
    [variable_def_statement_tag]), and the tags of the lexical rules, of
    [compound_statement_or_statement] and of the comment rules are never
    defined: these rules have no handler. *)
Definition has_on_error (r : RuleId) : bool :=
  match r with
  | argument_list | assignment | expression | equality | relational
  | addition | multiplication | unary | primary
  | statement | compound_statement | expression_statement
  | return_statement | if_statement | for_statement
  | parameter_list | function_proto | function_declare | function_define
  | top_level_stmt | program => true
  | _ => false
  end.

(** What a parser does on an input: it matches and leaves the rest of the
    input, it fails, it throws [x3::expectation_failure], or the
    evaluation below ran out of fuel. *)
Inductive Result :=
  | Match (rest : list ascii)
  | NoMatch
  | ExpectationFailure
  | OutOfFuel.

Definition is_alpha (c : ascii) : bool :=
  let n := nat_of_ascii c in
  ((65 <=? n) && (n <=? 90)) || ((97 <=? n) && (n <=? 122)).
Definition is_digit (c : ascii) : bool :=
  let n := nat_of_ascii c in (48 <=? n) && (n <=? 57).
Definition is_space (c : ascii) : bool :=
  let n := nat_of_ascii c in (n =? 32) || ((9 <=? n) && (n <=? 13)).

Fixpoint match_prefix (s : list ascii) (input : list ascii)
  : option (list ascii) :=
  match s, input with
  | [], _ => Some input
  | c :: s', d :: input' =>
      if Ascii.eqb c d then match_prefix s' input' else None
  | _ :: _, [] => None
  end.

(** [x3::symbols]: the longest name that starts the input. *)
Definition match_symbols (names : list string) (input : list ascii)
  : option (list ascii) :=
  fold_left
    (fun best name =>
       match match_prefix (list_ascii_of_string name) input, best with
       | Some rest, Some rest' =>
           if length rest <? length rest' then Some rest else best
       | Some rest, None => Some rest
       | None, _ => best
       end) names None.

(** [x3::int_]: an optional sign and at least one digit, the number within
    the range of [int]. *)
Fixpoint digits (input : list ascii) (acc : Z) : Z * list ascii :=
  match input with
  | c :: input' =>
      if is_digit c
      then digits input' (10 * acc + Z.of_nat (nat_of_ascii c - 48))%Z
      else (acc, input)
  | [] => (acc, input)
  end.

Definition match_int (input : list ascii) : option (list ascii) :=
  let '(negative, after_sign) :=
    match input with
    | "-" :: input' => (true, input')
    | "+" :: input' => (false, input')
    | _ => (false, input)
    end in
  match after_sign with
  | c :: _ =>
      if is_digit c then
        let '(n, rest) := digits after_sign 0%Z in
        let v := if negative then (- n)%Z else n in
        if ((- 2 ^ 31 <=? v) && (v <=? 2 ^ 31 - 1))%Z then Some rest else None
      else None
  | [] => None
  end.

Definition of_option (o : option (list ascii)) : Result :=
  match o with Some rest => Match rest | None => NoMatch end.

(** One step of the parse of [p] on [input], the parsers inside [p] and
    the rules being parsed by [parse_].  [skipping] tells whether the
    skipper is in force (it is not inside [lexeme] and inside the skipper
    itself), and [errors] is the static counter
    [with_error_handling::total_errors], which comes back with the result.
    Every primitive parser first skips, that is matches [*skipper] with
    skipping off; a rule whose tag has [on_error] turns an expectation
    failure into a failure of the rule and counts it, the handler returning
    [error_handler_result::fail]. *)
Definition eval_step
    (parse_ : Parser -> bool -> list ascii -> nat -> Result * nat)
    (p : Parser) (skipping : bool) (input : list ascii) (errors : nat)
  : Result * nat :=
  let skip_over (k : list ascii -> nat -> Result * nat) :=
    if skipping then
      match parse_ (kleene (rule skipper)) false input errors with
      | (Match rest, e) => k rest e
      | other => other
      end
    else k input errors in
  let primitive (m : list ascii -> option (list ascii)) :=
    skip_over (fun i e => (of_option (m i), e)) in
  let one (test : ascii -> bool) :=
    primitive (fun i => match i with
                        | c :: i' => if test c then Some i' else None
                        | [] => None
                        end) in
  match p with
  | lit s => primitive (match_prefix (list_ascii_of_string s))
  | char_set cs =>
      one (fun c => existsb (Ascii.eqb c) (list_ascii_of_string cs))
  | char_ => one (fun _ => true)
  | alpha => one is_alpha
  | alnum => one (fun c => is_alpha c || is_digit c)
  | space => one is_space
  | eol =>
      primitive (fun i =>
        match i with
        | "013" :: "010" :: i' => Some i'
        | "013" :: i' => Some i'
        | "010" :: i' => Some i'
        | _ => None
        end)
  | eoi => primitive (fun i => match i with [] => Some [] | _ => None end)
  | int_ => primitive match_int
  | symbols names => primitive (match_symbols names)
  | seq a b =>
      match parse_ a skipping input errors with
      | (Match rest, e) => parse_ b skipping rest e
      | other => other
      end
  | expect a b =>
      match parse_ a skipping input errors with
      | (Match rest, e) =>
          match parse_ b skipping rest e with
          | (NoMatch, e') => (ExpectationFailure, e')
          | other => other
          end
      | other => other
      end
  | alt a b =>
      match parse_ a skipping input errors with
      | (NoMatch, e) => parse_ b skipping input e
      | other => other
      end
  | kleene a =>
      match parse_ a skipping input errors with
      | (Match rest, e) => parse_ (kleene a) skipping rest e
      | (NoMatch, e) => (Match input, e)
      | other => other
      end
  | optional a =>
      match parse_ a skipping input errors with
      | (NoMatch, e) => (Match input, e)
      | other => other
      end
  | difference a b =>
      match parse_ b skipping input errors with
      | (Match _, e) => (NoMatch, e)
      | (NoMatch, e) => parse_ a skipping input e
      | other => other
      end
  | lexeme a => skip_over (fun i e => parse_ a false i e)
  | raw a => skip_over (fun i e => parse_ a skipping i e)
  | rule r =>
      match parse_ (body r) skipping input errors with
      | (ExpectationFailure, e) =>
          if has_on_error r then (NoMatch, S e) else (ExpectationFailure, e)
      | other => other
      end
  end.

(** The parse, [fuel] bounding the depth of the calls. *)
Fixpoint eval (fuel : nat) (p : Parser) (skipping : bool)
    (input : list ascii) (errors : nat) {struct fuel} : Result * nat :=
  match fuel with
  | O => (OutOfFuel, errors)
  | S fuel' => eval_step (eval fuel') p skipping input errors
  end.

(** [x3::phrase_parse(first, last, parser, skipper, ast)]: the parse with
    the skipper in force, then a last skip; the result of the parse and
    where [first] stands after a match (after a failure the caller does not
    look at it). *)
Definition phrase_parse (fuel : nat) (p : Parser) (input : list ascii)
    (errors : nat) : Result * nat :=
  match eval fuel p true input errors with
  | (Match rest, e) =>
      eval fuel (kleene (rule skipper)) false rest e
  | other => other
  end.

(** What [parser::parse] does: it returns, the AST being kept, or it throws
    the [std::runtime_error] whose message is [N errors generated.]. *)
Inductive Outcome :=
  | Accepted
  | RuntimeError (errors_generated : nat)
  | UncaughtExpectationFailure
  | Unfinished.

(** [parser::parse]:
    [success = phrase_parse(...); if (!success || first != last) throw ...].
    The second component is the counter after the call. *)
Definition parse (fuel : nat) (input : string) (total_errors : nat)
  : Outcome * nat :=
  match phrase_parse fuel (rule program) (list_ascii_of_string input)
                     total_errors with
  | (Match [], e) => (Accepted, e)
  | (Match (_ :: _), e) => (RuntimeError e, e)
  | (NoMatch, e) => (RuntimeError e, e)
  | (ExpectationFailure, e) => (UncaughtExpectationFailure, e)
  | (OutOfFuel, e) => (Unfinished, e)
  end.

(** *** Properties of the evaluation *)

Ltac eval_cases f IH :=
  repeat match goal with
  | H : context [eval f ?p ?s ?i ?e] |- _ =>
      let E := fresh "E" in
      destruct (eval f p s i e) as [[?| | |] ?] eqn:E; apply IH in E
  | H : context [if ?c then _ else _] |- _ => destruct c
  end.

(** The counter of errors never goes down. *)
Lemma eval_errors_mono (fuel : nat) :
  forall p skipping input errors r errors',
    eval fuel p skipping input errors = (r, errors') -> errors <= errors'.
Proof.
  induction fuel as [|f IH]; intros p s i e r e' H.
  - simpl in H. injection H as _ <-. lia.
  - destruct p; simpl in H; unfold eval_step in H; eval_cases f IH;
      try (injection H as _ <-); try lia;
      try (apply IH in H; lia).
Qed.

(** [*a] never fails. *)
Lemma eval_kleene_not_NoMatch (fuel : nat) :
  forall a skipping input errors errors',
    eval fuel (kleene a) skipping input errors <> (NoMatch, errors').
Proof.
  induction fuel as [|f IH]; intros a s i e e' H.
  - discriminate.
  - simpl in H.
    destruct (eval f a s i e) as [[rest| | |] e1] eqn:E; try discriminate.
    exact (IH _ _ _ _ _ H).
Qed.

(** A rule that has a handler lets no expectation failure out. *)
Lemma eval_rule_handled (fuel : nat) (r : RuleId) :
  has_on_error r = true ->
  forall skipping input errors errors',
    eval fuel (rule r) skipping input errors <> (ExpectationFailure, errors').
Proof.
  intros Hr s i e e' H. destruct fuel as [|f]; [discriminate|].
  simpl in H. rewrite Hr in H.
  destruct (eval f (body r) s i e) as [[rest| | |] e1]; discriminate.
Qed.

Lemma eval_kleene_rule_handled (fuel : nat) (r : RuleId) :
  has_on_error r = true ->
  forall skipping input errors errors',
    eval fuel (kleene (rule r)) skipping input errors
    <> (ExpectationFailure, errors').
Proof.
  intros Hr. induction fuel as [|f IH]; intros s i e e' H.
  - discriminate.
  - simpl in H.
    destruct (eval f (rule r) s i e) as [[rest| | |] e1] eqn:E;
      try discriminate.
    + exact (IH _ _ _ _ H).
    + injection H as <-. exact (eval_rule_handled f r Hr _ _ _ _ E).
Qed.

(** [eoi] matches the end of the input only. *)
Lemma eval_eoi_Match (fuel : nat) :
  forall skipping input errors rest errors',
    eval fuel eoi skipping input errors = (Match rest, errors') -> rest = [].
Proof.
  intros s i e rest e' H. destruct fuel as [|f]; [discriminate|].
  simpl in H. destruct s.
  - destruct (eval f (kleene (rule skipper)) false i e) as [[r0| | |] e0];
      try discriminate.
    destruct r0; simpl in H; [|discriminate]. injection H as <- _. reflexivity.
  - destruct i; simpl in H; [|discriminate]. injection H as <- _. reflexivity.
Qed.

(** The rule [program]: it matches, and then has consumed all of the
    input, or it fails, and then has counted an error, the failed
    expectation of the end of input at the least. *)
Lemma eval_program (fuel : nat) (input : list ascii) (errors : nat) :
  forall r errors',
    eval fuel (rule program) true input errors = (r, errors') ->
    (r = Match [] /\ errors <= errors')
    \/ (r = NoMatch /\ errors < errors')
    \/ r = OutOfFuel.
Proof.
  intros r e' H. destruct fuel as [|f]; [injection H as <- _; auto|].
  simpl in H.
  destruct f as [|f1]; [injection H as <- _; auto|].
  simpl in H.
  destruct (eval f1 (kleene (rule top_level_stmt)) true input errors)
    as [[rest| | |] e1] eqn:EK.
  - pose proof (eval_errors_mono _ _ _ _ _ _ _ EK) as Hk.
    destruct (eval f1 eoi true rest e1) as [[rest'| | |] e2] eqn:EE;
      pose proof (eval_errors_mono _ _ _ _ _ _ _ EE) as He;
      injection H as <- <-.
    + apply eval_eoi_Match in EE. subst rest'. left. split; [reflexivity|lia].
    + right. left. split; [reflexivity|lia].
    + right. left. split; [reflexivity|lia].
    + auto.
  - exfalso. exact (eval_kleene_not_NoMatch _ _ _ _ _ _ EK).
  - exfalso. exact (eval_kleene_rule_handled _ top_level_stmt eq_refl _ _ _ _ EK).
  - injection H as <- _. auto.
Qed.

(** The skip after the parse, at the end of the input: nothing is left to
    skip. *)
Lemma eval_skip_at_end (fuel : nat) (errors : nat) :
  eval fuel (kleene (rule skipper)) false [] errors = (Match [], errors)
  \/ eval fuel (kleene (rule skipper)) false [] errors = (OutOfFuel, errors).
Proof.
  do 14 (destruct fuel as [|fuel]; [vm_compute; auto|]).
  left. vm_compute. reflexivity.
Qed.

(** *** Fuel *)

(** [g] gives every result [f] gives, short of running out of fuel. *)
Definition extends
    (f g : Parser -> bool -> list ascii -> nat -> Result * nat) : Prop :=
  forall p skipping input errors r errors',
    f p skipping input errors = (r, errors') -> r <> OutOfFuel ->
    g p skipping input errors = (r, errors').

Ltac extend_cases f Hfg :=
  repeat match goal with
  | H : context [f ?p ?s ?i ?e] |- _ =>
      let E := fresh "E" in
      destruct (f p s i e) as [[?| | |] ?] eqn:E;
      [ rewrite (Hfg _ _ _ _ _ _ E ltac:(discriminate))
      | rewrite (Hfg _ _ _ _ _ _ E ltac:(discriminate))
      | rewrite (Hfg _ _ _ _ _ _ E ltac:(discriminate))
      | exfalso; injection H as <- _; congruence ]
  end.

Lemma eval_step_extends f g : extends f g -> extends (eval_step f) (eval_step g).
Proof.
  intros Hfg p s i e r e' H Hr.
  destruct p; unfold eval_step in *; destruct s;
    extend_cases f Hfg; try exact H;
    try (destruct (has_on_error _); exact H);
    try (apply Hfg; [exact H|exact Hr]).
Qed.

Lemma eval_fuel_S (fuel : nat) : extends (eval fuel) (eval (S fuel)).
Proof.
  induction fuel as [|f IH].
  - intros p s i e r e' H Hr. simpl in H. injection H as <- _. congruence.
  - change (extends (eval_step (eval f)) (eval_step (eval (S f)))).
    apply eval_step_extends, IH.
Qed.

(** A parse that has come to a result comes to the same result with any
    larger fuel. *)
Lemma eval_fuel_le (fuel fuel' : nat) :
  fuel <= fuel' -> extends (eval fuel) (eval fuel').
Proof.
  intros Hle. induction Hle as [|m _ IH].
  - intros p s i e r e' H _. exact H.
  - intros p s i e r e' H Hr. apply eval_fuel_S; [|exact Hr].
    apply IH; assumption.
Qed.

(** *** Termination *)

Lemma match_prefix_length (s input rest : list ascii) :
  match_prefix s input = Some rest -> length input = length s + length rest.
Proof.
  revert input. induction s as [|c s IH]; intros [|d input] H; simpl in *;
    try discriminate.
  - injection H as <-. reflexivity.
  - injection H as <-. reflexivity.
  - destruct (Ascii.eqb c d); [|discriminate]. rewrite (IH _ H). reflexivity.
Qed.

Lemma match_symbols_prefix (names : list string) (input rest : list ascii) :
  match_symbols names input = Some rest ->
  exists name, In name names
    /\ match_prefix (list_ascii_of_string name) input = Some rest.
Proof.
  unfold match_symbols.
  assert (H : forall best,
    (forall r, best = Some r -> exists name, In name names
        /\ match_prefix (list_ascii_of_string name) input = Some r) ->
    forall l, (forall n, In n l -> In n names) ->
    fold_left
      (fun best name =>
         match match_prefix (list_ascii_of_string name) input, best with
         | Some rest, Some rest' =>
             if length rest <? length rest' then Some rest else best
         | Some rest, None => Some rest
         | None, _ => best
         end) l best = Some rest ->
    exists name, In name names
      /\ match_prefix (list_ascii_of_string name) input = Some rest).
  { intros best Hbest l. revert best Hbest.
    induction l as [|n l IH]; intros best Hbest Hl Hfold; simpl in Hfold.
    - apply Hbest, Hfold.
    - eapply IH; [|intros; apply Hl; right; assumption|exact Hfold].
      intros r Hr.
      destruct (match_prefix (list_ascii_of_string n) input) as [rn|] eqn:Hn.
      + destruct best as [rb|].
        * destruct (length rn <? length rb).
          -- injection Hr as <-. exists n. split; [apply Hl; left; reflexivity|exact Hn].
          -- apply Hbest, Hr.
        * injection Hr as <-. exists n. split; [apply Hl; left; reflexivity|exact Hn].
      + apply Hbest, Hr. }
  apply (H None); [intros r Hr; discriminate|auto].
Qed.

Lemma digits_length (input : list ascii) : forall acc n rest,
  digits input acc = (n, rest) -> length rest <= length input.
Proof.
  induction input as [|c input IH]; intros acc n rest H; simpl in H.
  - injection H as _ <-. reflexivity.
  - destruct (is_digit c).
    + apply IH in H. simpl. lia.
    + injection H as _ <-. reflexivity.
Qed.

Lemma match_int_length (input rest : list ascii) :
  match_int input = Some rest -> length rest < length input.
Proof.
  unfold match_int.
  assert (Hd : forall i r, 
    match i with
    | c :: _ => if is_digit c then
        let '(n, rest) := digits i 0%Z in Some rest else None
    | [] => None
    end = Some r -> length r < length i).
  { intros [|c i] r H; [discriminate|].
    destruct (is_digit c) eqn:Hc; [|discriminate].
    simpl in H. rewrite Hc in H.
    destruct (digits i _) as [n rest'] eqn:Hdig. injection H as <-.
    apply digits_length in Hdig. simpl. lia. }
  set (sign := match input with
    | "-"%char :: input' => (true, input')
    | "+"%char :: input' => (false, input')
    | _ => (false, input)
    end).
  assert (Hs : length (snd sign) <= length input).
  { subst sign. destruct input as [|c i]; simpl; [lia|].
    destruct c as [[] [] [] [] [] [] [] []]; simpl; lia. }
  destruct sign as [negative after_sign]. simpl in Hs.
  intros H.
  assert (H' : match after_sign with
    | c :: _ => if is_digit c then
        let '(n, rest) := digits after_sign 0%Z in Some rest else None
    | [] => None
    end = Some rest).
  { destruct after_sign as [|c i]; [discriminate|].
    destruct (is_digit c); [|discriminate].
    destruct (digits (c :: i) 0%Z) as [n r].
    destruct ((_ <=? _)%Z && _); [exact H|discriminate]. }
  apply Hd in H'. lia.
Qed.

(** The rules that match the empty input. *)
Definition rule_nullable (r : RuleId) : bool :=
  match r with
  | argument_list | parameter_list | program => true
  | _ => false
  end.

(** The parsers that may match without consuming anything. *)
Fixpoint nullable (p : Parser) : bool :=
  match p with
  | lit s => match s with EmptyString => true | _ => false end
  | char_set _ | char_ | alpha | alnum | space | eol | int_ => false
  | eoi => true
  | symbols names => existsb (String.eqb "") names
  | seq a b | expect a b => nullable a && nullable b
  | alt a b => nullable a || nullable b
  | kleene _ | optional _ => true
  | difference a _ => nullable a
  | lexeme a | raw a => nullable a
  | rule r => rule_nullable r
  end.

Lemma rule_nullable_body (r : RuleId) :
  rule_nullable r = false -> nullable (body r) = false.
Proof. destruct r; simpl; intros H; try discriminate; reflexivity. Qed.

Lemma match_symbols_length (names : list string) (input rest : list ascii) :
  match_symbols names input = Some rest ->
  length rest <= length input
  /\ (existsb (String.eqb "") names = false -> length rest < length input).
Proof.
  intros H. apply match_symbols_prefix in H as (name & Hin & Hp).
  apply match_prefix_length in Hp. split; [lia|].
  intros Hn. destruct name as [|c name].
  - exfalso. apply not_true_iff_false in Hn. apply Hn.
    apply existsb_exists. exists ""%string. split; [exact Hin|reflexivity].
  - simpl in Hp. lia.
Qed.

Ltac consume_cases f IH :=
  repeat match goal with
  | H : context [eval f ?p ?s ?i ?e] |- _ =>
      let E := fresh "E" in
      destruct (eval f p s i e) as [[?| | |] ?] eqn:E;
      first [apply IH in E; simpl in E; destruct E as [? ?] | clear E]
  end.

Lemma one_length (test : ascii -> bool) (i rest : list ascii) :
  match i with
  | c :: i' => if test c then Some i' else None
  | [] => None
  end = Some rest -> length rest < length i.
Proof.
  destruct i as [|c i']; [discriminate|].
  destruct (test c); [|discriminate]. intros [= <-]. simpl. lia.
Qed.

Lemma eol_length (i rest : list ascii) :
  match i with
  | "013"%char :: "010"%char :: i' => Some i'
  | "013"%char :: i' => Some i'
  | "010"%char :: i' => Some i'
  | _ => None
  end = Some rest -> length rest < length i.
Proof.
  intros H.
  repeat match type of H with
  | match ?x with _ => _ end = _ => destruct x; try discriminate
  | (if ?x then _ else _) = _ => destruct x; try discriminate
  end; injection H as <-; simpl; lia.
Qed.

Lemma of_option_Match (o : option (list ascii)) (rest : list ascii)
    (e e' : nat) :
  (of_option o, e) = (Match rest, e') -> o = Some rest.
Proof. destruct o; simpl; intros [= <- _]; reflexivity || discriminate. Qed.

(** A match leaves a suffix of the input no longer than the input, and a
    shorter one when the parser is not nullable. *)
Lemma eval_consumes (fuel : nat) :
  forall p skipping input errors rest errors',
    eval fuel p skipping input errors = (Match rest, errors') ->
    length rest <= length input
    /\ (nullable p = false -> length rest < length input).
Proof.
  induction fuel as [|f IH]; intros p s i e rest e' H; [discriminate|].
  destruct p; simpl in H; unfold eval_step in H.
  all: destruct s; consume_cases f IH; try discriminate.
  all: try (destruct (has_on_error r); discriminate).
  all: try (apply of_option_Match in H).
  all: try (apply one_length in H).
  all: try (apply (one_length (fun _ => true)) in H).
  all: try (destruct rest0; [injection H as <-|discriminate]).
  all: try (destruct i; [injection H as <-|discriminate]).
  all: try (apply eol_length in H).
  all: try (apply match_int_length in H).
  all: try (apply match_symbols_length in H; destruct H).
  all: try (apply match_prefix_length in H).
  all: try (injection H as <- <-).
  all: split.
  all: try lia.
  all: simpl; intros Hn.
  all: try (apply rule_nullable_body in Hn).
  all: try (destruct s0; [discriminate|simpl in H]).
  all: try (destruct (nullable p1)).
  all: try (destruct (nullable p2)).
  all: try discriminate.
  all: repeat match goal with
       | H : ?b = false -> _ |- _ =>
           first [specialize (H eq_refl) | specialize (H Hn) | clear H]
       end.
  all: lia.
Qed.

(** The parse of [p] comes to a result, given fuel enough. *)
Definition Terminates (p : Parser) (skipping : bool) (input : list ascii)
    (errors : nat) : Prop :=
  exists fuel r errors',
    eval fuel p skipping input errors = (r, errors') /\ r <> OutOfFuel.

Lemma eval_S (fuel : nat) (p : Parser) (s : bool) (i : list ascii) (e : nat) :
  eval (S fuel) p s i e = eval_step (eval fuel) p s i e.
Proof. reflexivity. Qed.

Lemma of_option_not_OutOfFuel (o : option (list ascii)) :
  of_option o <> OutOfFuel.
Proof. destruct o; discriminate. Qed.

Lemma eval_lift (fuel fuel' : nat) (p : Parser) (s : bool) (i : list ascii)
    (e : nat) (r : Result) (e' : nat) :
  eval fuel p s i e = (r, e') -> r <> OutOfFuel -> fuel <= fuel' ->
  eval fuel' p s i e = (r, e').
Proof. intros H Hr Hle. exact (eval_fuel_le _ _ Hle _ _ _ _ _ _ H Hr). Qed.

Ltac lift_eval E fuel' :=
  rewrite (eval_lift _ fuel' _ _ _ _ _ _ E); [|discriminate|lia].

Ltac finish_terminates :=
  eexists; eexists; split;
  [reflexivity
  |first [discriminate | apply of_option_not_OutOfFuel | assumption]].

(** The parsers that call no other parser than the skipper. *)
Definition primitive (p : Parser) : bool :=
  match p with
  | lit _ | char_set _ | char_ | alpha | alnum | space | eol | eoi | int_
  | symbols _ => true
  | _ => false
  end.

Lemma primitive_terminates (p : Parser) (s : bool) (i : list ascii)
    (e : nat) :
  primitive p = true ->
  (s = true -> Terminates (kleene (rule skipper)) false i e) ->
  Terminates p s i e.
Proof.
  intros Hp Hskip. destruct p; try discriminate Hp.
  all: destruct s;
    [destruct (Hskip eq_refl) as (f0 & r0 & e0 & E0 & H0);
     exists (S f0); rewrite eval_S; unfold eval_step; rewrite E0;
     destruct r0; first [contradiction | finish_terminates]
    |exists 1; rewrite eval_S; unfold eval_step; finish_terminates].
Qed.

Lemma seq_terminates (a b : Parser) (s : bool) (i : list ascii) (e : nat) :
  Terminates a s i e ->
  (forall fuel rest e1,
     eval fuel a s i e = (Match rest, e1) -> Terminates b s rest e1) ->
  Terminates (seq a b) s i e.
Proof.
  intros (f1 & r1 & e1 & E1 & H1) Hb. destruct r1 as [rest| | |].
  - destruct (Hb _ _ _ E1) as (f2 & r2 & e2 & E2 & H2).
    exists (S (Nat.max f1 f2)), r2, e2. rewrite eval_S. unfold eval_step.
    lift_eval E1 (Nat.max f1 f2).
    split; [|exact H2].
    apply (eval_lift _ _ _ _ _ _ _ _ E2 H2). lia.
  - exists (S f1). rewrite eval_S. unfold eval_step. rewrite E1.
    finish_terminates.
  - exists (S f1). rewrite eval_S. unfold eval_step. rewrite E1.
    finish_terminates.
  - contradiction.
Qed.

Lemma expect_terminates (a b : Parser) (s : bool) (i : list ascii)
    (e : nat) :
  Terminates a s i e ->
  (forall fuel rest e1,
     eval fuel a s i e = (Match rest, e1) -> Terminates b s rest e1) ->
  Terminates (expect a b) s i e.
Proof.
  intros (f1 & r1 & e1 & E1 & H1) Hb. destruct r1 as [rest| | |].
  - destruct (Hb _ _ _ E1) as (f2 & r2 & e2 & E2 & H2).
    exists (S (Nat.max f1 f2)). rewrite eval_S. unfold eval_step.
    lift_eval E1 (Nat.max f1 f2).
    rewrite (eval_lift _ (Nat.max f1 f2) _ _ _ _ _ _ E2 H2); [|lia].
    destruct r2; finish_terminates.
  - exists (S f1). rewrite eval_S. unfold eval_step. rewrite E1.
    finish_terminates.
  - exists (S f1). rewrite eval_S. unfold eval_step. rewrite E1.
    finish_terminates.
  - contradiction.
Qed.

Lemma alt_terminates (a b : Parser) (s : bool) (i : list ascii) (e : nat) :
  Terminates a s i e ->
  (forall e1, Terminates b s i e1) ->
  Terminates (alt a b) s i e.
Proof.
  intros (f1 & r1 & e1 & E1 & H1) Hb. destruct r1 as [rest| | |].
  - exists (S f1). rewrite eval_S. unfold eval_step. rewrite E1.
    finish_terminates.
  - destruct (Hb e1) as (f2 & r2 & e2 & E2 & H2).
    exists (S (Nat.max f1 f2)), r2, e2. rewrite eval_S. unfold eval_step.
    lift_eval E1 (Nat.max f1 f2).
    split; [|exact H2].
    apply (eval_lift _ _ _ _ _ _ _ _ E2 H2). lia.
  - exists (S f1). rewrite eval_S. unfold eval_step. rewrite E1.
    finish_terminates.
  - contradiction.
Qed.

Lemma kleene_terminates (a : Parser) (s : bool) (i : list ascii) (e : nat) :
  Terminates a s i e ->
  (forall fuel rest e1,
     eval fuel a s i e = (Match rest, e1) ->
     Terminates (kleene a) s rest e1) ->
  Terminates (kleene a) s i e.
Proof.
  intros (f1 & r1 & e1 & E1 & H1) Hb. destruct r1 as [rest| | |].
  - destruct (Hb _ _ _ E1) as (f2 & r2 & e2 & E2 & H2).
    exists (S (Nat.max f1 f2)), r2, e2. rewrite eval_S. unfold eval_step.
    lift_eval E1 (Nat.max f1 f2).
    split; [|exact H2].
    apply (eval_lift _ _ _ _ _ _ _ _ E2 H2). lia.
  - exists (S f1). rewrite eval_S. unfold eval_step. rewrite E1.
    finish_terminates.
  - exists (S f1). rewrite eval_S. unfold eval_step. rewrite E1.
    finish_terminates.
  - contradiction.
Qed.

Lemma optional_terminates (a : Parser) (s : bool) (i : list ascii)
    (e : nat) :
  Terminates a s i e -> Terminates (optional a) s i e.
Proof.
  intros (f1 & r1 & e1 & E1 & H1).
  exists (S f1). rewrite eval_S. unfold eval_step. rewrite E1.
  destruct r1; finish_terminates.
Qed.

Lemma difference_terminates (a b : Parser) (s : bool) (i : list ascii)
    (e : nat) :
  Terminates b s i e ->
  (forall e1, Terminates a s i e1) ->
  Terminates (difference a b) s i e.
Proof.
  intros (f1 & r1 & e1 & E1 & H1) Ha. destruct r1 as [rest| | |].
  - exists (S f1). rewrite eval_S. unfold eval_step. rewrite E1.
    finish_terminates.
  - destruct (Ha e1) as (f2 & r2 & e2 & E2 & H2).
    exists (S (Nat.max f1 f2)), r2, e2. rewrite eval_S. unfold eval_step.
    lift_eval E1 (Nat.max f1 f2).
    split; [|exact H2].
    apply (eval_lift _ _ _ _ _ _ _ _ E2 H2). lia.
  - exists (S f1). rewrite eval_S. unfold eval_step. rewrite E1.
    finish_terminates.
  - contradiction.
Qed.

(** [lexeme] and [raw]: the skip, then the parser inside, the skipper in
    force for it or not. *)
Lemma skipped_terminates (p a : Parser) (s s' : bool) (i : list ascii)
    (e : nat) :
  (forall fuel, eval (S fuel) p s i e =
     if s then
       match eval fuel (kleene (rule skipper)) false i e with
       | (Match rest, e0) => eval fuel a s' rest e0
       | other => other
       end
     else eval fuel a s' i e) ->
  (s = true -> Terminates (kleene (rule skipper)) false i e) ->
  (forall rest e0,
     length rest <= length i -> Terminates a s' rest e0) ->
  Terminates p s i e.
Proof.
  intros Hstep Hskip Ha. destruct s.
  - destruct (Hskip eq_refl) as (f0 & r0 & e0 & E0 & H0).
    destruct r0 as [rest| | |].
    + destruct (eval_consumes _ _ _ _ _ _ _ E0) as [Hle _].
      destruct (Ha rest e0 Hle) as (f2 & r2 & e2 & E2 & H2).
      exists (S (Nat.max f0 f2)), r2, e2. rewrite Hstep.
      lift_eval E0 (Nat.max f0 f2).
      split; [|exact H2].
      apply (eval_lift _ _ _ _ _ _ _ _ E2 H2). lia.
    + exists (S f0). rewrite Hstep, E0. finish_terminates.
    + exists (S f0). rewrite Hstep, E0. finish_terminates.
    + contradiction.
  - destruct (Ha i e (le_n _)) as (f2 & r2 & e2 & E2 & H2).
    exists (S f2), r2, e2. rewrite Hstep. split; assumption.
Qed.

Lemma rule_terminates (r : RuleId) (s : bool) (i : list ascii) (e : nat) :
  Terminates (body r) s i e -> Terminates (rule r) s i e.
Proof.
  intros (f1 & r1 & e1 & E1 & H1).
  exists (S f1). rewrite eval_S. unfold eval_step. rewrite E1.
  destruct r1; try finish_terminates.
  destruct (has_on_error r); finish_terminates.
Qed.

(** The rank of a rule: the rules a rule calls before any input is
    consumed have a smaller rank, so the grammar has no left recursion. *)
Definition rank (r : RuleId) : nat :=
  match r with
  | identifier | keyword | data_type | integer
  | assignment_operator | equality_operator | relational_operator
  | additive_operator | multitive_operator | unary_operator => 0
  | single_line_comment | block_comment => 0
  | comment => 1
  | skipper => 2
  | primary => 1
  | unary => 2
  | multiplication => 3
  | addition => 4
  | relational => 5
  | equality => 6
  | assignment => 7
  | expression => 8
  | argument_list | expression_statement => 9
  | return_statement | variable_def_statement | if_statement
  | for_statement | compound_statement => 0
  | statement => 10
  | compound_statement_or_statement => 11
  | parameter_list | function_proto => 1
  | function_declare | function_define => 0
  | top_level_stmt => 1
  | program => 2
  end.

Definition rank_bound : nat := 12.

(** [well_formed k p]: the rules [p] calls before any input is consumed
    have a rank below [k], and no [*a] inside [p] has a nullable [a]. *)
Fixpoint well_formed (k : nat) (p : Parser) : bool :=
  match p with
  | seq a b | expect a b =>
      well_formed k a && well_formed (if nullable a then k else rank_bound) b
  | alt a b | difference a b => well_formed k a && well_formed k b
  | kleene a => negb (nullable a) && well_formed k a
  | optional a | lexeme a | raw a => well_formed k a
  | rule r => rank r <? k
  | _ => true
  end.

Lemma grammar_well_formed (r : RuleId) :
  well_formed (rank r) (body r) = true.
Proof. destruct r; vm_compute; reflexivity. Qed.

Lemma rank_lt_bound (r : RuleId) : rank r < rank_bound.
Proof. destruct r; unfold rank_bound; simpl; lia. Qed.

Lemma well_formed_mono (p : Parser) :
  forall k k', k <= k' ->
    well_formed k p = true -> well_formed k' p = true.
Proof.
  induction p; intros k k' Hle H; simpl in *; try reflexivity;
    repeat match goal with
    | H : _ && _ = true |- _ => apply andb_true_iff in H as [? ?]
    | |- _ && _ = true => apply andb_true_iff; split
    end; eauto.
  - destruct (nullable p1); eauto.
  - destruct (nullable p1); eauto.
  - apply Nat.ltb_lt in H. apply Nat.ltb_lt. lia.
Qed.

Section Termination.

(** Whether the skipper may be in force, and then the skip terminates. *)
Variable may_skip : bool.
Hypothesis skip_terminates :
  may_skip = true ->
  forall input errors, Terminates (kleene (rule skipper)) false input errors.

Lemma eval_terminates_below (n : nat) :
  forall k, k <= rank_bound ->
  forall p, well_formed k p = true ->
  forall input, length input < n ->
  forall skipping errors,
    (skipping = true -> may_skip = true) ->
    Terminates p skipping input errors.
Proof.
  induction n as [|n IHn]; [intros; lia|].
  intros k. induction k as [k IHk] using lt_wf_ind. intros Hk p.
  induction p; intros Hwf input Hlen sk e Hs; simpl in Hwf;
    repeat match goal with
    | H : _ && _ = true |- _ => apply andb_true_iff in H as [? ?]
    end.
  all: try (apply primitive_terminates; [reflexivity|];
            intros ->; apply skip_terminates; apply Hs; reflexivity).
  - (* seq *)
    apply seq_terminates; [apply IHp1; assumption|].
    intros fuel rest e1 E. apply eval_consumes in E as [Hle Hlt].
    destruct (nullable p1).
    + apply IHp2; [assumption|lia|assumption].
    + apply (IHn rank_bound); [lia|assumption| |assumption].
      specialize (Hlt eq_refl). lia.
  - (* expect *)
    apply expect_terminates; [apply IHp1; assumption|].
    intros fuel rest e1 E. apply eval_consumes in E as [Hle Hlt].
    destruct (nullable p1).
    + apply IHp2; [assumption|lia|assumption].
    + apply (IHn rank_bound); [lia|assumption| |assumption].
      specialize (Hlt eq_refl). lia.
  - (* alt *)
    apply alt_terminates; [apply IHp1; assumption|].
    intros e1. apply IHp2; assumption.
  - (* kleene *)
    apply kleene_terminates; [apply IHp; assumption|].
    intros fuel rest e1 E. apply eval_consumes in E as [Hle Hlt].
    apply negb_true_iff in H. specialize (Hlt H).
    apply (IHn rank_bound); [lia| |lia|assumption].
    simpl. rewrite H. simpl. exact (well_formed_mono _ _ _ Hk H0).
  - (* optional *)
    apply optional_terminates. apply IHp; assumption.
  - (* difference *)
    apply difference_terminates; [apply IHp2; assumption|].
    intros e1. apply IHp1; assumption.
  - (* lexeme *)
    eapply skipped_terminates with (a := p) (s' := false).
    + intros fuel. rewrite eval_S. unfold eval_step.
      destruct sk; reflexivity.
    + intros ->. apply skip_terminates. apply Hs. reflexivity.
    + intros rest e0 Hle. apply IHp; [assumption|lia|discriminate].
  - (* raw *)
    eapply skipped_terminates with (a := p) (s' := sk).
    + intros fuel. rewrite eval_S. unfold eval_step.
      destruct sk; reflexivity.
    + intros ->. apply skip_terminates. apply Hs. reflexivity.
    + intros rest e0 Hle. apply IHp; [assumption|lia|assumption].
  - (* rule *)
    apply rule_terminates. apply Nat.ltb_lt in Hwf.
    apply (IHk (rank r) Hwf); [lia|apply grammar_well_formed|assumption
                              |assumption].
Qed.

End Termination.

(** The skip terminates. *)
Lemma skipper_terminates (input : list ascii) (errors : nat) :
  Terminates (kleene (rule skipper)) false input errors.
Proof.
  apply (eval_terminates_below false ltac:(discriminate)
           (S (length input)) rank_bound (le_n _));
    [reflexivity|lia|discriminate].
Qed.

(** Every parse of a rule comes to a result: the fuel of [eval] only
    bounds the depth of the calls. *)
Lemma eval_terminates (r : RuleId) (skipping : bool) (input : list ascii)
    (errors : nat) :
  Terminates (rule r) skipping input errors.
Proof.
  apply (eval_terminates_below true (fun _ => skipper_terminates)
           (S (length input)) rank_bound (le_n _));
    [|lia|reflexivity].
  simpl. apply Nat.ltb_lt. apply rank_lt_bound.
Qed.

(** *** [parser::parse] *)

Lemma phrase_parse_program (fuel : nat) (input : list ascii) (errors : nat) :
  forall r errors',
    phrase_parse fuel (rule program) input errors = (r, errors') ->
    (r = Match [] /\ errors <= errors'
     /\ eval fuel (rule program) true input errors = (Match [], errors'))
    \/ (r = NoMatch /\ errors < errors'
        /\ eval fuel (rule program) true input errors = (NoMatch, errors'))
    \/ r = OutOfFuel.
Proof.
  intros r e' H. unfold phrase_parse in H.
  destruct (eval fuel (rule program) true input errors) as [r0 e0] eqn:E.
  destruct (eval_program _ _ _ _ _ E) as [[-> He]|[[-> He]| ->]].
  - destruct (eval_skip_at_end fuel e0) as [Hs|Hs]; rewrite Hs in H;
      injection H as <- <-; auto.
  - injection H as <- <-. auto.
  - injection H as <- _. auto.
Qed.

(** What [parse] has done when it has come to an end within [fuel]. *)
Lemma parse_outcome_within (fuel : nat) (input : string)
    (total_errors : nat) :
  let '(outcome, total_errors') := parse fuel input total_errors in
  total_errors <= total_errors'
  /\ match outcome with
     | Accepted =>
         eval fuel (rule program) true (list_ascii_of_string input)
              total_errors = (Match [], total_errors')
     | RuntimeError errors_generated =>
         errors_generated = total_errors' /\ total_errors < total_errors'
         /\ eval fuel (rule program) true (list_ascii_of_string input)
                 total_errors = (NoMatch, total_errors')
     | UncaughtExpectationFailure => False
     | Unfinished => True
     end.
Proof.
  unfold parse.
  destruct (phrase_parse fuel (rule program) (list_ascii_of_string input)
                         total_errors) as [r e'] eqn:E.
  destruct (phrase_parse_program _ _ _ _ _ E)
    as [(-> & He & Hp)|[(-> & He & Hp)| ->]].
  - split; [exact He|exact Hp].
  - split; [lia|split; [reflexivity|split; [exact He|exact Hp]]].
  - split; [|exact I].
    unfold phrase_parse in E.
    destruct (eval fuel (rule program) true (list_ascii_of_string input)
                   total_errors) as [[rest| | |] e0] eqn:E0;
      pose proof (eval_errors_mono _ _ _ _ _ _ _ E0) as H0.
    + pose proof (eval_errors_mono _ _ _ _ _ _ _ E). lia.
    + discriminate.
    + discriminate.
    + injection E as <-. exact H0.
Qed.

(** The outcome of a parse that has come to an end does not depend on the
    fuel. *)
Lemma parse_fuel (fuel fuel' : nat) (input : string) (total_errors : nat) :
  fuel <= fuel' ->
  fst (parse fuel input total_errors) <> Unfinished ->
  parse fuel' input total_errors = parse fuel input total_errors.
Proof.
  intros Hle. unfold parse, phrase_parse.
  destruct (eval fuel (rule program) true (list_ascii_of_string input)
                 total_errors) as [r e] eqn:E.
  destruct r as [rest| | |].
  - rewrite (eval_fuel_le _ _ Hle _ _ _ _ _ _ E ltac:(discriminate)).
    destruct (eval fuel (kleene (rule skipper)) false rest e)
      as [r2 e2] eqn:E2.
    destruct r2 as [rest2| | |]; intros Hr;
      try (rewrite (eval_fuel_le _ _ Hle _ _ _ _ _ _ E2 ltac:(discriminate));
           reflexivity).
    exfalso. apply Hr. reflexivity.
  - rewrite (eval_fuel_le _ _ Hle _ _ _ _ _ _ E ltac:(discriminate)).
    reflexivity.
  - rewrite (eval_fuel_le _ _ Hle _ _ _ _ _ _ E ltac:(discriminate)).
    reflexivity.
  - intros Hr. exfalso. apply Hr. reflexivity.
Qed.

(** [parser::parse] comes to an end on every input. *)
Lemma parse_terminates (input : string) (total_errors : nat) :
  exists fuel, fst (parse fuel input total_errors) <> Unfinished.
Proof.
  destruct (eval_terminates program true (list_ascii_of_string input)
              total_errors) as (f1 & r & e1 & E1 & H1).
  destruct r as [rest| | |].
  - destruct (skipper_terminates rest e1) as (f2 & r2 & e2 & E2 & H2).
    exists (Nat.max f1 f2). unfold parse, phrase_parse.
    lift_eval E1 (Nat.max f1 f2).
    rewrite (eval_lift _ (Nat.max f1 f2) _ _ _ _ _ _ E2 H2); [|lia].
    destruct r2 as [[|c rest2]| | |]; simpl; try discriminate.
    contradiction.
  - exists f1. unfold parse, phrase_parse. rewrite E1. discriminate.
  - exists f1. unfold parse, phrase_parse. rewrite E1. discriminate.
  - contradiction.
Qed.

(** C7 (as the code has it): [parse] comes to an end on every input, and
    it accepts exactly when the rule [program] matches, the rule then
    having consumed the entire input.  A parse that is rejected has counted
    at least one expectation failure, and the error it throws reports the
    static counter, which adds the failures of this parse to those of the
    parses before it; so a parse during which no expectation failure
    occurred is accepted.  No expectation failure leaves [parse]
    uncaught. *)
Theorem parse_outcome (input : string) (total_errors : nat) :
  exists fuel outcome total_errors',
    (forall fuel', fuel <= fuel' ->
       parse fuel' input total_errors = (outcome, total_errors'))
    /\ total_errors <= total_errors'
    /\ match outcome with
       | Accepted =>
           eval fuel (rule program) true (list_ascii_of_string input)
                total_errors = (Match [], total_errors')
       | RuntimeError errors_generated =>
           errors_generated = total_errors' /\ total_errors < total_errors'
           /\ eval fuel (rule program) true (list_ascii_of_string input)
                   total_errors = (NoMatch, total_errors')
       | UncaughtExpectationFailure | Unfinished => False
       end.
Proof.
  destruct (parse_terminates input total_errors) as [fuel Hfuel].
  pose proof (parse_outcome_within fuel input total_errors) as Hp.
  destruct (parse fuel input total_errors) as [outcome e'] eqn:E.
  exists fuel, outcome, e'. destruct Hp as [Hle Hm].
  split; [|split; [exact Hle|]].
  - intros fuel' Hfuel'. rewrite <- E. apply parse_fuel; [exact Hfuel'|].
    rewrite E. exact Hfuel.
  - destruct outcome; try exact Hm. apply Hfuel. reflexivity.
Qed.

(** C7 (counterexample to the claim as stated): in [func f(){ret;}] the
    rule [return_statement] matches [ret] and then fails to find the
    expression it expects; its handler counts the failure and the rule
    fails.  The next alternatives of [statement] are tried, and
    [expression_statement] reads [ret] as an identifier.  The parse is
    accepted, after one expectation failure. *)
Lemma parse_accepts_after_expectation_failure :
  eval 64 (rule return_statement) true (list_ascii_of_string "ret;}") 0
  = (NoMatch, 1)
  /\ parse 64 "func f(){ret;}" 0 = (Accepted, 1).
Proof. split; vm_compute; reflexivity. Qed.

(** *** Further properties of the parse *)

(** X13: the parse of every rule of the grammar comes to a result on
    every input, with the skipper in force or not: the grammar has no left
    recursion, and no [*a] whose [a] matches the empty input.  The result
    is the same for all fuel from some amount on, so that the fuel of
    [eval] bounds the depth of the calls and nothing else. *)
Theorem grammar_terminates (r : RuleId) (skipping : bool)
    (input : list ascii) (errors : nat) :
  exists fuel result errors',
    result <> OutOfFuel
    /\ forall fuel', fuel <= fuel' ->
         eval fuel' (rule r) skipping input errors = (result, errors').
Proof.
  destruct (eval_terminates r skipping input errors)
    as (fuel & result & errors' & E & Hr).
  exists fuel, result, errors'. split; [exact Hr|].
  intros fuel' Hle. exact (eval_lift _ _ _ _ _ _ _ _ E Hr Hle).
Qed.

Ltac shift_cases f IH d :=
  repeat match goal with
  | H : context [eval f ?p ?s ?i ?e] |- _ =>
      let E := fresh "E" in
      destruct (eval f p s i e) as [[?| | |] ?] eqn:E;
      rewrite (IH _ _ _ _ d _ _ E)
  end.

(** The counter of errors is carried through a parse: started [d] higher
    it ends [d] higher, with the same result. *)
Lemma eval_errors_shift (fuel : nat) :
  forall p skipping input errors d r errors',
    eval fuel p skipping input errors = (r, errors') ->
    eval fuel p skipping input (errors + d) = (r, errors' + d).
Proof.
  induction fuel as [|f IH]; intros p s i e d r e' H.
  - simpl in *. injection H as <- <-. reflexivity.
  - rewrite eval_S in *. destruct p; unfold eval_step in *; destruct s;
      shift_cases f IH d;
      try (injection H as <- <-; reflexivity);
      try (apply IH; exact H);
      try (destruct (has_on_error _); injection H as <- <-; reflexivity).
Qed.

(** What [parse] reports after [n] errors of earlier parses, given what
    it reports after none. *)
Definition after_errors (n : nat) (r : Outcome * nat) : Outcome * nat :=
  match r with
  | (RuntimeError k, e) => (RuntimeError (k + n), e + n)
  | (outcome, e) => (outcome, e + n)
  end.

(** X14: the counter of errors is static and [parse] never resets it.
    A parse that starts with the counter at [n], the errors of the parses
    before it, accepts or rejects as it does from zero, and the number its
    error reports is the number of its own errors plus [n]. *)
Theorem parse_total_errors_accumulate (fuel : nat) (input : string)
    (n : nat) :
  parse fuel input n = after_errors n (parse fuel input 0).
Proof.
  unfold parse, phrase_parse.
  destruct (eval fuel (rule program) true (list_ascii_of_string input) 0)
    as [r e] eqn:E.
  pose proof (eval_errors_shift _ _ _ _ _ n _ _ E) as E'. simpl in E'.
  rewrite E'.
  destruct r as [rest| | |]; try reflexivity.
  destruct (eval fuel (kleene (rule skipper)) false rest e) as [r2 e2] eqn:E2.
  rewrite (eval_errors_shift _ _ _ _ _ n _ _ E2).
  destruct r2 as [[|c rest2]| | |]; reflexivity.
Qed.

End Parse.

(* ===================================================================== *)
(** ** twinkle/codegen/stmt.cpp: statements and destruct blocks *)
(* ===================================================================== *)

Module Stmt.
Import LLVM.

(** The [CodegenError]s this file throws, and those of the functions it
    calls. *)
Inductive Error :=
  | IncompatibleResultType   (* "incompatible type for result type" *)
  | InferenceRequiresInitializer
      (* "type inference requires an initializer" *)
  | UnknownOperator (op : string)   (* "unknown operator '{}' detected" *)
  | ConditionNotBool   (* "condition type is incompatible with bool" *)
  | ReadOnlyVariable   (* "assignment of read-only variable" *)
  | IncompleteTypeVoid (* "variable has incomplete type 'void'" *)
  | InvalidInitializerType   (* "invalid initializer type" *)
  | Other (what : string).

Definition CG : Type -> Type := M Error.

Inductive VariableQual := no_qualifier | mutable_.

(** [struct StmtContext], in the order of its aggregate initialisation in
    the loops: [{destruct_bb, return_var, end_bb, break_bb, continue_bb}].
    The last two are null outside of a loop. *)
Record StmtContext := mkStmtContext {
  destruct_bb : nat;
  return_var : option LLVM.Value;
  end_bb : nat;
  break_bb : option nat;
  continue_bb : option nat
}.

Section Lowering.

(** What this file uses and the sources do not define: the expressions
    and their lowering, the types of the code generator with their
    queries, the arithmetic on values, and the lookup of functions. *)
Variable Expr : Type.
Variable Ty : Type.

(** [codegen::Value]: a back-end value (null when there is none), its
    type and whether it may be assigned to. *)
Record Value := mkValue {
  getValue : option LLVM.Value;
  getType : Ty;
  isMutable : bool
}.

(** [Value::getLLVMType]: the back-end type of the back-end value. *)
Definition getLLVMType (v : Value) : option LLVM.Type_ :=
  option_map LLVM.getType (getValue v).

(** [codegen::Variable], held by the symbol table through a shared
    pointer: the stack slot, the type and the mutability. *)
Record Variable_ := mkVariable {
  getAllocaInst : LLVM.Value;
  var_getType : Ty;
  var_isMutable : bool
}.

(** [SymbolTable], a [Table] over [std::unordered_map]. *)
Definition SymbolTable := gmap string Variable_.

(** The elements of a table as a range-based [for] meets them.
    [std::unordered_map] hands out its elements in an order the standard
    leaves to the implementation, and which depends on the buckets and on
    the insertions that filled the table.  The order is left open: an
    [Iteration] enumerates the entries of every table, each entry once,
    and nothing else is known of it.  In particular nothing relates the
    order of a table to the order in which its names were defined. *)
Record Iteration := mkIteration {
  iterate : SymbolTable -> list (string * Variable_);
  iterate_entries : forall t, iterate t ≡ₚ map_to_list t
}.

Variable iteration : Iteration.

Definition elements (t : SymbolTable) : list (string * Variable_) :=
  iterate iteration t.

Lemma elements_elem (t : SymbolTable) (k : string) (v : Variable_) :
  (k, v) ∈ elements t <-> t !! k = Some v.
Proof.
  unfold elements. rewrite (iterate_entries iteration t).
  apply elem_of_map_to_list.
Qed.

Lemma elements_NoDup (t : SymbolTable) : NoDup ((elements t).*1).
Proof.
  unfold elements. rewrite (iterate_entries iteration t).
  apply NoDup_fst_map_to_list.
Qed.

(** [mergeSymbolTables(a, b)]: a copy of [a] in which every element of
    [b] is inserted or assigned. *)
Definition mergeSymbolTables (a b : SymbolTable) : SymbolTable :=
  fold_left (fun merged_table r => <[r.1 := r.2]> merged_table)
            (elements b) a.

Lemma insert_all_lookup (l : list (string * Variable_)) :
  NoDup (l.*1) ->
  forall (a : SymbolTable) (k : string),
    (forall v, (k, v) ∈ l ->
       fold_left (fun m r => <[r.1 := r.2]> m) l a !! k = Some v)
    /\ (k ∉ l.*1 ->
        fold_left (fun m r => <[r.1 := r.2]> m) l a !! k = a !! k).
Proof.
  induction l as [|[k0 v0] l IH]; intros Hnd a k; simpl.
  - split; [intros v Hin; inversion Hin|reflexivity].
  - apply NoDup_cons in Hnd as [Hnotin Hnd].
    destruct (IH Hnd (<[k0 := v0]> a) k) as [IHin IHout].
    split.
    + intros v Hin. apply elem_of_cons in Hin as [Heq|Hin].
      * injection Heq as -> ->. rewrite (IHout Hnotin).
        apply lookup_insert_eq.
      * apply IHin, Hin.
    + intros Hk. apply not_elem_of_cons in Hk as [Hne Hk].
      rewrite (IHout Hk). apply lookup_insert_ne. congruence.
Qed.

(** The merged table answers with the element of [b] where [b] has one,
    and with that of [a] elsewhere: the inner scope shadows the outer. *)
Lemma mergeSymbolTables_lookup (a b : SymbolTable) (k : string) :
  mergeSymbolTables a b !! k
  = match b !! k with Some v => Some v | None => a !! k end.
Proof.
  unfold mergeSymbolTables.
  destruct (insert_all_lookup (elements b) (elements_NoDup b) a k)
    as [Hin Hout].
  destruct (b !! k) as [v|] eqn:Hb.
  - apply Hin, elements_elem, Hb.
  - apply Hout. intros Hk.
    apply list_elem_of_fmap in Hk as ([k' v] & Heq & Hin').
    simpl in Heq. subst k'.
    apply elements_elem in Hin'.
    pose proof (eq_trans (eq_sym Hb) Hin') as Habsurd. discriminate Habsurd.
Qed.

Variable createExpr : SymbolTable -> StmtContext -> Expr -> CG Value.
Variable createType : Ast.Type_ -> CG Ty.
Variable equals : Ty -> Ty -> bool.
Variable isVoidTy : Ty -> bool.
Variable isRefTy : Ty -> bool.
Variable isClassTy : Ty -> bool.
Variable getClassName : Ty -> string.
Variable Ty_getLLVMType : Ty -> LLVM.Type_.
Variable getPointeeType : Ty -> Ty.
Variable PointerType : Ty -> Ty.
Variable BuiltinType : Ast.BuiltinTypeKind -> Ty.
Variable createAdd createSub createMul createDiv createMod
  : Value -> Value -> CG Value.
Variable createDereference : Value -> CG Value.
(** The mutability of a [Value] built from a back-end value and a type
    alone. *)
Variable default_isMutable : bool.
Variable findFunction : Codegen.NamespaceStack -> string -> option Function.
Variable mangleDestructorCall : Codegen.NamespaceStack -> string -> string.

(** The part of [CGContext] this file reads: the namespace hierarchy and
    the return type registered for the function being lowered. *)
Variable ns_hierarchy : Codegen.NamespaceStack.
Variable return_type : option Ty.

(** Modelled from the spec: [createEntryAlloca] is declared in a header
    that is not among the sources.  A variable definition "allocates in
    the function entry block (hoisted alloca)": the slot is created at
    the beginning of the first block of the function, as
    [create_entry_block_alloca] of the earlier codegen.cxx does. *)
Definition createEntryAlloca (name : string) (type : LLVM.Type_)
  : CG LLVM.Value :=
  id ← lift fresh;
  let a := AllocaInst id name type in
  _ ← modify (fun b =>
         match layout b with
         | entry :: _ =>
             mkBuilder (<[entry := Yield a :: block_insts b entry]> (blocks b))
                       (layout b) (insert_block b)
                       (next_block b) (next_inst b)
         | [] => b
         end);
  mret a.

(** [ctx.builder.GetInsertBlock()->getTerminator()], as a test. *)
Definition hasTerminator : CG bool :=
  gets (fun b => match getTerminator b (insert_block b) with
                 | Some _ => true
                 | None => false
                 end).

(** *** Destructors *)

(** [findDestructor]: the class is pushed on the namespace hierarchy for
    the lookup and popped after it. *)
Definition findDestructor (class_name : string) : option Function :=
  let pushed :=
    Codegen.push ns_hierarchy
                 (Codegen.mkNamespace class_name Codegen.class_) in
  findFunction pushed (mangleDestructorCall pushed class_name).

(** [invokeDestructor(ctx, this_)] on a variable: nothing is done when
    the class has no destructor. *)
Definition invokeDestructor (this_ : Variable_) : CG unit :=
  match findDestructor (getClassName (var_getType this_)) with
  | Some destructor =>
      _ ← CreateCall destructor [getAllocaInst this_]; mret tt
  | None => mret tt
  end.

(** [createDestructBB(ctx, stmt_ctx, symbols, return_)]. *)
Definition createDestructBB (stmt_ctx : StmtContext)
    (symbols : SymbolTable) (return_ : bool) : CG unit :=
  _ ← modify (push_back (destruct_bb stmt_ctx));
  _ ← modify (SetInsertPoint (destruct_bb stmt_ctx));
  _ ← (fix each (l : list (string * Variable_)) : CG unit :=
         match l with
         | [] => mret tt
         | symbol :: l' =>
             _ ← (if isClassTy (var_getType symbol.2)
                  then invokeDestructor symbol.2 else mret tt);
             each l'
         end) (elements symbols);
  if return_ then CreateBr (end_bb stmt_ctx) else mret tt.

(** *** Statements *)

(** [ast::Stmt] as the visitor reads it: one constructor for each
    [operator()] of [StmtVisitor].  The initialisation and the step of a
    [for] are the statements their variants allow. *)
#[warnings="-register-all"]
Inductive Stmt :=
  | Blank
  | CompoundStatement (statements : list Stmt)
  | ExprStmt (node : Expr)
  | Return (rhs : option Expr)
  | VariableDef (qualifier : option VariableQual) (name : string)
                (type : option Ast.Type_) (initializer : option Expr)
  | Assignment (lhs : Expr) (op : string) (rhs : Expr)
  | ClassMemberInit (lhs : Expr) (op : string) (rhs : Expr)
  | PrefixIncrementDecrement (op : string) (operand : Expr)
  | If (condition : Expr) (then_statement : Stmt)
       (else_statement : option Stmt)
  | Loop (body : Stmt)
  | While (cond_expr : Expr) (body : Stmt)
  | For (init_stmt : option Stmt) (cond_expr : option Expr)
        (loop_stmt : option Stmt) (body : Stmt)
  | Break
  | Continue.

(** [CreateStore] on two values of the front end. *)
Definition store (v ptr : option LLVM.Value) : CG unit :=
  match v, ptr with
  | Some v, Some ptr => CreateStore v ptr
  | _, _ => undefined
  end.

(** The loop conditions compare with [ConstantInt::get] of the back-end
    type of [bool], at zero. *)
Definition bool_zero : CG LLVM.Value :=
  match Ty_getLLVMType (BuiltinType Ast.bool_) with
  | IntegerTy bits => mret (ConstantInt_get bits 0)
  | _ => undefined
  end.

Definition verifyVariableType (type : Ty) : CG unit :=
  if isVoidTy type then throw IncompleteTypeVoid else mret tt.

Section Visitor.
(** The members of [StmtVisitor]: [parent_scope], [scope] (a reference,
    which the definition of a variable changes: the visitor returns the
    scope it leaves) and [stmt_ctx]. *)
Variable parent_scope : SymbolTable.
Variable scope : SymbolTable.
Variable stmt_ctx : StmtContext.

Definition getAllSymbols : SymbolTable :=
  mergeSymbolTables parent_scope scope.

Definition createAssignableValue (node : Expr) (const_check : bool)
  : CG Value :=
  value ← createExpr getAllSymbols stmt_ctx node;
  if const_check && negb (isMutable value) then throw ReadOnlyVariable
  else if isRefTy (getType value) then mret value
  else match getValue value with
       | Some v =>
           mret (mkValue (getPointerOperand v)
                         (PointerType (getType value))
                         (isMutable value))
       | None => undefined
       end.

Definition createAssignment (lhs_node : Expr) (op : string)
    (rhs_node : Expr) (const_check : bool) : CG unit :=
  lhs ← createAssignableValue lhs_node const_check;
  rhs ← createExpr getAllSymbols stmt_ctx rhs_node;
  _ ← verifyVariableType (getType rhs);
  match getValue lhs with
  | Some lhs_ptr =>
      match LLVM.getType lhs_ptr with
      | PointerTy elem =>
          l ← CreateLoad elem lhs_ptr;
          let lhs_value :=
            mkValue (Some l) (getPointeeType (getType lhs))
                    default_isMutable in
          let compound (create : Value -> Value -> CG Value) :=
            r ← create lhs_value rhs; store (getValue r) (getValue lhs) in
          if String.eqb op "=" then store (getValue rhs) (getValue lhs)
          else if String.eqb op "+=" then compound createAdd
          else if String.eqb op "-=" then compound createSub
          else if String.eqb op "*=" then compound createMul
          else if String.eqb op "/=" then compound createDiv
          else if String.eqb op "%=" then compound createMod
          else throw (UnknownOperator op)
      | _ => undefined
      end
  | None => undefined
  end.

Definition createAllocaVariable (name : string) (type : Ty)
    (initializer : option Expr) (is_mutable : bool) : CG Variable_ :=
  _ ← verifyVariableType type;
  alloca ← createEntryAlloca name (Ty_getLLVMType type);
  match initializer with
  | None => mret (mkVariable alloca type is_mutable)
  | Some init =>
      init_value ← createExpr getAllSymbols stmt_ctx init;
      if negb (equals type (getType init_value))
      then throw InvalidInitializerType
      else
        _ ← store (getValue init_value) (Some alloca);
        mret (mkVariable alloca type is_mutable)
  end.

Definition createAllocaVariableTyInference (name : string)
    (initializer : option Expr) (is_mutable : bool) : CG Variable_ :=
  match initializer with
  | None => undefined
  | Some init =>
      init_value ← createExpr getAllSymbols stmt_ctx init;
      _ ← verifyVariableType (getType init_value);
      match getLLVMType init_value with
      | Some llvm_type =>
          alloca ← createEntryAlloca name llvm_type;
          _ ← store (getValue init_value) (Some alloca);
          mret (mkVariable alloca (getType init_value) is_mutable)
      | None => undefined
      end
  end.

(** The constant of the prefix operators:
    [Value{llvm::ConstantInt::get(ctx.builder.getInt32Ty(), 1),
           std::make_shared<BuiltinType>(BuiltinTypeKind::i32)}]. *)
Definition one : Value :=
  mkValue (Some (ConstantInt_get 32 1)) (BuiltinType Ast.i32)
          default_isMutable.

(** [operator()(const ast::PrefixIncrementDecrement&)]. *)
Definition visit_PrefixIncrementDecrement (op : string) (operand_ : Expr)
  : CG unit :=
  operand ← createAssignableValue operand_ true;
  derefed_operand ← createDereference operand;
  if String.eqb op "++" then
    r ← createAdd derefed_operand one;
    store (getValue r) (getValue operand)
  else if String.eqb op "--" then
    r ← createSub derefed_operand one;
    store (getValue r) (getValue operand)
  else throw (UnknownOperator op).

(** [operator()(const ast::Return&)]. *)
Definition visit_Return (rhs : option Expr) : CG unit :=
  _ ← match rhs with
      | Some e =>
          retval ← createExpr getAllSymbols stmt_ctx e;
          match return_type with
          | Some rt =>
              if negb (equals rt (getType retval))
              then throw IncompatibleResultType
              else store (getValue retval) (return_var stmt_ctx)
          | None => undefined
          end
      | None => mret tt
      end;
  CreateBr (destruct_bb stmt_ctx).

(** [operator()(const ast::VariableDef&)]: the scope after it. *)
Definition visit_VariableDef (qualifier : option VariableQual)
    (name : string) (type : option Ast.Type_) (initializer : option Expr)
  : CG SymbolTable :=
  match type, initializer with
  | None, None => throw InferenceRequiresInitializer
  | _, _ =>
      let is_mutable :=
        match qualifier with Some mutable_ => true | _ => false end in
      match type with
      | Some t =>
          ty ← createType t;
          v ← createAllocaVariable name ty initializer is_mutable;
          mret (<[name := v]> scope)
      | None =>
          v ← createAllocaVariableTyInference name initializer is_mutable;
          mret (<[name := v]> scope)
      end
  end.

(** [operator()(ast::Break)] and [operator()(ast::Continue)]. *)
Definition visit_Break : CG unit :=
  match break_bb stmt_ctx with
  | Some bb => CreateBr bb
  | None => mret tt
  end.

Definition visit_Continue : CG unit :=
  match continue_bb stmt_ctx with
  | Some bb => CreateBr bb
  | None => mret tt
  end.

End Visitor.

(** The end of [createStatement]: the destruct block of the scope, after
    a branch to it unless the insertion block has its terminator. *)
Definition closeScope (new_stmt_ctx : StmtContext) (new_scope : SymbolTable)
  : CG unit :=
  terminated ← hasTerminator;
  if (terminated : bool) then createDestructBB new_stmt_ctx new_scope true
  else
    _ ← CreateBr (destruct_bb new_stmt_ctx);
    createDestructBB new_stmt_ctx new_scope false.

(** The context [createStatement] hands to the statements: that of the
    caller with a new block [destruct]. *)
Definition with_destruct_bb (stmt_ctx : StmtContext) (bb : nat)
  : StmtContext :=
  mkStmtContext bb (return_var stmt_ctx) (end_bb stmt_ctx)
                (break_bb stmt_ctx) (continue_bb stmt_ctx).

Definition with_loop (stmt_ctx : StmtContext) (break_ continue_ : nat)
  : StmtContext :=
  mkStmtContext (destruct_bb stmt_ctx) (return_var stmt_ctx)
                (end_bb stmt_ctx) (Some break_) (Some continue_).

(** The loop of [createStatement] over a compound statement, [visit]
    being the visitor: it stops at the first statement that leaves a
    terminator in the insertion block. *)
Definition lowerStatements
    (visit : SymbolTable -> SymbolTable -> StmtContext -> Stmt
             -> CG SymbolTable)
    (scope_arg : SymbolTable) (new_stmt_ctx : StmtContext)
  : list Stmt -> SymbolTable -> CG SymbolTable :=
  fix loop (statements : list Stmt) (new_scope : SymbolTable) :=
    match statements with
    | [] => mret new_scope
    | r :: statements' =>
        new_scope ← visit scope_arg new_scope new_stmt_ctx r;
        terminated ← hasTerminator;
        if (terminated : bool) then mret new_scope
        else loop statements' new_scope
    end.

(** [createStatement(ctx, scope_arg, stmt_ctx_arg, statement)]. *)
Definition createStatement_with
    (visit : SymbolTable -> SymbolTable -> StmtContext -> Stmt
             -> CG SymbolTable)
    (scope_arg : SymbolTable) (stmt_ctx_arg : StmtContext)
    (statement : Stmt) : CG unit :=
  bb ← lift (BasicBlock_Create false);
  let new_stmt_ctx := with_destruct_bb stmt_ctx_arg bb in
  new_scope ← match statement with
              | CompoundStatement statements =>
                  lowerStatements visit scope_arg new_stmt_ctx statements ∅
              | _ => visit scope_arg ∅ new_stmt_ctx statement
              end;
  closeScope new_stmt_ctx new_scope.

(** [StmtVisitor]: the scope the statement leaves. *)
Fixpoint visit (parent_scope scope : SymbolTable) (stmt_ctx : StmtContext)
    (statement : Stmt) {struct statement} : CG SymbolTable :=
  let all := getAllSymbols parent_scope scope in
  match statement with
  | Blank => mret scope
  | CompoundStatement statements =>
      bb ← lift (BasicBlock_Create false);
      let new_stmt_ctx := with_destruct_bb stmt_ctx bb in
      new_scope ← lowerStatements visit all new_stmt_ctx statements ∅;
      _ ← closeScope new_stmt_ctx new_scope;
      mret scope
  | ExprStmt node =>
      _ ← createExpr all stmt_ctx node; mret scope
  | Return rhs =>
      _ ← visit_Return parent_scope scope stmt_ctx rhs; mret scope
  | VariableDef qualifier name type initializer =>
      visit_VariableDef parent_scope scope stmt_ctx
                        qualifier name type initializer
  | Assignment lhs op rhs =>
      _ ← createAssignment parent_scope scope stmt_ctx lhs op rhs true;
      mret scope
  | ClassMemberInit lhs op rhs =>
      _ ← createAssignment parent_scope scope stmt_ctx lhs op rhs false;
      mret scope
  | PrefixIncrementDecrement op operand =>
      _ ← visit_PrefixIncrementDecrement parent_scope scope stmt_ctx
                                         op operand;
      mret scope
  | If condition then_statement else_statement =>
      then_bb ← lift (BasicBlock_Create true);
      else_bb ← lift (BasicBlock_Create false);
      merge_bb ← lift (BasicBlock_Create false);
      cond_value ← createExpr all stmt_ctx condition;
      match getValue cond_value with
      | Some cv =>
          if negb (isIntegerTy (LLVM.getType cv))
             && negb (isPointerTy (LLVM.getType cv))
          then throw ConditionNotBool
          else
            cond ← CreateICmp "ne" cv (getNullValue (LLVM.getType cv));
            _ ← CreateCondBr cond then_bb else_bb;
            _ ← modify (SetInsertPoint then_bb);
            _ ← createStatement_with visit all stmt_ctx then_statement;
            terminated ← hasTerminator;
            _ ← (if (terminated : bool) then mret tt else CreateBr merge_bb);
            _ ← modify (push_back else_bb);
            _ ← modify (SetInsertPoint else_bb);
            _ ← match else_statement with
                | Some s => createStatement_with visit all stmt_ctx s
                | None => mret tt
                end;
            terminated ← hasTerminator;
            _ ← (if (terminated : bool) then mret tt else CreateBr merge_bb);
            _ ← modify (push_back merge_bb);
            _ ← modify (SetInsertPoint merge_bb);
            mret scope
      | None => undefined
      end
  | Loop body =>
      body_bb ← lift (BasicBlock_Create true);
      loop_end_bb ← lift (BasicBlock_Create false);
      _ ← CreateBr body_bb;
      _ ← modify (SetInsertPoint body_bb);
      _ ← createStatement_with visit all
            (with_loop stmt_ctx loop_end_bb body_bb) body;
      terminated ← hasTerminator;
      _ ← (if (terminated : bool) then mret tt else CreateBr body_bb);
      _ ← modify (push_back loop_end_bb);
      _ ← modify (SetInsertPoint loop_end_bb);
      mret scope
  | While cond_expr body =>
      cond_bb ← lift (BasicBlock_Create true);
      body_bb ← lift (BasicBlock_Create false);
      loop_end_bb ← lift (BasicBlock_Create false);
      _ ← CreateBr cond_bb;
      _ ← modify (SetInsertPoint cond_bb);
      cond_value ← createExpr all stmt_ctx cond_expr;
      zero ← bool_zero;
      match getValue cond_value with
      | Some cv =>
          cond ← CreateICmp "ne" cv zero;
          _ ← CreateCondBr cond body_bb loop_end_bb;
          _ ← modify (push_back body_bb);
          _ ← modify (SetInsertPoint body_bb);
          _ ← createStatement_with visit all
                (with_loop stmt_ctx loop_end_bb cond_bb) body;
          terminated ← hasTerminator;
          _ ← (if (terminated : bool) then mret tt else CreateBr cond_bb);
          _ ← modify (push_back loop_end_bb);
          _ ← modify (SetInsertPoint loop_end_bb);
          mret scope
      | None => undefined
      end
  | For init_stmt cond_expr loop_stmt body =>
      scope ← match init_stmt with
              | Some s => visit parent_scope scope stmt_ctx s
              | None => mret scope
              end;
      let all := getAllSymbols parent_scope scope in
      cond_bb ← lift (BasicBlock_Create true);
      loop_bb ← lift (BasicBlock_Create false);
      body_bb ← lift (BasicBlock_Create false);
      loop_end_bb ← lift (BasicBlock_Create false);
      let new_stmt_ctx := with_loop stmt_ctx loop_end_bb loop_bb in
      _ ← CreateBr cond_bb;
      _ ← modify (SetInsertPoint cond_bb);
      _ ← match cond_expr with
          | Some c =>
              cond_value ← createExpr all new_stmt_ctx c;
              zero ← bool_zero;
              match getValue cond_value with
              | Some cv =>
                  cond ← CreateICmp "ne" cv zero;
                  CreateCondBr cond body_bb loop_end_bb
              | None => undefined
              end
          | None =>
              CreateCondBr (ConstantInt_get 1 1) body_bb loop_end_bb
          end;
      _ ← modify (push_back body_bb);
      _ ← modify (SetInsertPoint body_bb);
      _ ← createStatement_with visit all new_stmt_ctx body;
      terminated ← hasTerminator;
      _ ← (if (terminated : bool) then mret tt else CreateBr loop_bb);
      _ ← modify (push_back loop_bb);
      _ ← modify (SetInsertPoint loop_bb);
      _ ← match loop_stmt with
          | Some s => createStatement_with visit all new_stmt_ctx s
          | None => mret tt
          end;
      _ ← CreateBr cond_bb;
      _ ← modify (push_back loop_end_bb);
      _ ← modify (SetInsertPoint loop_end_bb);
      mret scope
  | Break => _ ← visit_Break stmt_ctx; mret scope
  | Continue => _ ← visit_Continue stmt_ctx; mret scope
  end.

Definition createStatement : SymbolTable -> StmtContext -> Stmt -> CG unit :=
  createStatement_with visit.

(** *** The destruct block of a scope *)

(** The destructor [createDestructBB] finds for a variable: that of its
    class, for a variable of class type whose class has one. *)
Definition destructor_of (v : Variable_) : option Function :=
  if isClassTy (var_getType v)
  then findDestructor (getClassName (var_getType v)) else None.

(** The variables of a list of symbols that have a destructor, each with
    its name, its destructor and its stack slot. *)
Definition destructed (l : list (string * Variable_))
  : list (string * Function * LLVM.Value) :=
  omap (fun symbol => d ← destructor_of symbol.2;
                      Some (symbol.1, d, getAllocaInst symbol.2)) l.

(** The calls of these destructors, numbered from [id] on. *)
Fixpoint destructor_calls (id : nat)
    (l : list (string * Function * LLVM.Value)) : list Instruction :=
  match l with
  | [] => []
  | (_, d, slot) :: l' =>
      Yield (CallInst id (fname d) (getReturnType d) [slot])
      :: destructor_calls (S id) l'
  end.

Lemma destructed_elem (l : list (string * Variable_))
    (name : string) (d : Function) (slot : LLVM.Value) :
  (name, d, slot) ∈ destructed l
  <-> exists v, (name, v) ∈ l /\ destructor_of v = Some d
                /\ slot = getAllocaInst v.
Proof.
  unfold destructed. rewrite list_elem_of_omap. split.
  - intros ([n v] & Hin & Hsome). simpl in Hsome.
    destruct (destructor_of v) as [d'|] eqn:Hd'; simpl in Hsome;
      [|discriminate].
    injection Hsome as <- <- <-. exists v. auto.
  - intros (v & Hv & Hd' & ->). exists (name, v). split; [exact Hv|].
    simpl. rewrite Hd'. reflexivity.
Qed.

Lemma destructed_NoDup (l : list (string * Variable_)) :
  NoDup (l.*1) -> NoDup (map (fun c => c.1.1) (destructed l)).
Proof.
  induction l as [|[n v] l IH]; intros Hnd.
  - constructor.
  - apply NoDup_cons in Hnd as [Hnotin Hnd].
    change (destructed ((n, v) :: l))
      with (match destructor_of v ≫= (fun d => Some (n, d, getAllocaInst v))
            with
            | Some y => y :: destructed l
            | None => destructed l
            end).
    destruct (destructor_of v) as [d|]; simpl; [|apply IH, Hnd].
    apply NoDup_cons. split; [|apply IH, Hnd].
    intros Hin. apply Hnotin.
    apply list_elem_of_fmap in Hin as ([[n' d'] slot'] & Heq & Hin).
    simpl in Heq. subst n'.
    apply destructed_elem in Hin as (v' & Hin & _).
    apply list_elem_of_fmap. exists (n, v'). split; [reflexivity|exact Hin].
Qed.

Lemma invoke_each (l : list (string * Variable_)) : forall b,
  exists b',
    (fix each (l : list (string * Variable_)) : CG unit :=
       match l with
       | [] => mret tt
       | symbol :: l' =>
           _ ← (if isClassTy (var_getType symbol.2)
                then invokeDestructor symbol.2 else mret tt);
           each l'
       end) l b = Ok tt b'
    /\ layout b' = layout b
    /\ insert_block b' = insert_block b
    /\ next_block b' = next_block b
    /\ block_insts b' (insert_block b)
       = block_insts b (insert_block b)
         ++ destructor_calls (next_inst b) (destructed l)
    /\ (forall bb, bb <> insert_block b ->
          block_insts b' bb = block_insts b bb).
Proof.
  induction l as [|[name v] l IH]; intros b.
  - exists b. simpl. rewrite app_nil_r. repeat split; reflexivity.
  - unfold destructed. simpl. unfold destructor_of at 1. simpl.
    unfold invokeDestructor.
    destruct (isClassTy (var_getType v)); simpl;
      [destruct (findDestructor (getClassName (var_getType v))) as [d|];
       simpl|].
    + set (call := CallInst (next_inst b) (fname d) (getReturnType d)
                            [getAllocaInst v]).
      set (b1 := Insert (Yield call) (snd (fresh b))).
      destruct (IH b1) as (b' & Hrun & Hl & Hi & Hn & Hd & Ho).
      exists b'. split; [exact Hrun|].
      repeat split; try (rewrite ?Hl, ?Hi, ?Hn; reflexivity).
      * assert (H1 : block_insts b1 (insert_block b)
                     = block_insts b (insert_block b) ++ [Yield call]).
        { subst b1. unfold block_insts, Insert, fresh. simpl.
          rewrite lookup_insert_eq. reflexivity. }
        change (insert_block b1) with (insert_block b) in Hd.
        change (next_inst b1) with (S (next_inst b)) in Hd.
        rewrite Hd, H1, <- app_assoc. reflexivity.
      * intros bb Hbb. rewrite (Ho bb Hbb).
        unfold block_insts, Insert, fresh. simpl.
        rewrite lookup_insert_ne by congruence. reflexivity.
    + apply IH.
    + apply IH.
Qed.

(** What [createDestructBB] emits.  It appends the destruct block of
    the scope to the function and fills it: for every variable the table
    it is given holds, the block receives one call of the destructor of
    its class on its stack slot when the variable is of class type and the
    class has a destructor, and nothing otherwise.  The calls stand in the
    order in which the table hands out its elements, whatever that order
    is, and the branch to the end of the function follows them when
    [return_] is set.  No other block changes. *)
Lemma createDestructBB_invokes (stmt_ctx : StmtContext)
    (symbols : SymbolTable) (return_ : bool) (b : Builder) :
  exists b',
    createDestructBB stmt_ctx symbols return_ b = Ok tt b'
    /\ layout b' = layout b ++ [destruct_bb stmt_ctx]
    /\ insert_block b' = destruct_bb stmt_ctx
    /\ block_insts b' (destruct_bb stmt_ctx)
       = block_insts b (destruct_bb stmt_ctx)
         ++ destructor_calls (next_inst b) (destructed (elements symbols))
         ++ (if return_ then [BranchInst (end_bb stmt_ctx)] else [])
    /\ (forall bb, bb <> destruct_bb stmt_ctx ->
          block_insts b' bb = block_insts b bb)
    /\ NoDup (map (fun c => c.1.1) (destructed (elements symbols)))
    /\ (forall name d slot,
          (name, d, slot) ∈ destructed (elements symbols)
          <-> exists v, symbols !! name = Some v
                        /\ destructor_of v = Some d
                        /\ slot = getAllocaInst v).
Proof.
  set (b0 := SetInsertPoint (destruct_bb stmt_ctx)
               (push_back (destruct_bb stmt_ctx) b)).
  destruct (invoke_each (elements symbols) b0)
    as (b1 & Hrun & Hl & Hi & Hn & Hd & Ho).
  pose proof (destructed_NoDup (elements symbols)
                (elements_NoDup symbols)) as Hdistinct.
  assert (Hmember : forall name d slot,
    (name, d, slot) ∈ destructed (elements symbols)
    <-> exists v, symbols !! name = Some v
                  /\ destructor_of v = Some d
                  /\ slot = getAllocaInst v).
  { intros name d slot. rewrite destructed_elem.
    split; intros (v & Hv & Hrest); exists v;
      (split; [apply elements_elem, Hv|exact Hrest]). }
  destruct return_.
  - exists (Insert (BranchInst (end_bb stmt_ctx)) b1).
    split; [|split; [|split; [|split; [|split; [|split]]]]].
    + unfold createDestructBB, mbind, M_bind, bind, modify.
      unfold mbind, M_bind, bind, modify in Hrun. fold b0.
      rewrite Hrun. reflexivity.
    + simpl. rewrite Hl. reflexivity.
    + simpl. rewrite Hi. reflexivity.
    + replace (destruct_bb stmt_ctx) with (insert_block b1) at 1
        by (rewrite Hi; reflexivity).
      rewrite block_insts_Insert_same, Hi. simpl insert_block.
      change (insert_block b0) with (destruct_bb stmt_ctx) in Hd.
      rewrite Hd. rewrite <- app_assoc. reflexivity.
    + intros bb Hbb.
      rewrite block_insts_Insert_other by (rewrite Hi; exact Hbb).
      apply (Ho bb Hbb).
    + exact Hdistinct.
    + exact Hmember.
  - exists b1.
    split; [|split; [|split; [|split; [|split; [|split]]]]].
    + unfold createDestructBB, mbind, M_bind, bind, modify.
      unfold mbind, M_bind, bind, modify in Hrun. fold b0.
      rewrite Hrun. reflexivity.
    + rewrite Hl. reflexivity.
    + rewrite Hi. reflexivity.
    + change (insert_block b0) with (destruct_bb stmt_ctx) in Hd.
      rewrite Hd, app_nil_r. reflexivity.
    + intros bb Hbb. apply (Ho bb Hbb).
    + exact Hdistinct.
    + exact Hmember.
Qed.

(** *** Statements: what the visitor does *)

(** The visitor of a compound statement is [createStatement] on the
    statement, under all the symbols in sight. *)
Lemma visit_CompoundStatement (parent_scope scope : SymbolTable)
    (stmt_ctx : StmtContext) (statements : list Stmt) (b : Builder) :
  visit parent_scope scope stmt_ctx (CompoundStatement statements) b
  = (_ ← createStatement (getAllSymbols parent_scope scope) stmt_ctx
           (CompoundStatement statements);
     mret scope) b.
Proof.
  simpl. unfold createStatement, createStatement_with, mbind, M_bind, bind.
  destruct (lift (BasicBlock_Create false) b) as [bb b1| |];
    try reflexivity.
  destruct (lowerStatements visit _ _ statements ∅ b1) as [sc b2| |];
    reflexivity.
Qed.

(** C10: a [break] lowered under a context that has no break target, and
    a [continue] lowered under a context that has no continue target,
    succeed, leave the builder as it was, so that nothing is emitted, and
    raise nothing; the scope is unchanged too. *)
Theorem Break_Continue_outside_loop (parent_scope scope : SymbolTable)
    (destruct_bb_ : nat) (return_var_ : option LLVM.Value) (end_bb_ : nat)
    (other : option nat) (b : Builder) :
  visit parent_scope scope
        (mkStmtContext destruct_bb_ return_var_ end_bb_ None other)
        Break b
  = Ok scope b
  /\ visit parent_scope scope
           (mkStmtContext destruct_bb_ return_var_ end_bb_ other None)
           Continue b
     = Ok scope b.
Proof. split; reflexivity. Qed.

(** Inside a loop a [break] is the branch to the break target and a
    [continue] the branch to the continue target, and nothing else: the
    one instruction is appended to the insertion block. *)
Lemma Break_Continue_inside_loop (parent_scope scope : SymbolTable)
    (stmt_ctx : StmtContext) (target : nat) (b : Builder) :
  (break_bb stmt_ctx = Some target ->
   visit parent_scope scope stmt_ctx Break b
   = Ok scope (Insert (BranchInst target) b))
  /\ (continue_bb stmt_ctx = Some target ->
      visit parent_scope scope stmt_ctx Continue b
      = Ok scope (Insert (BranchInst target) b)).
Proof.
  split; intros H; simpl; unfold visit_Break, visit_Continue; rewrite H;
    reflexivity.
Qed.

(** C8 (as the code has it): the prefix operators take the address of
    the operand, which must lower to a mutable value, read it through
    [createDereference], hand what was read and the constant [one] to
    [createAdd] for [++] and to [createSub] for [--], and store the
    result at the address of the operand.  The constant is the 32-bit 1
    of the type [i32], whatever the operand is, and the statement yields
    no value: the visitor returns the scope as it was. *)
Theorem PrefixIncrementDecrement_lowering (parent_scope scope : SymbolTable)
    (stmt_ctx : StmtContext) (op : string) (operand_ : Expr) (b : Builder) :
  visit parent_scope scope stmt_ctx (PrefixIncrementDecrement op operand_) b
  = (operand ← createAssignableValue parent_scope scope stmt_ctx
                                     operand_ true;
     derefed_operand ← createDereference operand;
     r ← (if String.eqb op "++" then createAdd derefed_operand one
          else if String.eqb op "--" then createSub derefed_operand one
          else throw (UnknownOperator op));
     _ ← store (getValue r) (getValue operand);
     mret scope) b
  /\ getValue one = Some (ConstantInt 32 1)
  /\ getType one = BuiltinType Ast.i32.
Proof.
  split; [|split; reflexivity].
  simpl. unfold visit_PrefixIncrementDecrement, mbind, M_bind, bind.
  destruct (createAssignableValue parent_scope scope stmt_ctx operand_ true b)
    as [operand b1| |]; try reflexivity.
  destruct (createDereference operand b1) as [derefed b2| |];
    try reflexivity.
  destruct (String.eqb op "++").
  - destruct (createAdd derefed one b2) as [r b3| |]; reflexivity.
  - destruct (String.eqb op "--").
    + destruct (createSub derefed one b2) as [r b3| |]; reflexivity.
    + reflexivity.
Qed.

(** *** Further properties of the statements *)

(** X15: the symbols a statement sees.  [getAllSymbols] answers a name
    with the variable of the scope of the statement when the scope defines
    the name, and with that of the enclosing scopes otherwise: a
    definition shadows the outer one of the same name, and every other
    outer name stays in sight. *)
Theorem getAllSymbols_shadows (parent_scope scope : SymbolTable)
    (name : string) :
  getAllSymbols parent_scope scope !! name
  = match scope !! name with
    | Some v => Some v
    | None => parent_scope !! name
    end.
Proof. apply mergeSymbolTables_lookup. Qed.

Lemma hasTerminator_Insert_BranchInst (dest : nat) (b : Builder) :
  hasTerminator (Insert (BranchInst dest) b)
  = Ok true (Insert (BranchInst dest) b).
Proof.
  unfold hasTerminator, gets.
  change (insert_block (Insert (BranchInst dest) b)) with (insert_block b).
  rewrite getTerminator_Insert. reflexivity.
Qed.

(** A [return] that is lowered leaves a terminator in the insertion
    block. *)
Lemma visit_Return_terminates (parent_scope scope : SymbolTable)
    (stmt_ctx : StmtContext) (rhs : option Expr) (b b' : Builder)
    (scope' : SymbolTable) :
  visit parent_scope scope stmt_ctx (Return rhs) b = Ok scope' b' ->
  hasTerminator b' = Ok true b'.
Proof.
  simpl. unfold mbind, M_bind. intros H.
  apply bind_Ok_inv in H as ([] & b1 & H & Hret).
  injection Hret as _ <-.
  unfold visit_Return, mbind, M_bind in H.
  apply bind_Ok_inv in H as ([] & b0 & _ & H).
  unfold CreateBr, modify in H. injection H as <-.
  apply hasTerminator_Insert_BranchInst.
Qed.

(** The loop of [createStatement], one statement on. *)
Lemma lowerStatements_cons
    (visit_ : SymbolTable -> SymbolTable -> StmtContext -> Stmt
              -> CG SymbolTable)
    (scope_arg : SymbolTable) (new_stmt_ctx : StmtContext) (r : Stmt)
    (statements : list Stmt) (new_scope : SymbolTable) :
  lowerStatements visit_ scope_arg new_stmt_ctx (r :: statements) new_scope
  = (new_scope ← visit_ scope_arg new_scope new_stmt_ctx r;
     terminated ← hasTerminator;
     if (terminated : bool) then mret new_scope
     else lowerStatements visit_ scope_arg new_stmt_ctx statements new_scope).
Proof. reflexivity. Qed.

(** X16: the statements that follow a [return] in a compound statement
    are never lowered: the loop over the statements stops at the
    terminator the [return] leaves, so that the compound statement lowers
    as if it ended with the [return], whatever comes after it. *)
Theorem lowerStatements_stops_at_Return (scope_arg : SymbolTable)
    (new_stmt_ctx : StmtContext) (rhs : option Expr)
    (before after : list Stmt) :
  forall (new_scope : SymbolTable) (b : Builder),
    lowerStatements visit scope_arg new_stmt_ctx
                    (before ++ Return rhs :: after) new_scope b
    = lowerStatements visit scope_arg new_stmt_ctx
                      (before ++ [Return rhs]) new_scope b.
Proof.
  induction before as [|s before IH]; intros new_scope b; cbn [app];
    rewrite !lowerStatements_cons; unfold mbind, M_bind, bind.
  - destruct (visit scope_arg new_scope new_stmt_ctx (Return rhs) b)
      as [scope' b'| |] eqn:Hvisit; try reflexivity.
    rewrite (visit_Return_terminates _ _ _ _ _ _ _ Hvisit). reflexivity.
  - destruct (visit scope_arg new_scope new_stmt_ctx s b)
      as [scope' b'| |]; try reflexivity.
    destruct (hasTerminator b') as [[|] b''| |]; try reflexivity.
    apply IH.
Qed.

(** The destruct block of a scope is always created: [createDestructBB]
    raises nothing, appends the block to the function and leaves the
    builder in it. *)
Lemma createDestructBB_total (stmt_ctx : StmtContext)
    (symbols : SymbolTable) (return_ : bool) (b : Builder) :
  exists b',
    createDestructBB stmt_ctx symbols return_ b = Ok tt b'
    /\ layout b' = layout b ++ [destruct_bb stmt_ctx]
    /\ insert_block b' = destruct_bb stmt_ctx
    /\ next_block b' = next_block b.
Proof.
  set (b0 := SetInsertPoint (destruct_bb stmt_ctx)
               (push_back (destruct_bb stmt_ctx) b)).
  destruct (invoke_each (elements symbols) b0)
    as (b1 & Hrun & Hl & Hi & Hn & _ & _).
  unfold createDestructBB, mbind, M_bind, bind, modify.
  unfold mbind, M_bind, bind, modify in Hrun. fold b0. rewrite Hrun.
  destruct return_.
  - exists (Insert (BranchInst (end_bb stmt_ctx)) b1).
    split; [reflexivity|]. simpl. rewrite Hl, Hi, Hn. repeat split.
  - exists b1. split; [reflexivity|]. rewrite Hl, Hi, Hn. repeat split.
Qed.

Lemma closeScope_total (new_stmt_ctx : StmtContext)
    (new_scope : SymbolTable) (b : Builder) :
  exists b',
    closeScope new_stmt_ctx new_scope b = Ok tt b'
    /\ layout b' = layout b ++ [destruct_bb new_stmt_ctx]
    /\ insert_block b' = destruct_bb new_stmt_ctx
    /\ next_block b' = next_block b.
Proof.
  unfold closeScope, mbind, M_bind, bind, hasTerminator, gets.
  destruct (getTerminator b (insert_block b)).
  - apply createDestructBB_total.
  - unfold CreateBr, modify.
    destruct (createDestructBB_total new_stmt_ctx new_scope false
                (Insert (BranchInst (destruct_bb new_stmt_ctx)) b))
      as (b' & Hrun & Hl & Hi & Hn).
    exists b'. repeat split; assumption.
Qed.

(** The statements of [createStatement], lowered under the context that
    has the new destruct block. *)
Definition scopeBody (scope_arg : SymbolTable) (new_stmt_ctx : StmtContext)
    (statement : Stmt) : CG SymbolTable :=
  match statement with
  | CompoundStatement statements =>
      lowerStatements visit scope_arg new_stmt_ctx statements ∅
  | _ => visit scope_arg ∅ new_stmt_ctx statement
  end.

(** X17: [createStatement] fails exactly when the lowering of the
    statement fails, with the same error and the builder as the statement
    left it: no destruct block is appended then.  When the statement is
    lowered, the scope is always closed: the destruct block, the block
    [createStatement] created first, is the last block of the function and
    the builder stands in it. *)
Theorem createStatement_closes_scope (scope_arg : SymbolTable)
    (stmt_ctx_arg : StmtContext) (statement : Stmt) (b : Builder) :
  let destruct_ := next_block b in
  let body :=
    scopeBody scope_arg (with_destruct_bb stmt_ctx_arg destruct_) statement
              (snd (BasicBlock_Create false b)) in
  match body with
  | Ok new_scope b1 =>
      exists b',
        createStatement scope_arg stmt_ctx_arg statement b = Ok tt b'
        /\ layout b' = layout b1 ++ [destruct_]
        /\ insert_block b' = destruct_
        /\ next_block b' = next_block b1
  | Throw e b1 =>
      createStatement scope_arg stmt_ctx_arg statement b = Throw e b1
  | Undefined =>
      createStatement scope_arg stmt_ctx_arg statement b = Undefined
  end.
Proof.
  intros destruct_ body.
  assert (Hrun : createStatement scope_arg stmt_ctx_arg statement b
                 = match body with
                   | Ok new_scope b1 =>
                       closeScope (with_destruct_bb stmt_ctx_arg destruct_)
                                  new_scope b1
                   | Throw e b1 => Throw e b1
                   | Undefined => Undefined
                   end).
  { unfold createStatement, createStatement_with, mbind, M_bind, bind, lift.
    simpl. subst body. unfold scopeBody. subst destruct_.
    destruct statement; reflexivity. }
  rewrite Hrun. destruct body as [new_scope b1|e b1|]; try reflexivity.
  apply closeScope_total.
Qed.

(** X18: a value that is not mutable is never assigned to.  When the
    left-hand side of an assignment, or the operand of a prefix [++] or
    [--], lowers to a value that is not mutable, the statement is refused
    with the error of a read-only variable, whatever the operator is; the
    right-hand side is not lowered, and nothing is emitted after the
    operand. *)
Theorem read_only_operand_refused (parent_scope scope : SymbolTable)
    (stmt_ctx : StmtContext) (lhs : Expr) (op : string) (rhs : Expr)
    (prefix_op : string) (b b1 : Builder) (value : Value) :
  createExpr (getAllSymbols parent_scope scope) stmt_ctx lhs b
    = Ok value b1 ->
  isMutable value = false ->
  visit parent_scope scope stmt_ctx (Assignment lhs op rhs) b
    = Throw ReadOnlyVariable b1
  /\ visit parent_scope scope stmt_ctx
           (PrefixIncrementDecrement prefix_op lhs) b
     = Throw ReadOnlyVariable b1.
Proof.
  intros Hlhs Hmut.
  assert (Hassignable :
    createAssignableValue parent_scope scope stmt_ctx lhs true b
    = Throw ReadOnlyVariable b1).
  { unfold createAssignableValue, mbind, M_bind.
    rewrite (bind_Ok _ _ _ _ _ Hlhs), Hmut. reflexivity. }
  split; simpl; unfold mbind, M_bind.
  - apply bind_Throw. unfold createAssignment, mbind, M_bind.
    apply bind_Throw. exact Hassignable.
  - apply bind_Throw. unfold visit_PrefixIncrementDecrement, mbind, M_bind.
    apply bind_Throw. exact Hassignable.
Qed.

Lemma createAllocaVariable_isMutable (parent_scope scope : SymbolTable)
    (stmt_ctx : StmtContext) (name : string) (type : Ty)
    (initializer : option Expr) (is_mutable : bool) (b b' : Builder)
    (v : Variable_) :
  createAllocaVariable parent_scope scope stmt_ctx name type initializer
                       is_mutable b = Ok v b' ->
  var_isMutable v = is_mutable /\ var_getType v = type
  /\ isVoidTy type = false.
Proof.
  unfold createAllocaVariable, mbind, M_bind. intros H.
  apply bind_Ok_inv in H as ([] & b0 & Hvoid & H).
  unfold verifyVariableType in Hvoid.
  destruct (isVoidTy type); [discriminate|].
  apply bind_Ok_inv in H as (alloca & b1 & _ & H).
  destruct initializer as [init|].
  - apply bind_Ok_inv in H as (init_value & b2 & _ & H).
    destruct (negb (equals type (getType init_value))); [discriminate|].
    apply bind_Ok_inv in H as ([] & b3 & _ & H).
    injection H as <- _. repeat split.
  - injection H as <- _. repeat split.
Qed.

Lemma createAllocaVariableTyInference_isMutable
    (parent_scope scope : SymbolTable) (stmt_ctx : StmtContext)
    (name : string) (initializer : option Expr) (is_mutable : bool)
    (b b' : Builder) (v : Variable_) :
  createAllocaVariableTyInference parent_scope scope stmt_ctx name
                                  initializer is_mutable b = Ok v b' ->
  var_isMutable v = is_mutable /\ isVoidTy (var_getType v) = false.
Proof.
  unfold createAllocaVariableTyInference, mbind, M_bind. intros H.
  destruct initializer as [init|]; [|discriminate].
  apply bind_Ok_inv in H as (init_value & b1 & _ & H).
  apply bind_Ok_inv in H as ([] & b2 & Hvoid & H).
  unfold verifyVariableType in Hvoid.
  destruct (isVoidTy (getType init_value)) eqn:Hv; [discriminate|].
  destruct (getLLVMType init_value); [|discriminate].
  apply bind_Ok_inv in H as (alloca & b3 & _ & H).
  apply bind_Ok_inv in H as ([] & b4 & _ & H).
  injection H as <- _. split; [reflexivity|exact Hv].
Qed.

(** X19: what the definition of a variable does to the scope.  A
    definition that has neither a type nor an initializer is refused: the
    visitor throws the error of an inference without initializer, with the
    builder as it was, so that nothing is emitted.  A definition that is
    lowered binds its name, in the scope of the statement alone, to a new
    variable that is mutable exactly when the qualifier is [mutable] and
    whose type is not [void]: an earlier variable of that name in the
    scope is replaced, and no other name changes. *)
Theorem VariableDef_binds (parent_scope scope : SymbolTable)
    (stmt_ctx : StmtContext) (qualifier : option VariableQual)
    (name : string) (type : option Ast.Type_) (initializer : option Expr)
    (b : Builder) :
  visit parent_scope scope stmt_ctx (VariableDef qualifier name None None) b
  = Throw InferenceRequiresInitializer b
  /\ forall (scope' : SymbolTable) (b' : Builder),
       visit parent_scope scope stmt_ctx
             (VariableDef qualifier name type initializer) b
       = Ok scope' b' ->
       (type <> None \/ initializer <> None)
       /\ exists v,
            scope' = <[name := v]> scope
            /\ var_isMutable v
               = match qualifier with Some mutable_ => true | _ => false end
            /\ isVoidTy (var_getType v) = false.
Proof.
  split; [reflexivity|]. intros scope' b' H.
  - simpl in H. unfold visit_VariableDef in H.
    destruct type as [t|].
    + split; [left; discriminate|].
      assert (H' : (ty ← createType t;
                    v ← createAllocaVariable parent_scope scope stmt_ctx
                          name ty initializer
                          match qualifier with
                          | Some mutable_ => true
                          | _ => false
                          end;
                    mret (<[name := v]> scope)) b = Ok scope' b').
      { destruct initializer; exact H. }
      clear H. unfold mbind, M_bind in H'.
      apply bind_Ok_inv in H' as (ty & b0 & _ & H).
      apply bind_Ok_inv in H as (v & b1 & Hv & H).
      injection H as <- _. exists v. split; [reflexivity|].
      apply createAllocaVariable_isMutable in Hv as (Hm & Hty & Hvoid).
      split; [exact Hm|]. rewrite Hty. exact Hvoid.
    + destruct initializer as [init|]; [|discriminate].
      split; [right; discriminate|].
      unfold mbind, M_bind in H.
      apply bind_Ok_inv in H as (v & b1 & Hv & H).
      injection H as <- _. exists v. split; [reflexivity|].
      exact (createAllocaVariableTyInference_isMutable _ _ _ _ _ _ _ _ _ Hv).
Qed.

End Lowering.

(** *** An environment to run the lowering

    The functions this file calls and the sources do not define, in the
    simplest form the spec allows, so that [createStatement] can be run on
    programs.  The programs below contain variables, 32-bit literals,
    classes and builtin types only. *)

(** Modelled from the spec: the expressions whose lowering the examples
    need.  [ast::Expr] has some twenty variants; "literals trivially
    produce constants; integer literal width defaults to 32-bit signed",
    and an identifier is a local of the scope. *)
Inductive SampleExpr :=
  | Literal (value : Z)
  | Name (name : string).

(** Modelled from the spec: the types of the code generator
    (twinkle/codegen/type.hpp is not among the sources), "Type (sum):
    Builtin{kind}, UserDefined{name}, ..., Pointer{pointee},
    Reference{referent}". *)
Inductive SampleTy :=
  | TBuiltin (kind : Ast.BuiltinTypeKind)
  | TUserDefined (name : string)
  | TPointer (pointee : SampleTy)
  | TReference (referent : SampleTy).

#[global] Instance SampleTy_eq_dec : EqDecision SampleTy.
Proof. solve_decision. Defined.

(** Modelled from the spec: the back-end type of a type; "booleans are
    represented in IR as a single byte", [char] is a 32-bit code point. *)
Fixpoint sample_getLLVMType (t : SampleTy) : LLVM.Type_ :=
  match t with
  | TBuiltin k =>
      match k with
      | Ast.void_ => VoidTy
      | Ast.bool_ | Ast.i8 | Ast.u8 => IntegerTy 8
      | Ast.i16 | Ast.u16 => IntegerTy 16
      | Ast.i32 | Ast.u32 | Ast.char_ => IntegerTy 32
      | Ast.i64 | Ast.u64 => IntegerTy 64
      | Ast.f32 => FloatTy
      | Ast.f64 => DoubleTy
      end
  | TUserDefined name => StructTy name
  | TPointer t | TReference t => PointerTy (sample_getLLVMType t)
  end.

Definition sample_getPointeeType (t : SampleTy) : SampleTy :=
  match t with TPointer p | TReference p => p | _ => t end.

(** Modelled from the spec: [createType], from the type AST to the type;
    a user-defined name is a class of the program. *)
Fixpoint sample_createType (t : Ast.Type_) : CG SampleTy :=
  match t with
  | Ast.BuiltinType k => mret (TBuiltin k)
  | Ast.UserDefinedType n =>
      mret (TUserDefined
              (string_of_list_ascii (map ascii_of_N (Ast.name n))))
  | Ast.PointerType _ p => p ← sample_createType p; mret (TPointer p)
  | Ast.ReferenceType r => r ← sample_createType r; mret (TReference r)
  | _ => throw (Other "type not in the examples")
  end.

(** Modelled from the spec: the lowering of the two expressions, "a
    Value = (back-end-value, Type, is-mutable)"; a variable is read by a
    load from its stack slot. *)
Definition sample_createExpr
    (scope : gmap string (Variable_ SampleTy)) (_ : StmtContext)
    (e : SampleExpr) : CG (Value SampleTy) :=
  match e with
  | Literal z =>
      mret (mkValue SampleTy (Some (ConstantInt_getSigned 32 z))
                    (TBuiltin Ast.i32) false)
  | Name n =>
      match scope !! n with
      | Some variable =>
          l ← CreateLoad (sample_getLLVMType (var_getType SampleTy variable))
                         (getAllocaInst SampleTy variable);
          mret (mkValue SampleTy (Some l) (var_getType SampleTy variable)
                        (var_isMutable SampleTy variable))
      | None => throw (Other "unknown variable")
      end
  end.

(** Modelled from the spec: the arithmetic on two values, here the
    instruction on the two back-end values as they are handed over, of the
    type of the left one. *)
Definition sample_arith (opcode : string) (lhs rhs : Value SampleTy)
  : CG (Value SampleTy) :=
  match getValue SampleTy lhs, getValue SampleTy rhs with
  | Some l, Some r =>
      v ← CreateBinOp opcode l r;
      mret (mkValue SampleTy (Some v) (getType SampleTy lhs) false)
  | _, _ => undefined
  end.

(** Modelled from the spec: "indirection requires a pointer operand and
    performs a typed load". *)
Definition sample_createDereference (operand : Value SampleTy)
  : CG (Value SampleTy) :=
  match getValue SampleTy operand with
  | Some p =>
      match LLVM.getType p with
      | PointerTy elem =>
          l ← CreateLoad elem p;
          mret (mkValue SampleTy (Some l)
                        (sample_getPointeeType (getType SampleTy operand))
                        (isMutable SampleTy operand))
      | _ => throw (Other "requires pointer operand")
      end
  | None => undefined
  end.

(** Modelled from the spec: the mangled name of the destructor of a class,
    "namespace-path (each segment tagged N for namespace or C for class)"
    with a reserved suffix. *)
Definition sample_mangleDestructorCall (ns : Codegen.NamespaceStack)
    (class_name : string) : string :=
  String.concat ""
    (map (fun n => match Codegen.kind n with
                   | Codegen.class_ => "C"
                   | _ => "N"
                   end ++ Codegen.name n)%string
         (Codegen.namespaces ns)) ++ "D".

(** The module of the examples: the class [A], declared at the root, has a
    destructor; it is the only function. *)
Definition sample_module : gmap string Function :=
  {[ "CAD"%string :=
       mkFunction "CAD" [PointerTy (StructTy "A")] false VoidTy ]}.

Definition sample_findFunction (_ : Codegen.NamespaceStack) (name : string)
  : option Function := sample_module !! name.

(** An order of iteration for the examples, that of the list of the
    finite map.  Every table the examples iterate over to destroy its
    variables holds one variable, so that the order plays no part in
    them. *)
Definition sample_iteration : Iteration SampleTy :=
  mkIteration SampleTy map_to_list (fun t => Permutation_refl (map_to_list t)).

(** The lowering in this environment, in a function that returns nothing,
    at the root namespace. *)
Definition sample_createStatement
  : gmap string (Variable_ SampleTy) -> StmtContext -> Stmt SampleExpr
    -> CG unit :=
  createStatement SampleExpr SampleTy sample_iteration
    sample_createExpr sample_createType
    (fun a b => bool_decide (a = b))
    (fun t => bool_decide (t = TBuiltin Ast.void_))
    (fun t => match t with TReference _ => true | _ => false end)
    (fun t => match t with TUserDefined _ => true | _ => false end)
    (fun t => match t with TUserDefined n => n | _ => ""%string end)
    sample_getLLVMType sample_getPointeeType TPointer TBuiltin
    (sample_arith "add") (sample_arith "sub") (sample_arith "mul")
    (sample_arith "sdiv") (sample_arith "srem")
    sample_createDereference false
    sample_findFunction sample_mangleDestructorCall
    (Codegen.mkNamespaceStack []) (Some (TBuiltin Ast.void_)).

(** The builder at the beginning of a function body: the entry block [0],
    where the builder stands, and the block [1] of the end of the
    function, which is not yet in the function. *)
Definition function_builder : Builder :=
  mkBuilder {[ 0%nat := []; 1%nat := [] ]} [0%nat] 0 2 0.

Definition function_ctx : StmtContext := mkStmtContext 1 None 1 None None.

(** The blocks a block branches to, and the blocks that control reaches
    from a block in at most [n] branches. *)
Definition successors (b : Builder) (bb : nat) : list nat :=
  match getTerminator b bb with
  | Some (BranchInst dest) => [dest]
  | Some (CondBranchInst _ iftrue iffalse) => [iftrue; iffalse]
  | _ => []
  end.

Fixpoint reachable (n : nat) (b : Builder) (bb : nat) : list nat :=
  match n with
  | O => [bb]
  | S n' => bb :: flat_map (reachable n' b) (successors b bb)
  end.

(** The builder a lowering leaves, when it succeeds. *)
Definition built {A} (r : Outcome Error A) : Builder :=
  match r with Ok _ b => b | _ => function_builder end.

Definition class_A : Ast.Type_ := Ast.UserDefinedType (Ast.ident "A").

(** *** Programs *)

Definition var_a : Stmt SampleExpr :=
  VariableDef SampleExpr None "a" (Some class_A) None.

(** [{ var a: A; var a: A; }] *)
Definition redefinition : Stmt SampleExpr :=
  CompoundStatement SampleExpr [var_a; var_a].

(** [{ var a: A; ret; }] *)
Definition return_from_block : Stmt SampleExpr :=
  CompoundStatement SampleExpr [var_a; Return SampleExpr None].

(** [{ var a: A; { ret; } }] *)
Definition return_from_inner_block : Stmt SampleExpr :=
  CompoundStatement SampleExpr
    [var_a; CompoundStatement SampleExpr [Return SampleExpr None]].

(** [{ loop { var a: A; break; } }] and the same with [continue]. *)
Definition loop_break : Stmt SampleExpr :=
  CompoundStatement SampleExpr
    [Loop SampleExpr (CompoundStatement SampleExpr [var_a; Break SampleExpr])].
Definition loop_continue : Stmt SampleExpr :=
  CompoundStatement SampleExpr
    [Loop SampleExpr
       (CompoundStatement SampleExpr [var_a; Continue SampleExpr])].

Definition lowered (body : Stmt SampleExpr) : Builder :=
  built (sample_createStatement ∅ function_ctx body function_builder).

Definition slot_a (id : nat) : LLVM.Value := AllocaInst id "a" (StructTy "A").
Definition destroy (id : nat) (slot : LLVM.Value) : Instruction :=
  Yield (CallInst id "CAD" VoidTy [slot]).

(** C1 (the code at the failing input).  The bodies are those of a
    function whose end is block [1]; the class [A] has a destructor.

    In [{ var a: A; ret; }] the return branches to the destruct block of
    the scope, block [2], which destroys [a] and branches to the end of the
    function: control goes through the blocks [0], [2] and [1].

    In [{ var a: A; { ret; } }] the return branches to the destruct block
    of the inner scope, block [3], which branches to the end of the
    function.  [createStatement] then finds a terminator in the insertion
    block and takes the outer scope for one that a return left: it appends
    the destruct block of the outer scope, block [2], which destroys [a],
    without a branch to it.  Control goes through the blocks [0], [3] and
    [1], none of which destroys [a].

    In [{ var a: A; var a: A; }] two locals of class [A] get their slots
    in the entry block, and the destruct block of the scope destroys the
    second one only: the table held the first under the name the second
    took. *)
Theorem destruct_block_misses_locals :
  (block_insts (lowered return_from_block) 0
     = [Yield (slot_a 0); BranchInst 2]
   /\ block_insts (lowered return_from_block) 2
      = [destroy 1 (slot_a 0); BranchInst 1]
   /\ reachable 4 (lowered return_from_block) 0 = [0; 2; 1]%nat)
  /\ (block_insts (lowered return_from_inner_block) 0
        = [Yield (slot_a 0); BranchInst 3]
      /\ block_insts (lowered return_from_inner_block) 3 = [BranchInst 1]
      /\ block_insts (lowered return_from_inner_block) 1 = []
      /\ block_insts (lowered return_from_inner_block) 2
         = [destroy 1 (slot_a 0); BranchInst 1]
      /\ layout (lowered return_from_inner_block) = [0; 3; 2]%nat
      /\ reachable 4 (lowered return_from_inner_block) 0 = [0; 3; 1]%nat)
  /\ (block_insts (lowered redefinition) 0
        = [Yield (slot_a 1); Yield (slot_a 0); BranchInst 2]
      /\ block_insts (lowered redefinition) 2 = [destroy 2 (slot_a 1)]).
Proof. repeat split; vm_compute; reflexivity. Qed.

(** C2 (the code at the failing input).  In [{ loop { var a: A; break; } }]
    the body of the loop is block [3], the end of the loop block [4], and
    the destruct block of the scope of the body block [5].  The [break] is
    lowered to the bare branch to block [4].  The destruct block, which
    destroys [a], is taken for that of a return: it branches to the end of
    the function, and no block branches to it.  Control reaches the blocks
    [0], [3], [4] and [2], none of which destroys [a].  The [continue] of
    the second program is the bare branch to the body itself. *)
Theorem break_continue_skip_destructors :
  block_insts (lowered loop_break) 0 = [Yield (slot_a 0); BranchInst 3]
  /\ block_insts (lowered loop_break) 3 = [BranchInst 4]
  /\ block_insts (lowered loop_break) 5
     = [destroy 1 (slot_a 0); BranchInst 1]
  /\ block_insts (lowered loop_break) 4 = [BranchInst 2]
  /\ block_insts (lowered loop_break) 2 = []
  /\ reachable 6 (lowered loop_break) 0 = [0; 3; 4; 2]%nat
  /\ block_insts (lowered loop_continue) 3 = [BranchInst 3]
  /\ block_insts (lowered loop_continue) 5
     = [destroy 1 (slot_a 0); BranchInst 1]
  /\ reachable 3 (lowered loop_continue) 0 = [0; 3; 3; 3]%nat.
Proof. repeat split; vm_compute; reflexivity. Qed.

(** [{ ++x; }] where [x] is a mutable [i8] of the enclosing scope, whose
    slot is instruction [0] of the entry block. *)
Definition slot_x : LLVM.Value := AllocaInst 0 "x" (IntegerTy 8).
Definition scope_x : gmap string (Variable_ SampleTy) :=
  {[ "x"%string := mkVariable SampleTy slot_x (TBuiltin Ast.i8) true ]}.
Definition builder_x : Builder :=
  mkBuilder {[ 0%nat := [Yield slot_x]; 1%nat := [] ]} [0%nat] 0 2 1.
Definition increment_x : Stmt SampleExpr :=
  CompoundStatement SampleExpr
    [PrefixIncrementDecrement SampleExpr "++" (Name "x")].

(** C8 (counterexample to the claim as stated): for [++x] on an operand
    of 8 bits the visitor loads [x], reads it, and hands the addition the
    value read, of 8 bits, and the constant [1] of 32 bits. *)
Lemma prefix_increment_constant_is_i32 :
  block_insts
    (built (sample_createStatement scope_x function_ctx increment_x builder_x))
    0
  = [Yield slot_x;
     Yield (LoadInst 1 (IntegerTy 8) slot_x);
     Yield (LoadInst 2 (IntegerTy 8) slot_x);
     Yield (BinaryOperator 3 "add" (LoadInst 2 (IntegerTy 8) slot_x)
                           (ConstantInt 32 1));
     StoreInst (BinaryOperator 3 "add" (LoadInst 2 (IntegerTy 8) slot_x)
                               (ConstantInt 32 1))
               slot_x;
     BranchInst 2]
  /\ LLVM.getType (LoadInst 2 (IntegerTy 8) slot_x) = IntegerTy 8
  /\ LLVM.getType (ConstantInt 32 1) = IntegerTy 32.
Proof. repeat split; vm_compute; reflexivity. Qed.

(** The statement visitor in the environment of the examples. *)
Definition sample_visit
  : gmap string (Variable_ SampleTy) -> gmap string (Variable_ SampleTy)
    -> StmtContext -> Stmt SampleExpr
    -> CG (gmap string (Variable_ SampleTy)) :=
  visit SampleExpr SampleTy sample_iteration
    sample_createExpr sample_createType
    (fun a b => bool_decide (a = b))
    (fun t => bool_decide (t = TBuiltin Ast.void_))
    (fun t => match t with TReference _ => true | _ => false end)
    (fun t => match t with TUserDefined _ => true | _ => false end)
    (fun t => match t with TUserDefined n => n | _ => ""%string end)
    sample_getLLVMType sample_getPointeeType TPointer TBuiltin
    (sample_arith "add") (sample_arith "sub") (sample_arith "mul")
    (sample_arith "sdiv") (sample_arith "srem")
    sample_createDereference false
    sample_findFunction sample_mangleDestructorCall
    (Codegen.mkNamespaceStack []) (Some (TBuiltin Ast.void_)).

(** A scope with [c], an [i32] that is not mutable, whose slot is
    instruction [0] of the entry block. *)
Definition slot_c : LLVM.Value := AllocaInst 0 "c" (IntegerTy 32).
Definition scope_c : gmap string (Variable_ SampleTy) :=
  {[ "c"%string := mkVariable SampleTy slot_c (TBuiltin Ast.i32) false ]}.
Definition builder_c : Builder :=
  mkBuilder {[ 0%nat := [Yield slot_c]; 1%nat := [] ]} [0%nat] 0 2 1.

(** X18 (witness): the theorem at [c = 1] and [++c]. *)
Lemma read_only_operand_refused_witness :
  let b1 :=
    Insert (Yield (LoadInst 1 (IntegerTy 32) slot_c))
           (snd (fresh builder_c)) in
  sample_visit ∅ scope_c function_ctx
    (Assignment SampleExpr (Name "c") "=" (Literal 1)) builder_c
    = Throw ReadOnlyVariable b1
  /\ sample_visit ∅ scope_c function_ctx
       (PrefixIncrementDecrement SampleExpr "++" (Name "c")) builder_c
     = Throw ReadOnlyVariable b1.
Proof.
  apply (read_only_operand_refused SampleExpr SampleTy sample_iteration
           sample_createExpr sample_createType
           (fun a b => bool_decide (a = b))
           (fun t => bool_decide (t = TBuiltin Ast.void_))
           (fun t => match t with TReference _ => true | _ => false end)
           (fun t => match t with TUserDefined _ => true | _ => false end)
           (fun t => match t with TUserDefined n => n | _ => ""%string end)
           sample_getLLVMType sample_getPointeeType TPointer TBuiltin
           (sample_arith "add") (sample_arith "sub") (sample_arith "mul")
           (sample_arith "sdiv") (sample_arith "srem")
           sample_createDereference false
           sample_findFunction sample_mangleDestructorCall
           (Codegen.mkNamespaceStack []) (Some (TBuiltin Ast.void_))
           ∅ scope_c function_ctx (Name "c") "=" (Literal 1) "++" builder_c
           (Insert (Yield (LoadInst 1 (IntegerTy 32) slot_c))
                   (snd (fresh builder_c)))
           (mkValue SampleTy (Some (LoadInst 1 (IntegerTy 32) slot_c))
                    (TBuiltin Ast.i32) false));
    vm_compute; reflexivity.
Defined.

(** The scope and the builder after [var a: A;] at the beginning of the
    body of a function: the slot of [a] is in the entry block. *)
Definition scope_a : gmap string (Variable_ SampleTy) :=
  {[ "a"%string := mkVariable SampleTy (slot_a 0) (TUserDefined "A") false ]}.
Definition builder_a : Builder :=
  mkBuilder {[ 0%nat := [Yield (slot_a 0)]; 1%nat := [] ]} [0%nat] 0 2 1.

(** X19 (witness): the theorem at [var a;], which is refused, and at
    [var a: A;], which is lowered. *)
Lemma VariableDef_binds_witness :
  sample_visit ∅ ∅ function_ctx (VariableDef SampleExpr None "a" None None)
               function_builder
  = Throw InferenceRequiresInitializer function_builder
  /\ sample_visit ∅ ∅ function_ctx var_a function_builder
     = Ok scope_a builder_a
  /\ (Some class_A <> None \/ (None : option SampleExpr) <> None)
  /\ exists v : Variable_ SampleTy,
       scope_a = <["a"%string := v]> ∅
       /\ var_isMutable SampleTy v = false
       /\ bool_decide (var_getType SampleTy v = TBuiltin Ast.void_) = false.
Proof.
  pose proof
    (VariableDef_binds SampleExpr SampleTy sample_iteration
       sample_createExpr sample_createType
       (fun a b => bool_decide (a = b))
       (fun t => bool_decide (t = TBuiltin Ast.void_))
       (fun t => match t with TReference _ => true | _ => false end)
       (fun t => match t with TUserDefined _ => true | _ => false end)
       (fun t => match t with TUserDefined n => n | _ => ""%string end)
       sample_getLLVMType sample_getPointeeType TPointer TBuiltin
       (sample_arith "add") (sample_arith "sub") (sample_arith "mul")
       (sample_arith "sdiv") (sample_arith "srem")
       sample_createDereference false
       sample_findFunction sample_mangleDestructorCall
       (Codegen.mkNamespaceStack []) (Some (TBuiltin Ast.void_))
       ∅ ∅ function_ctx None "a" (Some class_A) None function_builder)
    as [Hrefused Hbinds].
  assert (Hrun : sample_visit ∅ ∅ function_ctx var_a function_builder
                 = Ok scope_a builder_a) by (vm_compute; reflexivity).
  split; [exact Hrefused|]. split; [exact Hrun|].
  exact (Hbinds _ _ Hrun).
Defined.

End Stmt.

(* ===================================================================== *)
(** ** codegen.cxx: the code generator of the earlier snapshot *)
(* ===================================================================== *)

Module Miko.
Import LLVM.

(** The [std::runtime_error]s of the file, one constructor for each
    message. *)
Inductive Error :=
  | UnknownVariableName (name : string)
      (* "unknown variable name '%s'" *)
  | AssignmentOfReadOnly (name : string)
      (* "assignment of read-only variable '%s'" *)
  | LeftHandSideNotVariable
      (* "the left hand side of the assignment must be a variable" *)
  | UnknownVariable (name : string)
      (* "unknown variable '%s' referenced" *)
  | UnknownFunction (callee : string)
      (* "unknown function '%s' referenced" *)
  | IncorrectArguments      (* "incorrect arguments passed" *)
  | FailedExpression        (* "failed to generate expression code" *)
  | FailedReturnValue       (* "failed to generate return value" *)
  | Redefinition (name : string)   (* "redefinition of '%s'" *)
  | InitializationFailed (name : string)
      (* "initialization of variable %s failed" *)
  | InvalidCondition        (* "invalid condition in if statement" *)
  | FailedInitExpression
      (* "failed to generate init expression in for statement" *)
  | FailedCondExpression
      (* "failed to generate condition expression in for statement" *)
  | FailedLoopExpression
      (* "failed to generate loop expression in for statement" *)
  | FailedCreateFunction (name : string)
      (* "failed to create function %s" *)
  | VerifyFailed (message : string).
      (* the message of [llvm::verifyFunction] *)

Definition CG : Type -> Type := M Error.

(** *** The identifiers of types and qualifiers

    [parse/id.hxx] is not among the sources: the enumerators are those
    this file names. *)
Inductive type_name :=
  | void_ | i8 | u8 | i16 | u16 | i32 | u32 | i64 | u64 | bool_.

Inductive variable_qualifier := mutable_.

Inductive function_linkage := private_.

(** [id == id::type_name::void_]. *)
Definition is_void (type : type_name) : bool :=
  match type with void_ => true | _ => false end.

(** *** The AST, as this file reads it

    [ast/ast.hxx] is not among the sources: each node has the fields the
    visitors read. *)
Record type_info := mk_type_info { id : type_name; is_ptr : bool }.

#[warnings="-register-all"]
Inductive expression :=
  | nil
  | uint32 (node : N)
  | int32 (node : Z)
  | bool_literal (node : bool)
  | string_literal (str : string)
  | unary_op_expr (op : string) (rhs : expression)
  | binary_op_expr (lhs : expression) (op : string) (rhs : expression)
  | variable_expr (name : string)
  | function_call_expr (callee : string) (args : list expression)
  | cast_expr (rhs : expression) (as_ : type_info).

#[warnings="-register-all"]
Inductive statement :=
  | statement_nil
  | statement_expression (node : expression)
  | return_statement (rhs : option expression)
  | variable_def_statement (qualifier : option variable_qualifier)
      (name : string) (type : type_info) (initializer : option expression)
  | if_statement (condition : expression) (then_statement : list statement)
      (else_statement : option (list statement))
  | for_statement (init_expression cond_expression loop_expression
                   : option expression) (body : list statement).

Definition compound_statement : Type := list statement.

Record parameter := mk_parameter {
  param_qualifier : option variable_qualifier;
  param_name : string;
  param_type : type_info
}.

Record function_declare := mk_function_declare {
  linkage : option function_linkage;
  decl_name : string;
  params : list parameter;
  return_type : type_info
}.

Record function_define := mk_function_define {
  decl : function_declare;
  body : compound_statement
}.

(** Induction on expressions that reaches the arguments of a call, and
    on statements that reaches the statements of the blocks. *)
Section expression_induction.
Variable P : expression -> Prop.
Hypothesis Hnil : P nil.
Hypothesis Huint32 : forall n, P (uint32 n).
Hypothesis Hint32 : forall n, P (int32 n).
Hypothesis Hbool : forall n, P (bool_literal n).
Hypothesis Hstring : forall s, P (string_literal s).
Hypothesis Hunary : forall op r, P r -> P (unary_op_expr op r).
Hypothesis Hbinary : forall l op r, P l -> P r -> P (binary_op_expr l op r).
Hypothesis Hvariable : forall n, P (variable_expr n).
Hypothesis Hcall :
  forall callee args, Forall P args -> P (function_call_expr callee args).
Hypothesis Hcast : forall r as_, P r -> P (cast_expr r as_).

Fixpoint expression_rect_nested (e : expression) : P e :=
  match e with
  | nil => Hnil
  | uint32 n => Huint32 n
  | int32 n => Hint32 n
  | bool_literal n => Hbool n
  | string_literal s => Hstring s
  | unary_op_expr op r => Hunary op r (expression_rect_nested r)
  | binary_op_expr l op r =>
      Hbinary l op r (expression_rect_nested l) (expression_rect_nested r)
  | variable_expr n => Hvariable n
  | function_call_expr callee args =>
      Hcall callee args
        ((fix go (l : list expression) : Forall P l :=
            match l with
            | [] => @List.Forall_nil _ P
            | x :: l' =>
                @List.Forall_cons _ P x l' (expression_rect_nested x) (go l')
            end) args)
  | cast_expr r as_ => Hcast r as_ (expression_rect_nested r)
  end.
End expression_induction.

Section statement_induction.
Variable P : statement -> Prop.
Hypothesis Hnil : P statement_nil.
Hypothesis Hexpression : forall e, P (statement_expression e).
Hypothesis Hreturn : forall rhs, P (return_statement rhs).
Hypothesis Hvariable_def :
  forall q n t i, P (variable_def_statement q n t i).
Hypothesis Hif :
  forall c then_ else_,
    Forall P then_ ->
    match else_ with Some l => Forall P l | None => True end ->
    P (if_statement c then_ else_).
Hypothesis Hfor :
  forall i c l body, Forall P body -> P (for_statement i c l body).

Fixpoint statement_rect_nested (s : statement) : P s :=
  let go :=
    fix go (l : list statement) : Forall P l :=
      match l with
      | [] => @List.Forall_nil _ P
      | x :: l' =>
          @List.Forall_cons _ P x l' (statement_rect_nested x) (go l')
      end in
  match s with
  | statement_nil => Hnil
  | statement_expression e => Hexpression e
  | return_statement rhs => Hreturn rhs
  | variable_def_statement q n t i => Hvariable_def q n t i
  | if_statement c then_ else_ =>
      Hif c then_ else_ (go then_)
          (match else_ as o
                 return match o with Some l => Forall P l | None => True end
           with
           | Some l => go l
           | None => I
           end)
  | for_statement i c l body => Hfor i c l body (go body)
  end.
End statement_induction.

(** *** Utilities *)

(** [struct variable_info]. *)
Record variable_info := mk_variable_info {
  inst : LLVM.Value;
  is_mutable : bool;
  is_signed : bool
}.

(** [struct symbol_table]: the map [named_values]. *)
Definition symbol_table : Type := gmap string variable_info.

(** [operator[]]: [named_values.at(name)], [std::nullopt] when [at]
    throws [std::out_of_range]. *)
Definition symbol_table_at (t : symbol_table) (name : string)
  : option variable_info := t !! name.

(** [regist]: [named_values.insert({name, info})]; [insert] leaves a
    map that has the key as it is. *)
Definition regist (t : symbol_table) (name : string) (info : variable_info)
  : symbol_table :=
  match t !! name with
  | Some _ => t
  | None => <[name := info]> t
  end.

(** [exists]: [named_values.count(name)]. *)
Definition exists_ (t : symbol_table) (name : string) : bool :=
  match t !! name with Some _ => true | None => false end.

(** [inst->getAllocatedType()]. *)
Definition getAllocatedType (inst : LLVM.Value) : option LLVM.Type_ :=
  match inst with AllocaInst _ _ allocated => Some allocated | _ => None end.

(** [create_entry_block_alloca(func, var_name, type)]: the [alloca] is
    created by a builder that stands at the beginning of the entry block
    of the function, the first block of its list. *)
Definition create_entry_block_alloca (var_name : string) (type : LLVM.Type_)
  : CG LLVM.Value :=
  id ← lift fresh;
  let a := AllocaInst id var_name type in
  b ← gets (fun b => b);
  match layout b with
  | entry :: _ =>
      _ ← modify (fun b =>
             mkBuilder (<[entry := Yield a :: block_insts b entry]> (blocks b))
                       (layout b) (insert_block b)
                       (next_block b) (next_inst b));
      mret a
  | [] => undefined
  end.

(** [llvm_type_info]. *)
Record llvm_type_info := mk_llvm_type_info {
  type_ : LLVM.Type_;
  type_is_signed : bool
}.

(** [codegen_common::typename_to_type(type, is_ptr)]. *)
Definition typename_to_type (type : type_name) (is_ptr : bool)
  : llvm_type_info :=
  let tmp :=
    match type with
    | void_ => mk_llvm_type_info VoidTy false
    | i8 => mk_llvm_type_info (IntegerTy 8) true
    | u8 => mk_llvm_type_info (IntegerTy 8) false
    | i16 => mk_llvm_type_info (IntegerTy 16) true
    | u16 => mk_llvm_type_info (IntegerTy 16) false
    | i32 => mk_llvm_type_info (IntegerTy 32) true
    | u32 => mk_llvm_type_info (IntegerTy 32) false
    | i64 => mk_llvm_type_info (IntegerTy 64) true
    | u64 => mk_llvm_type_info (IntegerTy 64) false
    | bool_ => mk_llvm_type_info (IntegerTy 8) false
    end in
  if is_ptr
  then mk_llvm_type_info (PointerTy (type_ tmp)) (type_is_signed tmp)
  else tmp.

(** [codegen_common::i1_to_boolean(value)]:
    [CastInst::CreateIntegerCast] to the type of [bool_], appended to the
    insertion block; the back end asserts that [value] is an integer. *)
Definition i1_to_boolean (value : LLVM.Value) : CG LLVM.Value :=
  let as_ := typename_to_type bool_ false in
  match getType value with
  | IntegerTy _ =>
      id ← lift fresh;
      let c := CastInst id value (type_ as_) (type_is_signed as_) in
      _ ← modify (Insert (Yield c));
      mret c
  | _ => undefined
  end.

(** [ctx.builder.GetInsertBlock()->getTerminator()], as a test. *)
Definition hasTerminator : CG bool :=
  gets (fun b => match getTerminator b (insert_block b) with
                 | Some _ => true
                 | None => false
                 end).

Definition CreateRet (v : option LLVM.Value) : CG unit :=
  modify (Insert (ReturnInst v)).

(** [llvm::Function] with the names of its arguments. *)
Record function_info := mk_function_info {
  function : Function;
  arg_names : list string;
  internal : bool
}.

(** The operators of the assignments. *)
Definition is_assignment (op : string) : bool :=
  String.eqb op "=" || String.eqb op "+=" || String.eqb op "-="
  || String.eqb op "*=" || String.eqb op "/=" || String.eqb op "%=".

Section Codegen.

(** What the builder of the back end does and this development leaves
    open: [CreateAdd], [CreateSub], [CreateMul], [CreateSDiv] and
    [CreateSRem], by the name of the instruction, and [CreateICmp], by the
    name of the predicate; they give an instruction or, on constants, the
    constant the builder folds them to. *)
Variable CreateArith : string -> LLVM.Value -> LLVM.Value -> CG LLVM.Value.
Variable CreateICmp_ : string -> LLVM.Value -> LLVM.Value -> CG LLVM.Value.

(** [CreateCall(callee, args)]: the back end asserts that the arguments
    have the types of the parameters. *)
Definition CreateCall_checked (f : Function) (args : list LLVM.Value)
  : CG LLVM.Value :=
  if decide (map getType args = arg_types f)
  then CreateCall f args else undefined.

Section Visitors.

(** [common.module] as the visitors read it, and the members [retvar] and
    [end_bb] of the statement visitor. *)
Variable module_ : gmap string function_info.
Variable retvar : option LLVM.Value.
Variable end_bb : nat.

(** The loop that lowers the arguments of a call. *)
Definition lowerArguments (visit : expression -> CG (option LLVM.Value))
  : list expression -> list LLVM.Value -> CG (list LLVM.Value) :=
  fix loop (args : list expression) (args_value : list LLVM.Value) :=
    match args with
    | [] => mret args_value
    | a :: args' =>
        v ← visit a;
        match v with
        | None => undefined
        | Some x => loop args' (args_value ++ [x])
        end
    end.

(** The assignment to the variable [name], its right-hand side lowered
    to [rhs]. *)
Definition assign (scope : symbol_table) (name op : string)
    (rhs : option LLVM.Value) : CG (option LLVM.Value) :=
  match rhs with
  | None => undefined
  | Some rhs =>
      match symbol_table_at scope name with
      | None => throw (UnknownVariableName name)
      | Some var_info =>
          if negb (is_mutable var_info)
          then throw (AssignmentOfReadOnly name)
          else
            match getAllocatedType (inst var_info) with
            | None => undefined
            | Some allocated =>
                let compound (this_op opcode : string) (lhs : LLVM.Value)
                  : CG unit :=
                  if String.eqb op this_op then
                    v ← CreateArith opcode lhs rhs;
                    CreateStore v (inst var_info)
                  else mret tt in
                _ ← (if String.eqb op "="
                     then CreateStore rhs (inst var_info) else mret tt);
                lhs ← CreateLoad allocated (inst var_info);
                _ ← compound "+=" "add" lhs;
                _ ← compound "-=" "sub" lhs;
                _ ← compound "*=" "mul" lhs;
                _ ← compound "/=" "sdiv" lhs;
                _ ← compound "%=" "srem" lhs;
                l ← CreateLoad allocated (inst var_info);
                mret (Some l)
            end
      end
  end.

(** The binary operators that are no assignments. *)
Definition binary (op : string) (lhs rhs : LLVM.Value)
  : CG (option LLVM.Value) :=
  let compare (predicate : string) : CG (option LLVM.Value) :=
    c ← CreateICmp_ predicate lhs rhs;
    v ← i1_to_boolean c;
    mret (Some v) in
  let arith (opcode : string) : CG (option LLVM.Value) :=
    v ← CreateArith opcode lhs rhs; mret (Some v) in
  if String.eqb op "+" then arith "add"
  else if String.eqb op "-" then arith "sub"
  else if String.eqb op "*" then arith "mul"
  else if String.eqb op "/" then arith "sdiv"
  else if String.eqb op "%" then arith "srem"
  else if String.eqb op "==" then compare "eq"
  else if String.eqb op "!=" then compare "ne"
  else if String.eqb op "<" then compare "slt"
  else if String.eqb op ">" then compare "sgt"
  else if String.eqb op "<=" then compare "sle"
  else if String.eqb op ">=" then compare "sge"
  else undefined.

(** [struct expression_visitor], over the scope it holds by reference
    and does not change.  A null [llvm::Value*] is [None]; a failed
    [BOOST_ASSERT] has no defined behaviour. *)
Fixpoint expression_visitor (scope : symbol_table) (e : expression)
  : CG (option LLVM.Value) :=
  match e with
  | nil => undefined
  | uint32 node => mret (Some (ConstantInt_get 32 node))
  | int32 node => mret (Some (ConstantInt_getSigned 32 node))
  | bool_literal node =>
      v ← i1_to_boolean (ConstantInt_get 1 (if node then 1 else 0)%N);
      mret (Some v)
  | string_literal str => mret (Some (GlobalStringPtr str))
  | unary_op_expr op rhs_node =>
      rhs ← expression_visitor scope rhs_node;
      if String.eqb op "+" then mret rhs
      else if String.eqb op "-" then
        match rhs with
        | Some r =>
            v ← CreateArith "sub" (ConstantInt_get 32 0) r; mret (Some v)
        | None => undefined
        end
      else undefined
  | binary_op_expr lhs_node op rhs_node =>
      if is_assignment op then
        match lhs_node with
        | variable_expr name =>
            rhs ← expression_visitor scope rhs_node;
            assign scope name op rhs
        | _ => throw LeftHandSideNotVariable
        end
      else
        lhs ← expression_visitor scope lhs_node;
        rhs ← expression_visitor scope rhs_node;
        match lhs, rhs with
        | Some l, Some r => binary op l r
        | _, _ => undefined
        end
  | variable_expr name =>
      match symbol_table_at scope name with
      | None => throw (UnknownVariable name)
      | Some var_info =>
          match getAllocatedType (inst var_info) with
          | Some allocated =>
              l ← CreateLoad allocated (inst var_info); mret (Some l)
          | None => undefined
          end
      end
  | function_call_expr callee args =>
      match module_ !! callee with
      | None => throw (UnknownFunction callee)
      | Some callee_function =>
          if negb (arg_size (function callee_function) =? length args)%nat
          then throw IncorrectArguments
          else
            args_value ← lowerArguments (expression_visitor scope) args [];
            c ← CreateCall_checked (function callee_function) args_value;
            mret (Some c)
      end
  | cast_expr rhs_node as_node =>
      rhs ← expression_visitor scope rhs_node;
      match rhs with
      | None => undefined
      | Some r =>
          let as_ := typename_to_type (id as_node) (is_ptr as_node) in
          match type_ as_ with
          | IntegerTy bits =>
              c ← CreateIntCast r bits (type_is_signed as_); mret (Some c)
          | _ => undefined
          end
      end
  end.

(** An expression of a statement, which must give a value: [error] is
    thrown for a null one. *)
Definition lower (scope : symbol_table) (e : expression) (error : Error)
  : CG LLVM.Value :=
  v ← expression_visitor scope e;
  match v with
  | Some x => mret x
  | None => throw error
  end.

(** The comparison of a condition with zero:
    [CreateICmp(ICMP_NE, value, ConstantInt::get(bool type, 0))]. *)
Definition to_condition (value : LLVM.Value) : CG LLVM.Value :=
  match type_ (typename_to_type bool_ false) with
  | IntegerTy bits => CreateICmp_ "ne" value (ConstantInt_get bits 0)
  | _ => undefined
  end.

(** [codegen_compound_statement(statements, scope, common, retvar,
    end_bb)], [visit] being the statement visitor: the scope is copied,
    and the loop stops before the first statement that finds a terminator
    in the insertion block. *)
Definition codegen_compound_statement_with
    (visit : symbol_table -> statement -> CG symbol_table)
    (statements : list statement) (scope : symbol_table) : CG unit :=
  (fix loop (statements : list statement) (new_scope : symbol_table)
     : CG unit :=
     match statements with
     | [] => mret tt
     | statement :: statements' =>
         terminated ← hasTerminator;
         if (terminated : bool) then mret tt
         else
           new_scope ← visit new_scope statement;
           loop statements' new_scope
     end) statements scope.

(** [struct statement_visitor]: the member [scope] is a reference, and
    the visitor gives back the scope it leaves. *)
Fixpoint statement_visitor (scope : symbol_table) (s : statement)
    {struct s} : CG symbol_table :=
  match s with
  | statement_nil => mret scope
  | statement_expression node =>
      _ ← lower scope node FailedExpression; mret scope
  | return_statement rhs =>
      _ ← match rhs with
          | Some rhs_node =>
              retval ← lower scope rhs_node FailedReturnValue;
              match retvar with
              | Some slot => CreateStore retval slot
              | None => undefined
              end
          | None => mret tt
          end;
      _ ← CreateBr end_bb;
      mret scope
  | variable_def_statement qualifier name type initializer =>
      if exists_ scope name then throw (Redefinition name)
      else
        let type_info := typename_to_type (id type) (is_ptr type) in
        inst ← create_entry_block_alloca name (type_ type_info);
        _ ← match initializer with
            | Some init =>
                v ← lower scope init (InitializationFailed name);
                CreateStore v inst
            | None => mret tt
            end;
        match qualifier with
        | None =>
            mret (regist scope name
                    (mk_variable_info inst false (type_is_signed type_info)))
        | Some mutable_ =>
            mret (regist scope name
                    (mk_variable_info inst true (type_is_signed type_info)))
        end
  | if_statement condition then_statement else_statement =>
      condition_value ← lower scope condition InvalidCondition;
      condition_value ← to_condition condition_value;
      then_bb ← lift (BasicBlock_Create true);
      else_bb ← lift (BasicBlock_Create false);
      merge_bb ← lift (BasicBlock_Create false);
      _ ← CreateCondBr condition_value then_bb else_bb;
      _ ← modify (SetInsertPoint then_bb);
      _ ← codegen_compound_statement_with statement_visitor
            then_statement scope;
      terminated ← hasTerminator;
      _ ← (if (terminated : bool) then mret tt else CreateBr merge_bb);
      _ ← modify (push_back else_bb);
      _ ← modify (SetInsertPoint else_bb);
      _ ← match else_statement with
          | Some statements =>
              codegen_compound_statement_with statement_visitor
                statements scope
          | None => mret tt
          end;
      terminated ← hasTerminator;
      _ ← (if (terminated : bool) then mret tt else CreateBr merge_bb);
      _ ← modify (push_back merge_bb);
      _ ← modify (SetInsertPoint merge_bb);
      mret scope
  | for_statement init_expression cond_expression loop_expression body =>
      _ ← match init_expression with
          | Some e => _ ← lower scope e FailedInitExpression; mret tt
          | None => mret tt
          end;
      cond_bb ← lift (BasicBlock_Create true);
      loop_bb ← lift (BasicBlock_Create false);
      body_bb ← lift (BasicBlock_Create false);
      for_end_bb ← lift (BasicBlock_Create false);
      _ ← CreateBr cond_bb;
      _ ← modify (SetInsertPoint cond_bb);
      _ ← match cond_expression with
          | Some e =>
              cond_value ← lower scope e FailedCondExpression;
              cond_value ← to_condition cond_value;
              CreateCondBr cond_value body_bb for_end_bb
          | None =>
              CreateCondBr (ConstantInt_get 1 1) body_bb for_end_bb
          end;
      _ ← modify (push_back body_bb);
      _ ← modify (SetInsertPoint body_bb);
      _ ← codegen_compound_statement_with statement_visitor body scope;
      _ ← CreateBr loop_bb;
      _ ← modify (push_back loop_bb);
      _ ← modify (SetInsertPoint loop_bb);
      _ ← match loop_expression with
          | Some e => _ ← lower scope e FailedLoopExpression; mret tt
          | None => mret tt
          end;
      _ ← CreateBr cond_bb;
      _ ← modify (push_back for_end_bb);
      _ ← modify (SetInsertPoint for_end_bb);
      mret scope
  end.

Definition codegen_compound_statement
  : list statement -> symbol_table -> CG unit :=
  codegen_compound_statement_with statement_visitor.

(** *** Properties of the visitors *)

(** An expression that is lowered gives a value: the visitor never
    returns null. *)
Lemma expression_visitor_value (scope : symbol_table) (e : expression) :
  forall b v b', expression_visitor scope e b = Ok v b' -> v <> None.
Proof.
  induction e as [|n|n|n|s|op r IHr|l IHl op r IHr|name|callee args|r IHr as_];
    intros b v b' H; simpl in H; unfold mbind, M_bind in H.
  - discriminate.
  - injection H as <- _. discriminate.
  - injection H as <- _. discriminate.
  - apply bind_Ok_inv in H as (x & b1 & _ & H). injection H as <- _.
    discriminate.
  - injection H as <- _. discriminate.
  - apply bind_Ok_inv in H as (rhs & b1 & Hr & H).
    destruct (String.eqb op "+").
    + injection H as <- _. exact (IHr _ _ _ Hr).
    + destruct (String.eqb op "-"); [|discriminate].
      destruct rhs as [x|]; [|discriminate].
      apply bind_Ok_inv in H as (y & b2 & _ & H). injection H as <- _.
      discriminate.
  - destruct (is_assignment op).
    + destruct l; try discriminate.
      apply bind_Ok_inv in H as (rhs & b1 & _ & H).
      unfold assign in H. destruct rhs as [x|]; [|discriminate].
      destruct (symbol_table_at scope name); [|discriminate].
      destruct (negb (is_mutable v0)); [discriminate|].
      destruct (getAllocatedType (inst v0)); [|discriminate].
      unfold mbind, M_bind in H.
      repeat (apply bind_Ok_inv in H as (? & ? & _ & H)).
      injection H as <- _. discriminate.
    + apply bind_Ok_inv in H as (lhs & b1 & _ & H).
      apply bind_Ok_inv in H as (rhs & b2 & _ & H).
      destruct lhs as [x|]; [|discriminate].
      destruct rhs as [y|]; [|discriminate].
      unfold binary, mbind, M_bind in H.
      repeat match type of H with
             | (if ?c then _ else _) _ = _ => destruct c
             end;
        try discriminate;
        repeat (apply bind_Ok_inv in H as (? & ? & _ & H));
        injection H as <- _; discriminate.
  - destruct (symbol_table_at scope name); [|discriminate].
    destruct (getAllocatedType (inst v0)); [|discriminate].
    apply bind_Ok_inv in H as (x & b1 & _ & H). injection H as <- _.
    discriminate.
  - destruct (module_ !! callee); [|discriminate].
    destruct (negb _); [discriminate|].
    apply bind_Ok_inv in H as (vs & b1 & _ & H).
    apply bind_Ok_inv in H as (c & b2 & _ & H). injection H as <- _.
    discriminate.
  - apply bind_Ok_inv in H as (rhs & b1 & _ & H).
    destruct rhs as [x|]; [|discriminate].
    destruct (type_ _); try discriminate.
    apply bind_Ok_inv in H as (c & b2 & _ & H). injection H as <- _.
    discriminate.
Qed.


(** X21: an assignment to a mutable variable.  The right-hand side is
    lowered, the value is stored in the slot of the variable, and the
    value of the expression is a new load of the slot; a load the visitor
    makes between the two is left in the block.  The slot is the only
    address the assignment stores to. *)
Theorem direct_assignment (scope : symbol_table) (name : string)
    (rhs : expression) (b b1 : Builder) (r : LLVM.Value)
    (var_info : variable_info) (allocated : LLVM.Type_) :
  expression_visitor scope rhs b = Ok (Some r) b1 ->
  symbol_table_at scope name = Some var_info ->
  is_mutable var_info = true ->
  getAllocatedType (inst var_info) = Some allocated ->
  let slot := inst var_info in
  let unused := LoadInst (next_inst b1) allocated slot in
  let result := LoadInst (S (next_inst b1)) allocated slot in
  exists b2,
    expression_visitor scope
      (binary_op_expr (variable_expr name) "=" rhs) b
    = Ok (Some result) b2
    /\ block_insts b2 (insert_block b1)
       = block_insts b1 (insert_block b1)
         ++ [StoreInst r slot; Yield unused; Yield result]
    /\ (forall bb, bb <> insert_block b1 ->
          block_insts b2 bb = block_insts b1 bb).
Proof.
  intros Hrhs Hvar Hmut Halloc slot unused result.
  eexists. split; [|split].
  - simpl. unfold mbind, M_bind. rewrite (bind_Ok _ _ _ _ _ Hrhs).
    unfold assign. rewrite Hvar, Hmut, Halloc. simpl. reflexivity.
  - repeat first [ rewrite lookup_insert_eq | progress simpl
                 | progress unfold block_insts, Insert, fresh ].
    rewrite <- !app_assoc. reflexivity.
  - intros bb Hbb.
    repeat first [ rewrite lookup_insert_ne by congruence | progress simpl
                 | progress unfold block_insts, Insert, fresh ].
    reflexivity.
Qed.

(** *** What the visitors add to the blocks *)

Section Keeps.
Variable Q : Instruction -> Prop.
Hypothesis Q_Yield : forall v, Q (Yield v).
Hypothesis CreateArith_keeps :
  forall opcode l r, keeps Q (CreateArith opcode l r).
Hypothesis CreateICmp_keeps :
  forall predicate l r, keeps Q (CreateICmp_ predicate l r).

Lemma keeps_Ok {A : Type} (m : CG A) (b b' : Builder) (a : A) :
  keeps Q m -> all_insts Q b -> m b = Ok a b' -> all_insts Q b'.
Proof. intros Hm Hb Hrun. specialize (Hm b Hb). rewrite Hrun in Hm. exact Hm. Qed.

Lemma keeps_i1_to_boolean (v : LLVM.Value) : keeps Q (i1_to_boolean v).
Proof.
  unfold i1_to_boolean. destruct (getType v); try apply keeps_undefined.
  intros b Hb. apply all_insts_Insert; [apply Q_Yield|exact Hb].
Qed.

Lemma keeps_CreateStore (v ptr : LLVM.Value) :
  Q (StoreInst v ptr) -> keeps Q (CreateStore v ptr : CG unit).
Proof. apply keeps_Insert. Qed.

Lemma keeps_hasTerminator : keeps Q hasTerminator.
Proof. apply keeps_gets. Qed.

Lemma keeps_create_entry_block_alloca (name : string) (type : LLVM.Type_) :
  keeps Q (create_entry_block_alloca name type).
Proof.
  intros b Hb. unfold create_entry_block_alloca, mbind, M_bind, bind, lift,
    gets, modify. simpl.
  destruct (layout b) as [|entry rest]; [exact I|]. simpl.
  intros bb i Hi. unfold block_insts in Hi. simpl in Hi.
  destruct (decide (bb = entry)) as [->|Hne].
  - rewrite lookup_insert_eq in Hi. simpl in Hi.
    apply elem_of_cons in Hi as [->|Hi]; [apply Q_Yield|exact (Hb _ _ Hi)].
  - rewrite lookup_insert_ne in Hi by congruence. exact (Hb _ _ Hi).
Qed.

Lemma keeps_CreateCall_checked (f : Function) (args : list LLVM.Value) :
  keeps Q (CreateCall_checked f args).
Proof.
  unfold CreateCall_checked. destruct (decide _);
    [apply keeps_CreateCall, Q_Yield|apply keeps_undefined].
Qed.

Lemma keeps_lowerArguments
    (visit : expression -> CG (option LLVM.Value)) (args : list expression) :
  Forall (fun e => keeps Q (visit e)) args ->
  forall acc, keeps Q (lowerArguments visit args acc).
Proof.
  induction 1 as [|a args Ha _ IH]; intros acc; simpl.
  - apply keeps_mret.
  - apply keeps_mbind; [exact Ha|]. intros [x|];
      [apply IH|apply keeps_undefined].
Qed.

Ltac keeps_step :=
  first
    [ assumption
    | apply keeps_mret | apply keeps_throw | apply keeps_undefined
    | apply keeps_hasTerminator
    | apply keeps_CreateLoad; apply Q_Yield
    | apply keeps_CreateIntCast; apply Q_Yield
    | apply keeps_CreateCall_checked
    | apply keeps_i1_to_boolean
    | apply keeps_create_entry_block_alloca
    | apply CreateArith_keeps | apply CreateICmp_keeps
    | apply keeps_BasicBlock_Create
    | apply keeps_SetInsertPoint | apply keeps_push_back
    | apply keeps_mbind; [|intros ?] ].

(** The expressions, under a scope to whose mutable variables a store
    has the property. *)
Lemma expression_visitor_keeps (scope : symbol_table) :
  (forall v name var_info,
     symbol_table_at scope name = Some var_info ->
     is_mutable var_info = true -> Q (StoreInst v (inst var_info))) ->
  forall e, keeps Q (expression_visitor scope e).
Proof.
  intros Q_Store.
  induction e as [|n|n|n|s|op r IHr|l op r IHl IHr|name|callee args IH
                  |r as_ IHr] using expression_rect_nested; simpl.
  - apply keeps_undefined.
  - apply keeps_mret.
  - apply keeps_mret.
  - repeat keeps_step.
  - apply keeps_mret.
  - apply keeps_mbind; [exact IHr|intros rhs].
    destruct (String.eqb op "+"); [apply keeps_mret|].
    destruct (String.eqb op "-"); [|apply keeps_undefined].
    destruct rhs; repeat keeps_step.
  - destruct (is_assignment op).
    + destruct l; try apply keeps_throw.
      apply keeps_mbind; [exact IHr|intros rhs].
      unfold assign. destruct rhs as [x|]; [|apply keeps_undefined].
      destruct (symbol_table_at scope name) as [var_info|] eqn:Hvar;
        [|apply keeps_throw].
      destruct (is_mutable var_info) eqn:Hmut; simpl; [|apply keeps_throw].
      destruct (getAllocatedType (inst var_info)); [|apply keeps_undefined].
      assert (HS : forall v, keeps Q (CreateStore v (inst var_info) : CG unit)).
      { intros v. apply keeps_CreateStore. exact (Q_Store v _ _ Hvar Hmut). }
      repeat first
        [ apply HS
        | match goal with
          | |- keeps _ (if ?c then _ else _) => destruct c
          end
        | keeps_step ].
    + apply keeps_mbind; [exact IHl|intros lhs].
      apply keeps_mbind; [exact IHr|intros rhs].
      destruct lhs as [x|]; [|apply keeps_undefined].
      destruct rhs as [y|]; [|apply keeps_undefined].
      unfold binary.
      repeat first
        [ match goal with
          | |- keeps _ (if ?c then _ else _) => destruct c
          end
        | keeps_step ].
  - destruct (symbol_table_at scope name) as [var_info|];
      [|apply keeps_throw].
    destruct (getAllocatedType (inst var_info)); repeat keeps_step.
  - destruct (module_ !! callee) as [f|]; [|apply keeps_throw].
    destruct (negb _); [apply keeps_throw|].
    apply keeps_mbind; [apply keeps_lowerArguments, IH|intros vs].
    repeat keeps_step.
  - apply keeps_mbind; [exact IHr|intros rhs].
    destruct rhs as [x|]; [|apply keeps_undefined].
    destruct (type_ _); repeat keeps_step.
Qed.

(** The statements: here every store and every branch has the
    property. *)
Hypothesis Q_Store : forall v ptr, Q (StoreInst v ptr).
Hypothesis Q_Branch : forall dest, Q (BranchInst dest).
Hypothesis Q_CondBranch :
  forall cond iftrue iffalse, Q (CondBranchInst cond iftrue iffalse).

Lemma keeps_lower (scope : symbol_table) (e : expression) (error : Error) :
  keeps Q (lower scope e error).
Proof.
  unfold lower. apply keeps_mbind.
  - apply expression_visitor_keeps. intros; apply Q_Store.
  - intros [x|]; [apply keeps_mret|apply keeps_throw].
Qed.

Lemma keeps_to_condition (value : LLVM.Value) : keeps Q (to_condition value).
Proof. unfold to_condition. simpl. apply CreateICmp_keeps. Qed.

Lemma keeps_CreateBr (dest : nat) : keeps Q (CreateBr dest : CG unit).
Proof. apply keeps_Insert, Q_Branch. Qed.

Lemma keeps_CreateCondBr (cond : LLVM.Value) (t f : nat) :
  keeps Q (CreateCondBr cond t f : CG unit).
Proof. apply keeps_Insert, Q_CondBranch. Qed.

Lemma keeps_codegen_compound_statement_with
    (visit : symbol_table -> statement -> CG symbol_table)
    (statements : list statement) :
  Forall (fun s => forall scope, keeps Q (visit scope s)) statements ->
  forall scope, keeps Q (codegen_compound_statement_with visit statements scope).
Proof.
  unfold codegen_compound_statement_with.
  induction 1 as [|s statements Hs _ IH]; intros scope.
  - apply keeps_mret.
  - apply keeps_mbind; [apply keeps_hasTerminator|intros terminated].
    destruct terminated; [apply keeps_mret|].
    apply keeps_mbind; [apply Hs|intros scope']. apply IH.
Qed.

Ltac keeps_statement_step :=
  first
    [ apply keeps_lower | apply keeps_to_condition
    | apply keeps_CreateBr | apply keeps_CreateCondBr
    | apply keeps_CreateStore; apply Q_Store
    | match goal with
      | |- keeps _ (if ?c then _ else _) => destruct c
      | |- keeps _ (match ?x with _ => _ end) => destruct x
      end
    | keeps_step ].

Lemma statement_visitor_keeps (s : statement) :
  forall scope, keeps Q (statement_visitor scope s).
Proof.
  induction s as [|e|rhs|q n t i|c then_ else_ IHthen IHelse|i c l body IHbody]
    using statement_rect_nested; intros scope; simpl.
  - apply keeps_mret.
  - repeat keeps_statement_step.
  - repeat keeps_statement_step.
  - destruct (exists_ scope n); [apply keeps_throw|].
    repeat keeps_statement_step.
  - pose proof (keeps_codegen_compound_statement_with
                  statement_visitor then_ IHthen scope) as Hthen.
    assert (Helse : keeps Q
      match else_ with
      | Some statements =>
          codegen_compound_statement_with statement_visitor statements scope
      | None => mret tt
      end).
    { destruct else_ as [statements|]; [|apply keeps_mret].
      exact (keeps_codegen_compound_statement_with
               statement_visitor statements IHelse scope). }
    repeat first [ exact Hthen | exact Helse | keeps_statement_step ].
  - pose proof (keeps_codegen_compound_statement_with
                  statement_visitor body IHbody scope) as Hbody.
    repeat first [ exact Hbody | keeps_statement_step ].
Qed.

Lemma codegen_compound_statement_keeps (statements : list statement)
    (scope : symbol_table) :
  keeps Q (codegen_compound_statement statements scope).
Proof.
  apply keeps_codegen_compound_statement_with.
  apply Forall_forall. intros s _. apply statement_visitor_keeps.
Qed.

End Keeps.

(** X22: an expression never stores to a variable that was not defined
    [mutable].  Every instruction that is in a block after an expression
    was lowered, or failed to, was there before, or gives a value, or is a
    store to the slot of a mutable variable of the scope: no terminator is
    added, and no other store.  The instructions of the builder's
    arithmetic and comparisons, which are left open, are assumed to give
    values. *)
Theorem expression_stores_to_mutable_only (scope : symbol_table)
    (e : expression) (b : Builder) :
  (forall Q : Instruction -> Prop, (forall v, Q (Yield v)) ->
     forall opcode l r, keeps Q (CreateArith opcode l r)) ->
  (forall Q : Instruction -> Prop, (forall v, Q (Yield v)) ->
     forall predicate l r, keeps Q (CreateICmp_ predicate l r)) ->
  match expression_visitor scope e b with
  | Ok _ b' | Throw _ b' =>
      forall bb i, i ∈ block_insts b' bb ->
        (exists bb0, i ∈ block_insts b bb0)
        \/ (exists v, i = Yield v)
        \/ (exists v name var_info,
              i = StoreInst v (inst var_info)
              /\ symbol_table_at scope name = Some var_info
              /\ is_mutable var_info = true)
  | Undefined => True
  end.
Proof.
  intros HArith HICmp.
  set (Q := fun i : Instruction =>
    (exists bb0, i ∈ block_insts b bb0)
    \/ (exists v, i = Yield v)
    \/ (exists v name var_info,
          i = StoreInst v (inst var_info)
          /\ symbol_table_at scope name = Some var_info
          /\ is_mutable var_info = true)).
  assert (Q_Yield : forall v, Q (Yield v)).
  { intros v. right. left. exists v. reflexivity. }
  apply (expression_visitor_keeps Q Q_Yield (HArith Q Q_Yield)
           (HICmp Q Q_Yield) scope).
  - intros v name var_info Hvar Hmut. right. right.
    exists v, name, var_info. auto.
  - intros bb i Hi. left. exists bb. exact Hi.
Qed.

Lemma create_entry_block_alloca_Ok (name : string) (type : LLVM.Type_)
    (b b' : Builder) (a : LLVM.Value) :
  create_entry_block_alloca name type b = Ok a b' ->
  a = AllocaInst (next_inst b) name type.
Proof.
  unfold create_entry_block_alloca, mbind, M_bind, bind, lift, gets, modify.
  simpl. destruct (layout b); [discriminate|]. simpl.
  intros H. injection H as <- _. reflexivity.
Qed.

(** X23: what a statement does to the scope.  A definition of a
    variable whose name is in scope, were it defined in an enclosing block,
    is refused: the visitor throws the error of a redefinition, with the
    builder as it was, so that a name is never shadowed and nothing is
    emitted.  A definition that is lowered found no variable of its name
    and binds the name to a new slot of the type it names, mutable exactly
    when the definition has the qualifier, with the signedness of the
    type.  No other statement that is lowered changes the scope: what the
    blocks of an [if] or a [for] define is not in scope after them. *)
Theorem statement_scope (scope : symbol_table) (b : Builder) :
  (forall (qualifier : option variable_qualifier) (name : string)
          (type : type_info) (initializer : option expression)
          (var_info : variable_info),
     symbol_table_at scope name = Some var_info ->
     statement_visitor scope
       (variable_def_statement qualifier name type initializer) b
     = Throw (Redefinition name) b)
  /\ (forall (s : statement) (scope' : symbol_table) (b' : Builder),
        statement_visitor scope s b = Ok scope' b' ->
        match s with
        | variable_def_statement qualifier name type _ =>
            let type_info := typename_to_type (id type) (is_ptr type) in
            symbol_table_at scope name = None
            /\ scope'
               = <[name := mk_variable_info
                             (AllocaInst (next_inst b) name
                                         (type_ type_info))
                             match qualifier with
                             | Some mutable_ => true
                             | None => false
                             end
                             (type_is_signed type_info)]> scope
        | _ => scope' = scope
        end).
Proof.
  split.
  - intros qualifier name type initializer var_info Hname. simpl.
    unfold exists_, symbol_table_at in *. rewrite Hname. reflexivity.
  - intros s scope' b' H.
    destruct s; simpl in H; unfold mbind, M_bind in H.
    + injection H as <- _. reflexivity.
    + apply bind_Ok_inv in H as (? & ? & _ & H). injection H as <- _.
      reflexivity.
    + repeat (apply bind_Ok_inv in H as (? & ? & _ & H)).
      injection H as <- _. reflexivity.
    + unfold exists_, symbol_table_at in *.
      destruct (scope !! name) eqn:Hname; [discriminate|].
      split; [reflexivity|].
      apply bind_Ok_inv in H as (slot & b1 & Hslot & H).
      apply create_entry_block_alloca_Ok in Hslot. subst slot.
      apply bind_Ok_inv in H as ([] & b2 & _ & H).
      unfold regist in H. rewrite Hname in H.
      destruct qualifier as [[]|]; injection H as <- _; reflexivity.
    + repeat (apply bind_Ok_inv in H as (? & ? & _ & H)).
      injection H as <- _. reflexivity.
    + repeat (apply bind_Ok_inv in H as (? & ? & _ & H)).
      injection H as <- _. reflexivity.
Qed.

(** The loop of [codegen_compound_statement], one statement on. *)
Lemma codegen_compound_statement_cons (s : statement)
    (statements : list statement) (scope : symbol_table) :
  codegen_compound_statement (s :: statements) scope
  = (terminated ← hasTerminator;
     if (terminated : bool) then mret tt
     else
       new_scope ← statement_visitor scope s;
       codegen_compound_statement statements new_scope).
Proof. reflexivity. Qed.

Lemma hasTerminator_after_BranchInst (dest : nat) (b : Builder) :
  hasTerminator (Insert (BranchInst dest) b)
  = Ok true (Insert (BranchInst dest) b).
Proof.
  unfold hasTerminator, gets.
  change (insert_block (Insert (BranchInst dest) b)) with (insert_block b).
  rewrite getTerminator_Insert. reflexivity.
Qed.

Lemma return_statement_terminates (scope scope' : symbol_table)
    (rhs : option expression) (b b' : Builder) :
  statement_visitor scope (return_statement rhs) b = Ok scope' b' ->
  hasTerminator b' = Ok true b'.
Proof.
  simpl. unfold mbind, M_bind. intros H.
  apply bind_Ok_inv in H as ([] & b1 & _ & H).
  apply bind_Ok_inv in H as ([] & b2 & Hbr & H).
  injection H as _ <-. unfold CreateBr, modify in Hbr. injection Hbr as <-.
  apply hasTerminator_after_BranchInst.
Qed.

(** X24: the statements that follow a [return] in a block are never
    lowered: a block lowers as if it ended with its first [return],
    whatever comes after it. *)
Theorem codegen_compound_statement_stops_at_return
    (before after : list statement) (rhs : option expression) :
  forall (scope : symbol_table) (b : Builder),
    codegen_compound_statement (before ++ return_statement rhs :: after)
                               scope b
    = codegen_compound_statement (before ++ [return_statement rhs]) scope b.
Proof.
  induction before as [|s before IH]; intros scope b; cbn [app];
    rewrite !codegen_compound_statement_cons; unfold mbind, M_bind, bind.
  - destruct (hasTerminator b) as [[|] b0| |]; try reflexivity.
    destruct (statement_visitor scope (return_statement rhs) b0)
      as [scope' b'| |] eqn:Hvisit; try reflexivity.
    pose proof (return_statement_terminates _ _ _ _ _ Hvisit) as Hterm.
    destruct after as [|s after]; [reflexivity|].
    rewrite codegen_compound_statement_cons. unfold mbind, M_bind, bind.
    rewrite Hterm. reflexivity.
  - destruct (hasTerminator b) as [[|] b0| |]; try reflexivity.
    destruct (statement_visitor scope s b0) as [scope' b'| |];
      try reflexivity.
    apply IH.
Qed.

(** *** What the visitors throw *)

(** The errors of the checks: of the names, of the assignments, of the
    calls and of the definitions. *)
Definition is_check_error (e : Error) : bool :=
  match e with
  | UnknownVariableName _ | AssignmentOfReadOnly _ | LeftHandSideNotVariable
  | UnknownVariable _ | UnknownFunction _ | IncorrectArguments
  | Redefinition _ => true
  | _ => false
  end.

(** A lowering step throws an error of the checks, if it throws. *)
Definition throws_checks {A : Type} (m : CG A) : Prop :=
  forall b e b', m b = Throw e b' -> is_check_error e = true.

Lemma throws_checks_bind {A B : Type} (m : CG A) (k : A -> CG B) :
  throws_checks m -> (forall a, throws_checks (k a)) ->
  throws_checks (m ≫= k).
Proof.
  intros Hm Hk b e b' H. unfold mbind, M_bind, bind in H.
  destruct (m b) as [a b1|e1 b1|] eqn:Hrun; [| |discriminate].
  - exact (Hk a b1 e b' H).
  - inversion H; subst. exact (Hm b e b' Hrun).
Qed.

Lemma throws_checks_total {A : Type} (m : CG A) :
  (forall b e b', m b <> Throw e b') -> throws_checks m.
Proof. intros Hm b e b' H. destruct (Hm b e b' H). Qed.

Lemma throws_checks_mret {A : Type} (a : A) : throws_checks (mret a).
Proof. intros b e b' H. discriminate. Qed.

Lemma throws_checks_undefined {A : Type} : throws_checks (undefined : CG A).
Proof. intros b e b' H. discriminate. Qed.

Lemma throws_checks_throw {A : Type} (e : Error) :
  is_check_error e = true -> throws_checks (throw e : CG A).
Proof. intros He b e' b' H. inversion H; subst. exact He. Qed.

Lemma throws_checks_modify (f : Builder -> Builder) :
  throws_checks (modify f : CG unit).
Proof. intros b e b' H. discriminate. Qed.

Lemma throws_checks_lift {A : Type} (f : Builder -> A * Builder) :
  throws_checks (lift f : CG A).
Proof.
  intros b e b' H. unfold lift in H. destruct (f b). discriminate.
Qed.

Lemma throws_checks_gets {A : Type} (f : Builder -> A) :
  throws_checks (gets f : CG A).
Proof. intros b e b' H. discriminate. Qed.

Lemma throws_checks_CreateLoad (ty : LLVM.Type_) (ptr : LLVM.Value) :
  throws_checks (CreateLoad ty ptr).
Proof. intros b e b' H. discriminate. Qed.

Lemma throws_checks_CreateIntCast (V : LLVM.Value) (dest : N)
    (is_signed : bool) :
  throws_checks (CreateIntCast V dest is_signed).
Proof.
  intros b e b' H. unfold CreateIntCast in H.
  destruct (getType V); try discriminate.
  destruct (bits =? dest)%N; [discriminate|].
  destruct V; discriminate.
Qed.

Lemma throws_checks_CreateCall_checked (f : Function)
    (args : list LLVM.Value) :
  throws_checks (CreateCall_checked f args).
Proof.
  intros b e b' H. unfold CreateCall_checked in H.
  destruct (decide _); discriminate.
Qed.

Lemma throws_checks_i1_to_boolean (v : LLVM.Value) :
  throws_checks (i1_to_boolean v).
Proof.
  intros b e b' H. unfold i1_to_boolean in H.
  destruct (getType v); discriminate.
Qed.

Lemma throws_checks_create_entry_block_alloca (name : string)
    (type : LLVM.Type_) :
  throws_checks (create_entry_block_alloca name type).
Proof.
  intros b e b' H.
  unfold create_entry_block_alloca, mbind, M_bind, bind, lift, gets in H.
  simpl in H. destruct (layout b); discriminate.
Qed.

Lemma throws_checks_lowerArguments
    (visit : expression -> CG (option LLVM.Value)) (args : list expression) :
  Forall (fun e => throws_checks (visit e)) args ->
  forall acc, throws_checks (lowerArguments visit args acc).
Proof.
  induction 1 as [|a args Ha _ IH]; intros acc; simpl.
  - apply throws_checks_mret.
  - apply throws_checks_bind; [exact Ha|]. intros [x|];
      [apply IH|apply throws_checks_undefined].
Qed.

Section Throws.
Hypothesis CreateArith_never_throws :
  forall opcode l r b e b', CreateArith opcode l r b <> Throw e b'.
Hypothesis CreateICmp_never_throws :
  forall predicate l r b e b', CreateICmp_ predicate l r b <> Throw e b'.

Ltac throws_step :=
  first
    [ assumption
    | apply throws_checks_mret | apply throws_checks_undefined
    | apply throws_checks_throw; reflexivity
    | apply throws_checks_modify | apply throws_checks_lift
    | apply throws_checks_gets
    | apply throws_checks_CreateLoad | apply throws_checks_CreateIntCast
    | apply throws_checks_CreateCall_checked
    | apply throws_checks_i1_to_boolean
    | apply throws_checks_create_entry_block_alloca
    | apply throws_checks_total; apply CreateArith_never_throws
    | apply throws_checks_total; apply CreateICmp_never_throws
    | match goal with
      | |- throws_checks (if ?c then _ else _) => destruct c
      | |- throws_checks (match ?x with _ => _ end) => destruct x
      end
    | apply throws_checks_bind; [|intros ?] ].

Lemma expression_visitor_throws (scope : symbol_table) (e : expression) :
  throws_checks (expression_visitor scope e).
Proof.
  induction e as [|n|n|n|s|op r IHr|l op r IHl IHr|name|callee args IH
                  |r as_ IHr] using expression_rect_nested; simpl.
  - apply throws_checks_undefined.
  - apply throws_checks_mret.
  - apply throws_checks_mret.
  - repeat throws_step.
  - apply throws_checks_mret.
  - apply throws_checks_bind; [exact IHr|intros rhs]. repeat throws_step.
  - destruct (is_assignment op).
    + destruct l; try (apply throws_checks_throw; reflexivity).
      apply throws_checks_bind; [exact IHr|intros rhs].
      unfold assign, CreateStore. repeat throws_step.
    + apply throws_checks_bind; [exact IHl|intros lhs].
      apply throws_checks_bind; [exact IHr|intros rhs].
      unfold binary. repeat throws_step.
  - repeat throws_step.
  - destruct (module_ !! callee) as [f|];
      [|apply throws_checks_throw; reflexivity].
    destruct (negb _); [apply throws_checks_throw; reflexivity|].
    apply throws_checks_bind;
      [apply throws_checks_lowerArguments, IH|intros vs].
    repeat throws_step.
  - apply throws_checks_bind; [exact IHr|intros rhs]. repeat throws_step.
Qed.

(** The error of a statement whose expression gave no value is never
    thrown, since the expression visitor never gives a null value. *)
Lemma lower_throws (scope : symbol_table) (e : expression) (error : Error) :
  throws_checks (lower scope e error).
Proof.
  intros b e' b' H. unfold lower, mbind, M_bind, bind in H.
  destruct (expression_visitor scope e b) as [v b1|e1 b1|] eqn:Hrun;
    [| |discriminate].
  - destruct v as [x|]; [discriminate|].
    destruct (expression_visitor_value _ _ _ _ _ Hrun eq_refl).
  - inversion H; subst. exact (expression_visitor_throws _ _ _ _ _ Hrun).
Qed.

Lemma codegen_compound_statement_with_throws
    (visit : symbol_table -> statement -> CG symbol_table)
    (statements : list statement) :
  Forall (fun s => forall scope, throws_checks (visit scope s)) statements ->
  forall scope,
    throws_checks (codegen_compound_statement_with visit statements scope).
Proof.
  unfold codegen_compound_statement_with.
  induction 1 as [|s statements Hs _ IH]; intros scope.
  - apply throws_checks_mret.
  - apply throws_checks_bind; [apply throws_checks_gets|intros terminated].
    destruct terminated; [apply throws_checks_mret|].
    apply throws_checks_bind; [apply Hs|intros scope']. apply IH.
Qed.

Ltac throws_statement_step :=
  first
    [ apply lower_throws
    | unfold to_condition, CreateStore, CreateBr, CreateCondBr, hasTerminator;
      throws_step ].

(** X26: the errors a statement can throw.  A statement throws, if it
    throws, one of the errors of the checks: an unknown variable or
    function, an assignment to a variable that is read-only or to what is
    no variable, a call with a wrong number of arguments, or a
    redefinition.  The errors of an expression that failed to generate, of
    a return value, an initialization, a condition of an [if], or an
    expression of a [for], are never thrown.  The builder's arithmetic and
    comparisons, which are left open, are assumed not to throw. *)
Theorem statement_visitor_throws (s : statement) :
  forall (scope : symbol_table) (b b' : Builder) (e : Error),
    statement_visitor scope s b = Throw e b' ->
    is_check_error e = true.
Proof.
  enough (H : forall scope, throws_checks (statement_visitor scope s)).
  { intros scope b b' e Hthrow. exact (H scope b e b' Hthrow). }
  induction s as [|e|rhs|q n t i|c then_ else_ IHthen IHelse|i c l body IHbody]
    using statement_rect_nested; intros scope; simpl.
  - apply throws_checks_mret.
  - repeat throws_statement_step.
  - repeat throws_statement_step.
  - repeat throws_statement_step.
  - pose proof (codegen_compound_statement_with_throws
                  statement_visitor then_ IHthen scope) as Hthen.
    assert (Helse : throws_checks
      match else_ with
      | Some statements =>
          codegen_compound_statement_with statement_visitor statements scope
      | None => mret tt
      end).
    { destruct else_ as [statements|]; [|apply throws_checks_mret].
      exact (codegen_compound_statement_with_throws
               statement_visitor statements IHelse scope). }
    repeat first [ exact Hthen | exact Helse | throws_statement_step ].
  - pose proof (codegen_compound_statement_with_throws
                  statement_visitor body IHbody scope) as Hbody.
    repeat first [ exact Hbody | throws_statement_step ].
Qed.

End Throws.

End Visitors.

(** *** The top level *)

(** What the back end decides and this development leaves open: the
    value [&arg] of an argument of a function, the names the back end gives
    to the arguments that are asked these names (it renames one whose name
    is taken), the verdict of [llvm::verifyFunction], an error message or
    none, and what the passes of [function_pm] make of a function. *)
Variable arg_value : string -> nat -> LLVM.Value.
Variable unique_names : list string -> list string.
Variable verifyFunction : Builder -> option string.
Variable function_pm_run : Builder -> Builder.

(** [top_level_stmt_visitor::operator()(const ast::function_declare&)]:
    the function the declaration creates.  The return type is looked up
    without [is_ptr]. *)
Definition declare (node : function_declare) : function_info :=
  let param_types :=
    map (fun p => type_ (typename_to_type (id (param_type p))
                                          (is_ptr (param_type p))))
        (params node) in
  mk_function_info
    (mkFunction (decl_name node) param_types false
                (type_ (typename_to_type (id (return_type node)) false)))
    (unique_names (map param_name (params node)))
    (match linkage node with None => false | Some private_ => true end).

(** The loop over the arguments of a function that is being defined:
    a slot for each, the argument stored in it, and the slot registered
    under the name of the argument. *)
Definition define_arguments (f : function_info) (node : function_declare)
  : CG symbol_table :=
  (fix loop (names : list string) (arg_no : nat)
            (argument_values : symbol_table) : CG symbol_table :=
     match names with
     | [] => mret argument_values
     | name :: names' =>
         match params node !! arg_no with
         | None => undefined
         | Some param_node =>
             inst ← create_entry_block_alloca name
                      (type_ (typename_to_type (id (param_type param_node))
                                               (is_ptr (param_type param_node))));
             _ ← CreateStore (arg_value (fname (function f)) arg_no) inst;
             match param_qualifier param_node with
             | None =>
                 loop names' (S arg_no)
                      (regist argument_values name
                              (mk_variable_info inst false false))
             | Some mutable_ =>
                 loop names' (S arg_no)
                      (regist argument_values name
                              (mk_variable_info inst true false))
             end
         end
     end) (arg_names f) 0%nat ∅.

(** The end of a body that left no terminator: a function that returns
    a value returns [0] when it is [main] and an undefined value
    otherwise, and a function that returns nothing just goes to its end. *)
Definition default_return (f : function_info) (node : function_declare)
    (retvar : option LLVM.Value) (end_bb : nat) : CG unit :=
  terminated ← hasTerminator;
  _ ← (if negb terminated
          && negb (is_void (id (return_type node)))
       then
         match retvar with
         | Some slot =>
             if String.eqb (decl_name node) "main" then
               match getReturnType (function f) with
               | IntegerTy bits =>
                   _ ← CreateStore (ConstantInt_getSigned bits 0) slot;
                   CreateBr end_bb
               | _ => undefined
               end
             else
               _ ← CreateStore (UndefValue (getReturnType (function f))) slot;
               CreateBr end_bb
         | None => undefined
         end
       else mret tt);
  terminated ← hasTerminator;
  if is_void (id (return_type node)) && negb terminated
  then CreateBr end_bb else mret tt.

(** [top_level_stmt_visitor::operator()(const ast::function_define&)],
    on the builder that holds the blocks of the function.  The function
    is the one the module has under the name, or the one the declaration
    creates; it is never null, so that the error of a function that could
    not be created is never thrown. *)
Definition define (module_ : gmap string function_info)
    (node : function_define) : CG function_info :=
  let f :=
    match module_ !! decl_name (decl node) with
    | Some f => f
    | None => declare (decl node)
    end in
  let module_ := <[decl_name (decl node) := f]> module_ in
  entry_bb ← lift (BasicBlock_Create true);
  _ ← modify (SetInsertPoint entry_bb);
  argument_values ← define_arguments f (decl node);
  end_bb ← lift (BasicBlock_Create false);
  retvar ← (if is_void (id (return_type (decl node)))
            then mret None
            else
              slot ← create_entry_block_alloca ""
                       (type_ (typename_to_type
                                 (id (return_type (decl node)))
                                 (is_ptr (return_type (decl node)))));
              mret (Some slot));
  _ ← codegen_compound_statement module_ retvar end_bb
        (body node) argument_values;
  _ ← default_return f (decl node) retvar end_bb;
  _ ← modify (push_back end_bb);
  _ ← modify (SetInsertPoint end_bb);
  _ ← match retvar with
      | Some slot =>
          match getAllocatedType slot with
          | Some allocated =>
              retval ← CreateLoad allocated slot;
              CreateRet (Some retval)
          | None => undefined
          end
      | None => CreateRet None
      end;
  b ← gets (fun b => b);
  match verifyFunction b with
  | Some message => throw (VerifyFailed message)
  | None => _ ← modify function_pm_run; mret f
  end.

(** *** What a definition leaves in the blocks *)

Lemma keeps_define_arguments (Q : Instruction -> Prop)
    (f : function_info) (node : function_declare) :
  (forall v, Q (Yield v)) -> (forall v ptr, Q (StoreInst v ptr)) ->
  keeps Q (define_arguments f node).
Proof.
  intros Q_Yield Q_Store. unfold define_arguments.
  generalize (∅ : symbol_table). generalize 0%nat.
  induction (arg_names f) as [|name names IH]; intros arg_no argument_values.
  - apply keeps_mret.
  - destruct (params node !! arg_no) as [param_node|];
      [|apply keeps_undefined].
    apply keeps_mbind;
      [apply keeps_create_entry_block_alloca, Q_Yield|intros slot].
    apply keeps_mbind; [apply keeps_CreateStore, Q_Store|intros _].
    destruct (param_qualifier param_node) as [[]|]; apply IH.
Qed.

Lemma keeps_default_return (Q : Instruction -> Prop)
    (f : function_info) (node : function_declare)
    (retvar : option LLVM.Value) (end_bb : nat) :
  (forall v ptr, Q (StoreInst v ptr)) -> (forall dest, Q (BranchInst dest)) ->
  keeps Q (default_return f node retvar end_bb).
Proof.
  intros Q_Store Q_Branch. unfold default_return.
  repeat first
    [ apply keeps_mret | apply keeps_undefined | apply keeps_hasTerminator
    | apply keeps_CreateStore, Q_Store
    | apply keeps_Insert, Q_Branch
    | match goal with
      | |- keeps _ (if ?c then _ else _) => destruct c
      | |- keeps _ (match ?x with _ => _ end) => destruct x
      end
    | apply keeps_mbind; [|intros ?] ].
Qed.

(** X25: the returns of a function are combined into one.  When a
    definition is lowered on blocks that hold no [ret], the function that
    is verified and handed to the passes has exactly one: it is the last
    instruction of the last block of the function, and before it that
    block holds no terminator.  A function that returns nothing returns
    nothing there, and another one returns a load of the slot of the return
    value.  The instructions of the builder's arithmetic and comparisons,
    which are left open, are assumed to give values. *)
Theorem define_single_return (module_ : gmap string function_info)
    (node : function_define) (b b' : Builder) (f : function_info) :
  (forall Q : Instruction -> Prop, (forall v, Q (Yield v)) ->
     forall opcode l r, keeps Q (CreateArith opcode l r)) ->
  (forall Q : Instruction -> Prop, (forall v, Q (Yield v)) ->
     forall predicate l r, keeps Q (CreateICmp_ predicate l r)) ->
  (forall bb i v, i ∈ block_insts b bb -> i <> ReturnInst v) ->
  define module_ node b = Ok f b' ->
  exists (b0 : Builder) (end_bb : nat) (retval : option LLVM.Value)
         (before : list Instruction),
    b' = function_pm_run b0
    /\ verifyFunction b0 = None
    /\ last (layout b0) = Some end_bb
    /\ block_insts b0 end_bb = before ++ [ReturnInst retval]
    /\ (forall i v, i ∈ before -> i <> ReturnInst v)
    /\ (forall bb i v,
          bb <> end_bb -> i ∈ block_insts b0 bb -> i <> ReturnInst v)
    /\ match retval with
       | None => is_void (id (return_type (decl node))) = true
       | Some v =>
           is_void (id (return_type (decl node))) = false
           /\ exists load_id slot_id,
                v = LoadInst load_id
                      (type_ (typename_to_type
                                (id (return_type (decl node)))
                                (is_ptr (return_type (decl node)))))
                      (AllocaInst slot_id ""
                         (type_ (typename_to_type
                                   (id (return_type (decl node)))
                                   (is_ptr (return_type (decl node))))))
       end.
Proof.
  intros HArith HICmp Hb Hdef.
  set (Q := fun i : Instruction => forall v, i <> ReturnInst v).
  assert (Q_Yield : forall v, Q (Yield v)) by (intros v w; discriminate).
  assert (Q_Store : forall v ptr, Q (StoreInst v ptr))
    by (intros v ptr w; discriminate).
  assert (Q_Branch : forall dest, Q (BranchInst dest))
    by (intros dest w; discriminate).
  assert (Q_CondBranch : forall c t e, Q (CondBranchInst c t e))
    by (intros c t e w; discriminate).
  assert (Hb0 : all_insts Q b) by (intros bb i Hi v; exact (Hb bb i v Hi)).
  unfold define, mbind, M_bind in Hdef.
  apply bind_Ok_inv in Hdef as (entry_bb & b1 & H1 & Hdef).
  apply bind_Ok_inv in Hdef as ([] & b2 & H2 & Hdef).
  apply bind_Ok_inv in Hdef as (argument_values & b3 & H3 & Hdef).
  apply bind_Ok_inv in Hdef as (end_bb & b4 & H4 & Hdef).
  apply bind_Ok_inv in Hdef as (retvar & b5 & H5 & Hdef).
  apply bind_Ok_inv in Hdef as ([] & b6 & H6 & Hdef).
  apply bind_Ok_inv in Hdef as ([] & b7 & H7 & Hdef).
  assert (Hb7 : all_insts Q b7).
  { eapply keeps_Ok; [|clear H7|exact H7].
    { apply keeps_default_return; assumption. }
    eapply keeps_Ok; [|clear H6|exact H6].
    { apply codegen_compound_statement_keeps; auto. }
    assert (Hb4 : all_insts Q b4).
    { eapply keeps_Ok; [apply keeps_BasicBlock_Create| |exact H4].
      eapply keeps_Ok; [|clear H3|exact H3].
      { apply keeps_define_arguments; assumption. }
      eapply keeps_Ok; [apply keeps_SetInsertPoint| |exact H2].
      eapply keeps_Ok; [apply keeps_BasicBlock_Create|exact Hb0|exact H1]. }
    destruct (is_void _).
    - injection H5 as _ <-. exact Hb4.
    - eapply keeps_Ok; [|exact Hb4|exact H5].
      apply keeps_mbind;
        [apply keeps_create_entry_block_alloca, Q_Yield|intros ?].
      apply keeps_mret. }
  assert (Hretvar :
    match retvar with
    | None => is_void (id (return_type (decl node))) = true
    | Some slot =>
        is_void (id (return_type (decl node))) = false
        /\ exists slot_id,
             slot = AllocaInst slot_id ""
                      (type_ (typename_to_type
                                (id (return_type (decl node)))
                                (is_ptr (return_type (decl node)))))
    end).
  { destruct (is_void _).
    - injection H5 as <- _. reflexivity.
    - unfold mbind, M_bind in H5.
      apply bind_Ok_inv in H5 as (slot & bs & Hslot & H5).
      apply create_entry_block_alloca_Ok in Hslot.
      injection H5 as <- _. split; [reflexivity|].
      eexists. exact Hslot. }
  clear H1 H2 H3 H4 H5 H6 H7.
  apply bind_Ok_inv in Hdef as ([] & b8 & H8 & Hdef).
  apply bind_Ok_inv in Hdef as ([] & b9 & H9 & Hdef).
  apply bind_Ok_inv in Hdef as ([] & b10 & H10 & Hdef).
  apply bind_Ok_inv in Hdef as (bx & b11 & H11 & Hdef).
  injection H8 as <-. injection H9 as <-. injection H11 as <- <-.
  destruct (verifyFunction b10) as [message|] eqn:Hverify; [discriminate|].
  injection Hdef as _ <-.
  destruct retvar as [slot|].
  - destruct Hretvar as (Hvoid & slot_id & ->). simpl in H10.
    injection H10 as <-.
    eexists _, end_bb, (Some _), _.
    split; [reflexivity|]. split; [exact Hverify|].
    split; [simpl; apply last_snoc|].
    split; [|split; [|split]].
    + repeat first [ rewrite lookup_insert_eq | progress simpl
                   | progress unfold block_insts, Insert, fresh ].
      reflexivity.
    + intros i v Hi. apply elem_of_app in Hi as [Hi|Hi].
      * exact (Hb7 _ _ Hi v).
      * apply list_elem_of_singleton in Hi. subst i. discriminate.
    + intros bb i v Hne Hi. unfold block_insts, Insert, fresh in Hi.
      simpl in Hi. rewrite !lookup_insert_ne in Hi by congruence.
      exact (Hb7 _ _ Hi v).
    + split; [exact Hvoid|]. eexists _, _. reflexivity.
  - simpl in H10. injection H10 as <-.
    eexists _, end_bb, None, _.
    split; [reflexivity|]. split; [exact Hverify|].
    split; [simpl; apply last_snoc|].
    split; [|split; [|split]].
    + unfold block_insts, Insert; simpl.
      rewrite !lookup_insert_eq; simpl. reflexivity.
    + intros i v Hi. exact (Hb7 _ _ Hi v).
    + intros bb i v Hne Hi. unfold block_insts, Insert in Hi.
      simpl in Hi. rewrite !lookup_insert_ne in Hi by congruence.
      exact (Hb7 _ _ Hi v).
    + exact Hretvar.
Qed.

End Codegen.

(** *** Examples *)

(** A builder that folds nothing, a back end that gives an undefined
    value for the arguments, keeps their names, accepts every function and
    has no passes. *)
Definition sample_CreateArith
  : string -> LLVM.Value -> LLVM.Value -> CG LLVM.Value := CreateBinOp.
Definition sample_CreateICmp
  : string -> LLVM.Value -> LLVM.Value -> CG LLVM.Value := CreateICmp.
Definition sample_arg_value (callee : string) (arg_no : nat) : LLVM.Value :=
  UndefValue (IntegerTy 32).
Definition sample_unique_names (names : list string) : list string := names.
Definition sample_verifyFunction (b : Builder) : option string := None.
Definition sample_function_pm_run (b : Builder) : Builder := b.

Lemma sample_CreateArith_keeps (Q : Instruction -> Prop) :
  (forall v, Q (Yield v)) ->
  forall opcode l r, keeps Q (sample_CreateArith opcode l r).
Proof. intros Q_Yield opcode l r. apply keeps_CreateBinOp, Q_Yield. Qed.

Lemma sample_CreateICmp_keeps (Q : Instruction -> Prop) :
  (forall v, Q (Yield v)) ->
  forall predicate l r, keeps Q (sample_CreateICmp predicate l r).
Proof. intros Q_Yield predicate l r. apply keeps_CreateICmp, Q_Yield. Qed.

Lemma sample_CreateArith_never_throws (opcode : string) (l r : LLVM.Value)
    (b : Builder) (e : Error) (b' : Builder) :
  sample_CreateArith opcode l r b <> Throw e b'.
Proof. discriminate. Qed.

Lemma sample_CreateICmp_never_throws (predicate : string)
    (l r : LLVM.Value) (b : Builder) (e : Error) (b' : Builder) :
  sample_CreateICmp predicate l r b <> Throw e b'.
Proof. discriminate. Qed.

(** A scope with [m], a mutable [i32], and [k], an [i32] that is not
    mutable, whose slots are the instructions of the entry block. *)
Definition slot_m : LLVM.Value := AllocaInst 0 "m" (IntegerTy 32).
Definition slot_k : LLVM.Value := AllocaInst 1 "k" (IntegerTy 32).
Definition scope_mk : symbol_table :=
  {[ "m"%string := mk_variable_info slot_m true true;
     "k"%string := mk_variable_info slot_k false true ]}.
Definition builder_mk : Builder :=
  mkBuilder {[ 0%nat := [Yield slot_k; Yield slot_m] ]} [0%nat] 0 1 2.


(** X21 (witness): the theorem at [m = 1]. *)
Lemma direct_assignment_witness :
  exists b2,
    expression_visitor sample_CreateArith sample_CreateICmp ∅ scope_mk
      (binary_op_expr (variable_expr "m") "=" (uint32 1)) builder_mk
    = Ok (Some (LoadInst 3 (IntegerTy 32) slot_m)) b2
    /\ block_insts b2 0
       = [Yield slot_k; Yield slot_m;
          StoreInst (ConstantInt 32 1) slot_m;
          Yield (LoadInst 2 (IntegerTy 32) slot_m);
          Yield (LoadInst 3 (IntegerTy 32) slot_m)]
    /\ (forall bb, bb <> 0%nat ->
          block_insts b2 bb = block_insts builder_mk bb).
Proof.
  exact (direct_assignment sample_CreateArith sample_CreateICmp ∅ scope_mk
           "m" (uint32 1) builder_mk builder_mk (ConstantInt 32 1)
           (mk_variable_info slot_m true true) (IntegerTy 32)
           eq_refl eq_refl eq_refl eq_refl).
Defined.

(** X22 (witness): the theorem at [m = k + 1]. *)
Lemma expression_stores_to_mutable_only_witness :
  match
    expression_visitor sample_CreateArith sample_CreateICmp ∅ scope_mk
      (binary_op_expr (variable_expr "m") "="
         (binary_op_expr (variable_expr "k") "+" (uint32 1)))
      builder_mk
  with
  | Ok _ b' | Throw _ b' =>
      forall bb i, i ∈ block_insts b' bb ->
        (exists bb0, i ∈ block_insts builder_mk bb0)
        \/ (exists v, i = Yield v)
        \/ (exists v name var_info,
              i = StoreInst v (inst var_info)
              /\ symbol_table_at scope_mk name = Some var_info
              /\ is_mutable var_info = true)
  | Undefined => True
  end.
Proof.
  exact (expression_stores_to_mutable_only
           sample_CreateArith sample_CreateICmp ∅ scope_mk
           (binary_op_expr (variable_expr "m") "="
              (binary_op_expr (variable_expr "k") "+" (uint32 1)))
           builder_mk sample_CreateArith_keeps sample_CreateICmp_keeps).
Defined.

(** The scope and the builder after the definition of a new [i32] [n]
    under [scope_mk]: the slot of [n] is at the beginning of the entry
    block. *)
Definition slot_n : LLVM.Value := AllocaInst 2 "n" (IntegerTy 32).
Definition scope_mkn : symbol_table :=
  <["n"%string := mk_variable_info slot_n false true]> scope_mk.
Definition builder_mkn : Builder :=
  mkBuilder {[ 0%nat := [Yield slot_n; Yield slot_k; Yield slot_m] ]}
            [0%nat] 0 1 3.

(** X23 (witness): the theorem at a definition of [m], which is in
    scope, and at the definition of [n], which is not. *)
Lemma statement_scope_witness :
  statement_visitor sample_CreateArith sample_CreateICmp ∅ None 1 scope_mk
    (variable_def_statement (Some mutable_) "m" (mk_type_info i32 false)
                            None) builder_mk
  = Throw (Redefinition "m") builder_mk
  /\ statement_visitor sample_CreateArith sample_CreateICmp ∅ None 1 scope_mk
       (variable_def_statement None "n" (mk_type_info i32 false) None)
       builder_mk
     = Ok scope_mkn builder_mkn
  /\ symbol_table_at scope_mk "n" = None
  /\ scope_mkn
     = <["n"%string := mk_variable_info (AllocaInst 2 "n" (IntegerTy 32))
                                        false true]> scope_mk.
Proof.
  pose proof (statement_scope sample_CreateArith sample_CreateICmp ∅ None 1
                scope_mk builder_mk) as [Hrefused Hlowered].
  assert (Hrun :
    statement_visitor sample_CreateArith sample_CreateICmp ∅ None 1 scope_mk
      (variable_def_statement None "n" (mk_type_info i32 false) None)
      builder_mk
    = Ok scope_mkn builder_mkn) by (vm_compute; reflexivity).
  split; [|split; [exact Hrun|]].
  - exact (Hrefused (Some mutable_) "m"%string (mk_type_info i32 false) None
                    (mk_variable_info slot_m true true) eq_refl).
  - exact (Hlowered _ _ _ Hrun).
Defined.

(** X26 (witness): the theorem at the statement [k = 1;]. *)
Lemma statement_visitor_throws_witness :
  statement_visitor sample_CreateArith sample_CreateICmp ∅ None 1 scope_mk
    (statement_expression
       (binary_op_expr (variable_expr "k") "=" (uint32 1))) builder_mk
  = Throw (AssignmentOfReadOnly "k") builder_mk
  /\ is_check_error (AssignmentOfReadOnly "k") = true.
Proof.
  split; [reflexivity|].
  exact (statement_visitor_throws sample_CreateArith sample_CreateICmp ∅
           None 1 sample_CreateArith_never_throws
           sample_CreateICmp_never_throws
           (statement_expression
              (binary_op_expr (variable_expr "k") "=" (uint32 1)))
           scope_mk builder_mk builder_mk (AssignmentOfReadOnly "k")
           eq_refl).
Defined.

(** A function [f] without parameters whose body returns the [i32]
    [1], the builder before it is defined and the builder after: the entry
    block stores [1] in the slot of the return value and goes to the last
    block, which loads the slot and returns. *)
Definition function_f : function_define :=
  mk_function_define
    (mk_function_declare None "f" [] (mk_type_info i32 false))
    [return_statement (Some (int32 1))].
Definition builder_0 : Builder := mkBuilder ∅ [] 0 0 0.
Definition retvar_f : LLVM.Value := AllocaInst 0 "" (IntegerTy 32).
Definition builder_f : Builder :=
  mkBuilder {[ 0%nat := [Yield retvar_f;
                         StoreInst (ConstantInt 32 1) retvar_f;
                         BranchInst 1];
               1%nat := [Yield (LoadInst 1 (IntegerTy 32) retvar_f);
                         ReturnInst
                           (Some (LoadInst 1 (IntegerTy 32) retvar_f))] ]}
            [0%nat; 1%nat] 1 2 2.

(** X25 (witness): the theorem at the definition of [f]. *)
Lemma define_single_return_witness :
  exists (b0 : Builder) (end_bb : nat) (retval : option LLVM.Value)
         (before : list Instruction),
    builder_f = sample_function_pm_run b0
    /\ sample_verifyFunction b0 = None
    /\ last (layout b0) = Some end_bb
    /\ block_insts b0 end_bb = before ++ [ReturnInst retval]
    /\ (forall i v, i ∈ before -> i <> ReturnInst v)
    /\ (forall bb i v,
          bb <> end_bb -> i ∈ block_insts b0 bb -> i <> ReturnInst v)
    /\ match retval with
       | None => is_void i32 = true
       | Some v =>
           is_void i32 = false
           /\ exists load_id slot_id,
                v = LoadInst load_id (IntegerTy 32)
                      (AllocaInst slot_id "" (IntegerTy 32))
       end.
Proof.
  apply (define_single_return sample_CreateArith sample_CreateICmp
           sample_arg_value sample_unique_names sample_verifyFunction
           sample_function_pm_run ∅ function_f builder_0 builder_f
           (declare sample_unique_names (decl function_f))
           sample_CreateArith_keeps sample_CreateICmp_keeps).
  - intros bb i v Hi. unfold block_insts, builder_0 in Hi. simpl in Hi.
    rewrite lookup_empty in Hi. inversion Hi.
  - vm_compute. reflexivity.
Defined.

End Miko.
